(** * A STOMP-subset publish/subscribe relay: frame codec, subscription
      registry, broadcast and command dispatch.

    Shallow embedding of [src/server-native-ws.js], which holds two copies of
    the protocol engine: the native-WebSocket binding (module [Native]) and
    the SockJS/streaming binding (module [SockJS]).

    - JavaScript strings are sequences of UTF-16 code units: [list N].
    - The decoded [headers] object is only read by property name, never
      enumerated: a [gmap] from names to values.
    - [Map] and [Set] iterate in insertion order and [broadcast] iterates
      them: insertion-ordered association lists and lists.
    - Connections are compared by reference: a handle in [nat].
    - [ws.send]/[conn.send] calls are recorded in an outbound log.

    Module [Channels] embeds [src/server.js], the relay of JSON messages
    between the sockets of a channel. *)

From Stdlib Require Import NArith Ascii String Lia.
From stdpp Require Import base option list strings gmap pretty.

(** ** JavaScript strings *)

Abbreviation jsstring := (list N).

Definition NUL : N := 0.
Definition NL : N := 10.
Definition COLON : N := 58.

(** A literal of the source, as code units. *)
Definition lit (s : string) : jsstring :=
  N_of_ascii <$> list_ascii_of_string s.

(** Truthiness of a string value: the empty string is falsy. *)
Definition truthy (s : jsstring) : bool :=
  match s with [] => false | _ :: _ => true end.

(** White space and line terminators, the code units [String.prototype.trim]
    strips. *)
Definition is_ws (c : N) : bool :=
  ((9 <=? c) && (c <=? 13) || (c =? 32) || (c =? 160) || (c =? 5760)
   || (8192 <=? c) && (c <=? 8202) || (c =? 8232) || (c =? 8233)
   || (c =? 8239) || (c =? 8287) || (c =? 12288) || (c =? 65279))%N.

Fixpoint trimStart (s : jsstring) : jsstring :=
  match s with
  | [] => []
  | c :: r => if is_ws c then trimStart r else s
  end.

Definition trimEnd (s : jsstring) : jsstring :=
  reverse (trimStart (reverse s)).

(** [s.trim()] *)
Definition trim (s : jsstring) : jsstring := trimEnd (trimStart s).

(** Puts a code unit in front of the first segment of a split. *)
Definition cons_seg (c : N) (segs : list jsstring) : list jsstring :=
  match segs with
  | [] => [[c]]
  | seg :: rest => (c :: seg) :: rest
  end.

(** [s.split(sep)] for a separator of one code unit: ['\0'] and ['\n']. *)
Fixpoint split1 (sep : N) (s : jsstring) : list jsstring :=
  match s with
  | [] => [[]]
  | c :: r => if (c =? sep)%N then [] :: split1 sep r
              else cons_seg c (split1 sep r)
  end.

(** [s.split('\n\n')]: matches are found left to right and do not overlap. *)
Fixpoint split_blank (s : jsstring) : list jsstring :=
  match s with
  | [] => [[]]
  | c :: r =>
      match r with
      | [] => [[c]]
      | d :: r' =>
          if ((c =? NL) && (d =? NL))%N then [] :: split_blank r'
          else cons_seg c (split_blank r)
      end
  end.

(** [parts.join(sep)] *)
Fixpoint join (sep : jsstring) (parts : list jsstring) : jsstring :=
  match parts with
  | [] => []
  | p :: ps =>
      match ps with
      | [] => p
      | _ :: _ => p ++ sep ++ join sep ps
      end
  end.

(** [s.indexOf(c)]; [None] stands for [-1]. *)
Fixpoint indexOf (c : N) (s : jsstring) : option nat :=
  match s with
  | [] => None
  | x :: r => if (x =? c)%N then Some 0 else S <$> indexOf c r
  end.

(** [lines.filter(Boolean)] on an array of strings. *)
Fixpoint filter_truthy (lines : list jsstring) : list jsstring :=
  match lines with
  | [] => []
  | l :: ls => if truthy l then l :: filter_truthy ls else filter_truthy ls
  end.

(** ** Frames *)

(** [headers[key] = value] on an object created by [{}], with a string
    value.  The name [__proto__] reaches the accessor inherited from
    [Object.prototype], which ignores a value that is not an object: no own
    property is created. *)
Definition PROTO : jsstring := lit "__proto__".

Definition obj_set (o : gmap jsstring jsstring) (key value : jsstring)
  : gmap jsstring jsstring :=
  if decide (key = PROTO) then o else <[key := value]> o.

Record Frame := mkFrame {
  command : jsstring;
  headers : gmap jsstring jsstring;
  body : jsstring
}.

(** A header read such as [const { id } = headers]: [None] is [undefined]. *)
Definition header (name : string) (h : gmap jsstring jsstring)
  : option jsstring := h !! lit name.

(** [!v] for a value that is a string or [undefined]. *)
Definition falsy (v : option jsstring) : bool :=
  match v with
  | None => true
  | Some s => negb (truthy s)
  end.

(** ** [Map] and [Set]

    Both iterate in insertion order.  [Map.set] on a present key keeps the
    entry where it is; keys are unique, so [Map.delete] leaves no entry for
    the key. *)

Section Collections.
Context {K V : Type} `{!EqDecision K}.

Fixpoint Map_get (k : K) (m : list (K * V)) : option V :=
  match m with
  | [] => None
  | (k', v) :: r => if decide (k = k') then Some v else Map_get k r
  end.

Definition Map_has (k : K) (m : list (K * V)) : bool :=
  match Map_get k m with Some _ => true | None => false end.

Fixpoint Map_set (k : K) (v : V) (m : list (K * V)) : list (K * V) :=
  match m with
  | [] => [(k, v)]
  | (k', v') :: r =>
      if decide (k = k') then (k, v) :: r else (k', v') :: Map_set k v r
  end.

Fixpoint Map_delete (k : K) (m : list (K * V)) : list (K * V) :=
  match m with
  | [] => []
  | (k', v') :: r =>
      if decide (k = k') then Map_delete k r else (k', v') :: Map_delete k r
  end.

(** A method call on the object stored under [k], which changes that
    object in place; nothing happens when [k] is absent. *)
Fixpoint Map_alter (f : V → V) (k : K) (m : list (K * V)) : list (K * V) :=
  match m with
  | [] => []
  | (k', v') :: r =>
      if decide (k = k') then (k', f v') :: r else (k', v') :: Map_alter f k r
  end.

Fixpoint Set_has (x : K) (s : list K) : bool :=
  match s with
  | [] => false
  | y :: r => if decide (x = y) then true else Set_has x r
  end.

Definition Set_add (x : K) (s : list K) : list K :=
  if Set_has x s then s else s ++ [x].

Fixpoint Set_delete (x : K) (s : list K) : list K :=
  match s with
  | [] => []
  | y :: r => if decide (x = y) then Set_delete x r else y :: Set_delete x r
  end.

(** [c.size === 0] *)
Definition is_empty {A} (c : list A) : bool :=
  match c with [] => true | _ :: _ => false end.
End Collections.

(** ** The two indices, the transports and the outbound log *)

Record Registry := mkRegistry {
  subscriptionsByConn : list (nat * list (jsstring * jsstring));
  subscribersByDestination : list (jsstring * list (nat * list jsstring))
}.

Definition emptyRegistry : Registry := mkRegistry [] [].

Inductive ReadyState := CONNECTING | OPEN | CLOSING | CLOSED.

Definition is_open (s : ReadyState) : bool :=
  match s with OPEN => true | _ => false end.

(** [registry]: the two module-level maps.  [readyState]: the state of each
    connection's transport.  [outbox]: the calls of the transport's [send],
    oldest first.  [uuidCalls]: how many times [randomUUID] was called. *)
Record World := mkWorld {
  registry : Registry;
  readyState : nat → ReadyState;
  outbox : list (nat * jsstring);
  uuidCalls : nat
}.

Definition set_registry (r : Registry) (w : World) : World :=
  mkWorld r (readyState w) (outbox w) (uuidCalls w).

(** The transport's [close()]: an open connection starts closing. *)
Definition transport_close (c : nat) (w : World) : World :=
  mkWorld (registry w)
          (λ c', if decide (c' = c)
                 then match readyState w c with OPEN => CLOSING | s => s end
                 else readyState w c')
          (outbox w) (uuidCalls w).

(** The transport's [send(frame)], recorded. *)
Definition transport_send (c : nat) (frame : jsstring) (w : World) : World :=
  mkWorld (registry w) (readyState w) (outbox w ++ [(c, frame)]) (uuidCalls w).

(** ** The native-WebSocket binding (first half of the source file) *)

Module Native.

Definition ensureDestinationEntry (destination : jsstring)
    (byDest : list (jsstring * list (nat * list jsstring)))
  : list (jsstring * list (nat * list jsstring)) :=
  if Map_has destination byDest then byDest
  else Map_set destination [] byDest.

(** The value of [frame] when [sendFrame] reaches its write; [headers] is
    [Object.entries(headers)]. *)
Definition frameText (command : jsstring)
    (headers : list (jsstring * jsstring)) (body : jsstring) : jsstring :=
  let frame := command ++ [NL] in
  let frame :=
    foldl (λ frame kv, frame ++ (kv.1 ++ [COLON] ++ kv.2 ++ [NL]))
          frame headers in
  let frame := frame ++ [NL] in
  let frame := frame ++ (if truthy body then body else []) in
  frame ++ [NUL].

Definition sendFrame (ws : nat) (command : jsstring)
    (headers : list (jsstring * jsstring)) (body : jsstring) (w : World)
  : World :=
  let frame := frameText command headers body in
  if is_open (readyState w ws) then transport_send ws frame w else w.

Definition addSubscription (ws : nat) (subId destination : jsstring)
    (r : Registry) : Registry :=
  let byConn := subscriptionsByConn r in
  let byConn := if Map_has ws byConn then byConn else Map_set ws [] byConn in
  let byConn := Map_alter (Map_set subId destination) ws byConn in
  let byDest := ensureDestinationEntry destination (subscribersByDestination r) in
  let byDest :=
    Map_alter (λ destinationSubscribers,
                 let ds := if Map_has ws destinationSubscribers
                           then destinationSubscribers
                           else Map_set ws [] destinationSubscribers in
                 Map_alter (Set_add subId) ws ds)
              destination byDest in
  mkRegistry byConn byDest.

(** [subSet.delete(subId)] on the set of [ws] under one destination, then
    the two [size === 0] prunings. *)
Definition dropFromDestination (ws : nat) (subId : jsstring)
    (destinationSubscribers : list (nat * list jsstring))
    (subSet : list jsstring) : list (nat * list jsstring) :=
  let subSet := Set_delete subId subSet in
  if is_empty subSet then Map_delete ws destinationSubscribers
  else Map_set ws subSet destinationSubscribers.

Definition pruneDestination (destination : jsstring)
    (destinationSubscribers : list (nat * list jsstring))
    (byDest : list (jsstring * list (nat * list jsstring)))
  : list (jsstring * list (nat * list jsstring)) :=
  if is_empty destinationSubscribers then Map_delete destination byDest
  else Map_set destination destinationSubscribers byDest.

Definition removeSubscription (ws : nat) (subId : jsstring) (r : Registry)
  : Registry :=
  match Map_get ws (subscriptionsByConn r) with
  | None => r
  | Some connSubs =>
      match Map_get subId connSubs with
      | None => r
      | Some destination =>
          if negb (truthy destination) then r
          else
            let connSubs := Map_delete subId connSubs in
            let byConn :=
              if is_empty connSubs then Map_delete ws (subscriptionsByConn r)
              else Map_set ws connSubs (subscriptionsByConn r) in
            let byDest := subscribersByDestination r in
            match Map_get destination byDest with
            | None => mkRegistry byConn byDest
            | Some destinationSubscribers =>
                match Map_get ws destinationSubscribers with
                | None => mkRegistry byConn byDest
                | Some subSet =>
                    let ds := dropFromDestination ws subId
                                destinationSubscribers subSet in
                    mkRegistry byConn (pruneDestination destination ds byDest)
                end
            end
      end
  end.

(** One turn of the loop of [cleanupConnection]. *)
Definition cleanupStep (ws : nat)
    (byDest : list (jsstring * list (nat * list jsstring)))
    (entry : jsstring * jsstring)
  : list (jsstring * list (nat * list jsstring)) :=
  let '(subId, destination) := entry in
  match Map_get destination byDest with
  | None => byDest
  | Some destinationSubscribers =>
      let ds :=
        match Map_get ws destinationSubscribers with
        | Some subSet =>
            dropFromDestination ws subId destinationSubscribers subSet
        | None => destinationSubscribers
        end in
      pruneDestination destination ds byDest
  end.

Definition cleanupConnection (ws : nat) (r : Registry) : Registry :=
  match Map_get ws (subscriptionsByConn r) with
  | None => r
  | Some connSubs =>
      mkRegistry (Map_delete ws (subscriptionsByConn r))
                 (foldl (cleanupStep ws) (subscribersByDestination r) connSubs)
  end.

Definition parseHeaderLine (hs : gmap jsstring jsstring) (line : jsstring)
  : gmap jsstring jsstring :=
  match indexOf COLON line with
  | None => hs
  | Some separatorIndex =>
      obj_set hs (trim (take separatorIndex line))
                 (trim (drop (S separatorIndex) line))
  end.

(** One turn of the loop over [rawFrames]; [None] is [continue]. *)
Definition parseRaw (raw : jsstring) : option Frame :=
  if negb (truthy raw) then None
  else if bool_decide (raw = [NL]) then None
  else
    match split_blank raw with
    | [] => None
    | first :: parts =>
        match filter_truthy (split1 NL first) with
        | [] => None
        | commandLine :: headerLines =>
            let cmd := trim commandLine in
            if negb (truthy cmd) then None
            else Some {| command := cmd;
                         headers := foldl parseHeaderLine ∅ headerLines;
                         body := join [NL; NL] parts |}
        end
    end.

Fixpoint parseLoop (rawFrames : list jsstring) : list Frame :=
  match rawFrames with
  | [] => []
  | raw :: rest =>
      match parseRaw raw with
      | None => parseLoop rest
      | Some f => f :: parseLoop rest
      end
  end.

Definition parseFrames (chunk : jsstring) : list Frame :=
  if negb (truthy chunk) then [] else parseLoop (split1 NUL chunk).

Section Engine.
(** [randomUUID n] is what the [n]-th call of [randomUUID()] returns. *)
Variable randomUUID : nat → jsstring.

Definition messageHeaders (subId destination : jsstring) (n : nat)
  : list (jsstring * jsstring) :=
  [ (lit "subscription", subId);
    (lit "destination", destination);
    (lit "message-id", randomUUID n) ].

Definition tick (w : World) : World :=
  mkWorld (registry w) (readyState w) (outbox w) (S (uuidCalls w)).

Definition broadcast (destination body : jsstring) (w : World) : World :=
  match Map_get destination (subscribersByDestination (registry w)) with
  | None => w
  | Some destinationSubscribers =>
      foldl (λ w entry,
               let '(ws, subIds) := entry in
               if is_open (readyState w ws) then
                 foldl (λ w subId,
                          sendFrame ws (lit "MESSAGE")
                            (messageHeaders subId destination (uuidCalls w))
                            body (tick w))
                       w subIds
               else w)
            w destinationSubscribers
  end.

Definition handleFrame (ws : nat) (frame : Frame) (w : World) : World :=
  let cmd := command frame in
  if bool_decide (cmd = lit "CONNECT") || bool_decide (cmd = lit "STOMP")
  then sendFrame ws (lit "CONNECTED") [(lit "version", lit "1.2")] [] w
  else if bool_decide (cmd = lit "SUBSCRIBE") then
    let id := header "id" (headers frame) in
    let destination := header "destination" (headers frame) in
    if falsy id || falsy destination then
      sendFrame ws (lit "ERROR")
        [(lit "message", lit "Subscription requires id and destination")]
        (lit "Missing id or destination header") w
    else
      set_registry
        (addSubscription ws (default [] id) (default [] destination)
           (registry w)) w
  else if bool_decide (cmd = lit "UNSUBSCRIBE") then
    let id := header "id" (headers frame) in
    if falsy id then w
    else set_registry (removeSubscription ws (default [] id) (registry w)) w
  else if bool_decide (cmd = lit "SEND") then
    let destination := header "destination" (headers frame) in
    if falsy destination then w
    else broadcast (default [] destination) (body frame) w
  else if bool_decide (cmd = lit "DISCONNECT") then
    transport_close ws
      (set_registry (cleanupConnection ws (registry w)) w)
  else w.

(** The [message] listener. *)
Definition onMessage (ws : nat) (message : jsstring) (w : World) : World :=
  foldl (λ w frame, handleFrame ws frame w) w (parseFrames message).

(** The [close] listener; the transport is closed when it runs. *)
Definition onClose (ws : nat) (w : World) : World :=
  set_registry (cleanupConnection ws (registry w))
    (mkWorld (registry w)
             (λ c, if decide (c = ws) then CLOSED else readyState w c)
             (outbox w) (uuidCalls w)).
End Engine.
End Native.

(** ** The SockJS/streaming binding (second half of the source file) *)

Module SockJS.

Definition ensureDestinationEntry (destination : jsstring)
    (byDest : list (jsstring * list (nat * list jsstring)))
  : list (jsstring * list (nat * list jsstring)) :=
  if Map_has destination byDest then byDest
  else Map_set destination [] byDest.

(** The value of [frame] when [sendFrame] reaches its write; [headers] is
    [Object.entries(headers)]. *)
Definition frameText (command : jsstring)
    (headers : list (jsstring * jsstring)) (body : jsstring) : jsstring :=
  let frame := command ++ [NL] in
  let frame :=
    foldl (λ frame kv, frame ++ (kv.1 ++ [COLON] ++ kv.2 ++ [NL]))
          frame headers in
  let frame := frame ++ [NL] in
  let frame := frame ++ (if truthy body then body else []) in
  frame ++ [NUL].

Definition sendFrame (conn : nat) (command : jsstring)
    (headers : list (jsstring * jsstring)) (body : jsstring) (w : World)
  : World :=
  let frame := frameText command headers body in
  transport_send conn frame w.

Definition addSubscription (conn : nat) (subId destination : jsstring)
    (r : Registry) : Registry :=
  let byConn := subscriptionsByConn r in
  let byConn := if Map_has conn byConn then byConn else Map_set conn [] byConn in
  let byConn := Map_alter (Map_set subId destination) conn byConn in
  let byDest := ensureDestinationEntry destination (subscribersByDestination r) in
  let byDest :=
    Map_alter (λ destinationSubscribers,
                 let ds := if Map_has conn destinationSubscribers
                           then destinationSubscribers
                           else Map_set conn [] destinationSubscribers in
                 Map_alter (Set_add subId) conn ds)
              destination byDest in
  mkRegistry byConn byDest.

(** [subSet.delete(subId)] on the set of [conn] under one destination, then
    the two [size === 0] prunings. *)
Definition dropFromDestination (conn : nat) (subId : jsstring)
    (destinationSubscribers : list (nat * list jsstring))
    (subSet : list jsstring) : list (nat * list jsstring) :=
  let subSet := Set_delete subId subSet in
  if is_empty subSet then Map_delete conn destinationSubscribers
  else Map_set conn subSet destinationSubscribers.

Definition pruneDestination (destination : jsstring)
    (destinationSubscribers : list (nat * list jsstring))
    (byDest : list (jsstring * list (nat * list jsstring)))
  : list (jsstring * list (nat * list jsstring)) :=
  if is_empty destinationSubscribers then Map_delete destination byDest
  else Map_set destination destinationSubscribers byDest.

Definition removeSubscription (conn : nat) (subId : jsstring) (r : Registry)
  : Registry :=
  match Map_get conn (subscriptionsByConn r) with
  | None => r
  | Some connSubs =>
      match Map_get subId connSubs with
      | None => r
      | Some destination =>
          if negb (truthy destination) then r
          else
            let connSubs := Map_delete subId connSubs in
            let byConn :=
              if is_empty connSubs then Map_delete conn (subscriptionsByConn r)
              else Map_set conn connSubs (subscriptionsByConn r) in
            let byDest := subscribersByDestination r in
            match Map_get destination byDest with
            | None => mkRegistry byConn byDest
            | Some destinationSubscribers =>
                match Map_get conn destinationSubscribers with
                | None => mkRegistry byConn byDest
                | Some subSet =>
                    let ds := dropFromDestination conn subId
                                destinationSubscribers subSet in
                    mkRegistry byConn (pruneDestination destination ds byDest)
                end
            end
      end
  end.

(** One turn of the loop of [cleanupConnection]. *)
Definition cleanupStep (conn : nat)
    (byDest : list (jsstring * list (nat * list jsstring)))
    (entry : jsstring * jsstring)
  : list (jsstring * list (nat * list jsstring)) :=
  let '(subId, destination) := entry in
  match Map_get destination byDest with
  | None => byDest
  | Some destinationSubscribers =>
      let ds :=
        match Map_get conn destinationSubscribers with
        | Some subSet =>
            dropFromDestination conn subId destinationSubscribers subSet
        | None => destinationSubscribers
        end in
      pruneDestination destination ds byDest
  end.

Definition cleanupConnection (conn : nat) (r : Registry) : Registry :=
  match Map_get conn (subscriptionsByConn r) with
  | None => r
  | Some connSubs =>
      mkRegistry (Map_delete conn (subscriptionsByConn r))
                 (foldl (cleanupStep conn) (subscribersByDestination r) connSubs)
  end.

Definition parseHeaderLine (hs : gmap jsstring jsstring) (line : jsstring)
  : gmap jsstring jsstring :=
  match indexOf COLON line with
  | None => hs
  | Some separatorIndex =>
      obj_set hs (trim (take separatorIndex line))
                 (trim (drop (S separatorIndex) line))
  end.

(** One turn of the loop over [rawFrames]; [None] is [continue]. *)
Definition parseRaw (raw : jsstring) : option Frame :=
  if negb (truthy raw) then None
  else if bool_decide (raw = [NL]) then None
  else
    match split_blank raw with
    | [] => None
    | first :: parts =>
        match filter_truthy (split1 NL first) with
        | [] => None
        | commandLine :: headerLines =>
            let cmd := trim commandLine in
            if negb (truthy cmd) then None
            else Some {| command := cmd;
                         headers := foldl parseHeaderLine ∅ headerLines;
                         body := join [NL; NL] parts |}
        end
    end.

Fixpoint parseLoop (rawFrames : list jsstring) : list Frame :=
  match rawFrames with
  | [] => []
  | raw :: rest =>
      match parseRaw raw with
      | None => parseLoop rest
      | Some f => f :: parseLoop rest
      end
  end.

Definition parseFrames (chunk : jsstring) : list Frame :=
  if negb (truthy chunk) then [] else parseLoop (split1 NUL chunk).

Section Engine.
(** [randomUUID n] is what the [n]-th call of [randomUUID()] returns. *)
Variable randomUUID : nat → jsstring.

Definition messageHeaders (subId destination : jsstring) (n : nat)
  : list (jsstring * jsstring) :=
  [ (lit "subscription", subId);
    (lit "destination", destination);
    (lit "message-id", randomUUID n) ].

Definition tick (w : World) : World :=
  mkWorld (registry w) (readyState w) (outbox w) (S (uuidCalls w)).

Definition broadcast (destination body : jsstring) (w : World) : World :=
  match Map_get destination (subscribersByDestination (registry w)) with
  | None => w
  | Some destinationSubscribers =>
      foldl (λ w entry,
               let '(conn, subIds) := entry in
               foldl (λ w subId,
                        sendFrame conn (lit "MESSAGE")
                          (messageHeaders subId destination (uuidCalls w))
                          body (tick w))
                     w subIds)
            w destinationSubscribers
  end.

Definition handleFrame (conn : nat) (frame : Frame) (w : World) : World :=
  let cmd := command frame in
  if bool_decide (cmd = lit "CONNECT") || bool_decide (cmd = lit "STOMP")
  then sendFrame conn (lit "CONNECTED") [(lit "version", lit "1.2")] [] w
  else if bool_decide (cmd = lit "SUBSCRIBE") then
    let id := header "id" (headers frame) in
    let destination := header "destination" (headers frame) in
    if falsy id || falsy destination then
      sendFrame conn (lit "ERROR")
        [(lit "message", lit "Subscription requires id and destination")]
        (lit "Missing id or destination header") w
    else
      set_registry
        (addSubscription conn (default [] id) (default [] destination)
           (registry w)) w
  else if bool_decide (cmd = lit "UNSUBSCRIBE") then
    let id := header "id" (headers frame) in
    if falsy id then w
    else set_registry (removeSubscription conn (default [] id) (registry w)) w
  else if bool_decide (cmd = lit "SEND") then
    let destination := header "destination" (headers frame) in
    if falsy destination then w
    else broadcast (default [] destination) (body frame) w
  else if bool_decide (cmd = lit "DISCONNECT") then
    transport_close conn
      (set_registry (cleanupConnection conn (registry w)) w)
  else w.

(** [registerConnection], up to its first statement on the registry:
    the new handle [conn] gets an empty map of subscriptions. *)
Definition registerConnection (conn : nat) (w : World) : World :=
  set_registry
    (mkRegistry (Map_set conn [] (subscriptionsByConn (registry w)))
                (subscribersByDestination (registry w))) w.

(** The handler given to [transport.onData]. *)
Definition onData (conn : nat) (chunk : jsstring) (w : World) : World :=
  foldl (λ w frame, handleFrame conn frame w) w (parseFrames chunk).

(** The handler given to [transport.onClose]; the transport is closed
    when it runs. *)
Definition onClose (conn : nat) (w : World) : World :=
  set_registry (cleanupConnection conn (registry w))
    (mkWorld (registry w)
             (λ c, if decide (c = conn) then CLOSED else readyState w c)
             (outbox w) (uuidCalls w)).
End Engine.
End SockJS.

(** ** What the two indices say, and the invariants I1-I3 *)

(** The connection index maps [(c, s)] to [d]. *)
Definition conn_has (r : Registry) (c : nat) (s d : jsstring) : Prop :=
  ∃ connSubs, Map_get c (subscriptionsByConn r) = Some connSubs
              ∧ Map_get s connSubs = Some d.

(** The destination index lists [s] for [c] under [d]. *)
Definition dest_lists (byDest : list (jsstring * list (nat * list jsstring)))
    (d : jsstring) (c : nat) (s : jsstring) : Prop :=
  ∃ ds subSet, Map_get d byDest = Some ds ∧ Map_get c ds = Some subSet
               ∧ s ∈ subSet.

Definition dest_has (r : Registry) (d : jsstring) (c : nat) (s : jsstring)
  : Prop := dest_lists (subscribersByDestination r) d c s.

Definition I1 (r : Registry) : Prop :=
  ∀ c s d, conn_has r c s d ↔ dest_has r d c s.

Definition I2 (r : Registry) : Prop :=
  ∀ d, is_Some (Map_get d (subscribersByDestination r))
       ↔ ∃ c s, dest_has r d c s.

Definition I3 (r : Registry) : Prop :=
  ∀ c, is_Some (Map_get c (subscriptionsByConn r))
       ↔ ∃ s d, conn_has r c s d.

(** Calls of the three registry operations. *)
Inductive RegistryCall :=
| AddSubscription (c : nat) (s d : jsstring)
| RemoveSubscription (c : nat) (s : jsstring)
| RemoveAllForConnection (c : nat).

Definition call (r : Registry) (op : RegistryCall) : Registry :=
  match op with
  | AddSubscription c s d => Native.addSubscription c s d r
  | RemoveSubscription c s => Native.removeSubscription c s r
  | RemoveAllForConnection c => Native.cleanupConnection c r
  end.

Definition calls (ops : list RegistryCall) : Registry :=
  foldl call emptyRegistry ops.

(** Unique keys in a [Map], unique members in a [Set]: what the two
    containers guarantee by construction. *)
Definition Map_wf {K V} (m : list (K * V)) : Prop := NoDup m.*1.

Definition entry_wf (ds : list (nat * list jsstring)) : Prop :=
  Map_wf ds ∧ ∀ c subSet, (c, subSet) ∈ ds → NoDup subSet.

Definition dest_wf (byDest : list (jsstring * list (nat * list jsstring)))
  : Prop :=
  Map_wf byDest ∧ ∀ d ds, (d, ds) ∈ byDest → entry_wf ds.

Definition conn_wf (byConn : list (nat * list (jsstring * jsstring)))
  : Prop :=
  Map_wf byConn ∧ ∀ c connSubs, (c, connSubs) ∈ byConn → Map_wf connSubs.

Definition Registry_wf (r : Registry) : Prop :=
  conn_wf (subscriptionsByConn r) ∧ dest_wf (subscribersByDestination r).

(** The reply to a [SUBSCRIBE] without [id] or [destination], as written
    to the transport. *)
Definition errorFrame : jsstring :=
  lit "ERROR" ++ NL :: lit "message:Subscription requires id and destination"
  ++ NL :: NL :: lit "Missing id or destination header" ++ [NUL].

(** The pairs [broadcast] visits, in its order of iteration: for each
    entry of the destination whose transport is open, each id of its set. *)
Fixpoint open_pairs (rs : nat → ReadyState) (ds : list (nat * list jsstring))
  : list (nat * jsstring) :=
  match ds with
  | [] => []
  | (c, subIds) :: rest =>
      (if is_open (rs c) then pair c <$> subIds else []) ++ open_pairs rs rest
  end.

(** The [MESSAGE] frame written for the pair [p], with the result of the
    [n]-th call of [randomUUID]. *)
Definition messageFrame (randomUUID : nat → jsstring) (d body : jsstring)
    (n : nat) (p : nat * jsstring) : nat * jsstring :=
  (p.1, lit "MESSAGE" ++ NL :: lit "subscription:" ++ p.2
        ++ NL :: lit "destination:" ++ d
        ++ NL :: lit "message-id:" ++ randomUUID n
        ++ NL :: NL :: body ++ [NUL]).

(** The frames written for a list of pairs: the pair at position [i] gets
    the result of call [n + i] of [randomUUID]. *)
Fixpoint messageFrames (randomUUID : nat → jsstring) (d body : jsstring)
    (n : nat) (pairs : list (nat * jsstring)) : list (nat * jsstring) :=
  match pairs with
  | [] => []
  | p :: rest =>
      messageFrame randomUUID d body n p
      :: messageFrames randomUUID d body (S n) rest
  end.

(** The wire grammar [command NL (key ":" value NL)* NL body NUL]. *)
Fixpoint header_lines (hs : list (jsstring * jsstring)) : jsstring :=
  match hs with
  | [] => []
  | kv :: rest => kv.1 ++ COLON :: kv.2 ++ NL :: header_lines rest
  end.

Definition encodeFrame (cmd : jsstring) (hs : list (jsstring * jsstring))
    (bdy : jsstring) : jsstring :=
  cmd ++ NL :: header_lines hs ++ NL :: bdy ++ [NUL].

(** No empty inner map or set is kept: what the [size === 0] prunings are
    for. *)
Definition pruned (r : Registry) : Prop :=
  (∀ c connSubs, Map_get c (subscriptionsByConn r) = Some connSubs →
     connSubs ≠ [])
  ∧ (∀ d ds, Map_get d (subscribersByDestination r) = Some ds → ds ≠ [])
  ∧ (∀ d ds c subSet, Map_get d (subscribersByDestination r) = Some ds →
       Map_get c ds = Some subSet → subSet ≠ []).

Definition consistent (r : Registry) : Prop := I1 r ∧ pruned r.

(** A call that does not give an id in use a different destination. *)
Definition keeps_destination (r : Registry) (op : RegistryCall) : Prop :=
  match op with
  | AddSubscription c s d => ∀ d0, conn_has r c s d0 → d0 = d
  | _ => True
  end.

(** Sequences of calls, none of which re-targets an id in use. *)
Inductive reaches : Registry → Prop :=
| reaches_empty : reaches emptyRegistry
| reaches_call r op :
    reaches r → keeps_destination r op → reaches (call r op).

(** ** Worlds and chunks of the examples *)

(** A generator of identifiers for the examples: the [n]-th call returns
    ["id-"] followed by [n] in unary. *)
Definition sampleUUID (n : nat) : jsstring := lit "id-" ++ replicate n 49%N.

Definition everyone_open : nat → ReadyState := λ _, OPEN.

(** The state after [SUBSCRIBE id:s destination:d1] and then
    [SUBSCRIBE id:s destination:d2] on connection 1. *)
Definition resubscribed : Registry :=
  calls [AddSubscription 1 (lit "s") (lit "d1");
         AddSubscription 1 (lit "s") (lit "d2")].

(** Connection 1 subscribed to two destinations under two ids. *)
Definition two_subscriptions : Registry :=
  calls [AddSubscription 1 (lit "a") (lit "d1");
         AddSubscription 1 (lit "b") (lit "d2")].

Definition world0 : World := mkWorld emptyRegistry everyone_open [] 0.

(** Connections 1 and 2 subscribed to [room/1], connection 1 under two
    ids. *)
Definition room_registry : Registry :=
  calls [AddSubscription 1 (lit "s1") (lit "room/1");
         AddSubscription 2 (lit "s2") (lit "room/1");
         AddSubscription 1 (lit "s3") (lit "room/1")].

Definition room_world : World := mkWorld room_registry everyone_open [] 0.

(** The same registry with the transport of connection 1 closed. *)
Definition room_world_1_closed : World :=
  mkWorld room_registry (λ c, if decide (c = 1) then CLOSED else OPEN) [] 0.

Definition subscribeChunk (id destination : jsstring) : jsstring :=
  lit "SUBSCRIBE" ++ NL :: lit "id:" ++ id ++ NL :: lit "destination:"
  ++ destination ++ [NL; NL; NUL].

Definition sendChunk (destination body : jsstring) : jsstring :=
  lit "SEND" ++ NL :: lit "destination:" ++ destination ++ NL :: NL :: body
  ++ [NUL].

(** [DISCONNECT] and a [SUBSCRIBE] without headers in one delivery. *)
Definition disconnectThenSubscribe : jsstring :=
  lit "DISCONNECT" ++ [NUL] ++ lit "SUBSCRIBE" ++ [NL; NL; NUL].

(** SockJS binding: connection 1 subscribes id [s] to [d1], then to [d2],
    and closes; connection 2 then sends to [d1]. *)
Definition sockjs_stale_run : World :=
  SockJS.onData sampleUUID 2 (sendChunk (lit "d1") (lit "hi"))
    (SockJS.registerConnection 2
       (SockJS.onClose 1
          (SockJS.onData sampleUUID 1 (subscribeChunk (lit "s") (lit "d2"))
             (SockJS.onData sampleUUID 1 (subscribeChunk (lit "s") (lit "d1"))
                (SockJS.registerConnection 1 world0))))).

(** The same deliveries on the native binding. *)
Definition native_stale_run : World :=
  Native.onMessage sampleUUID 2 (sendChunk (lit "d1") (lit "hi"))
    (Native.onClose 1
       (Native.onMessage sampleUUID 1 (subscribeChunk (lit "s") (lit "d2"))
          (Native.onMessage sampleUUID 1 (subscribeChunk (lit "s") (lit "d1"))
             world0))).

(** ** Conditions on what is encoded *)

(** Two line feeds in a row somewhere in [s]. *)
Fixpoint has_blank (s : jsstring) : bool :=
  match s with
  | [] => false
  | c :: r =>
      match r with
      | [] => false
      | d :: _ => ((c =? NL) && (d =? NL))%N || has_blank r
      end
  end.

(** Puts [p] in front of the first segment of a split. *)
Definition prepend_seg (p : jsstring) (segs : list jsstring)
  : list jsstring :=
  match segs with
  | [] => [p]
  | seg :: rest => (p ++ seg) :: rest
  end.

(** The line [key:value] of a header. *)
Definition header_line (kv : jsstring * jsstring) : jsstring :=
  kv.1 ++ COLON :: kv.2.

(** The header mapping after trimming of names and values; of two entries
    whose names trim to the same, the later stays. *)
Definition trimmed_headers (hs : list (jsstring * jsstring))
  : gmap jsstring jsstring :=
  foldl (λ o kv, <[trim kv.1 := trim kv.2]> o) ∅ hs.

(** A command that survives the wire: not blank, on one line, without
    NUL. *)
Definition wire_command (c : jsstring) : Prop :=
  trim c ≠ [] ∧ (NL ∉ c) ∧ (NUL ∉ c).

(** A header that survives the wire: name and value non-empty, on one line
    and without NUL; no colon in the name; the name is not [__proto__]
    once trimmed. *)
Definition wire_header (kv : jsstring * jsstring) : Prop :=
  kv.1 ≠ [] ∧ kv.2 ≠ []
  ∧ (NL ∉ kv.1) ∧ (NUL ∉ kv.1) ∧ (COLON ∉ kv.1) ∧ trim kv.1 ≠ PROTO
  ∧ (NL ∉ kv.2) ∧ (NUL ∉ kv.2).

(** The names of the headers, trimmed. *)
Definition trimmed_names (hs : list (jsstring * jsstring)) : list jsstring :=
  (λ kv, trim kv.1) <$> hs.

(** ** Further properties of the registry: what they are stated with *)

(** Every subscription of the connection index is listed in the destination
    index: the half of I1 that makes a subscriber receive its messages. *)
Definition backed (r : Registry) : Prop :=
  ∀ c s d, conn_has r c s d → dest_has r d c s.

(** No call of the sequence, run from [r], gives an id in use a different
    destination. *)
Fixpoint keep_destinations (r : Registry) (ops : list RegistryCall) : Prop :=
  match ops with
  | [] => True
  | op :: rest => keeps_destination r op ∧ keep_destinations (call r op) rest
  end.

(** A sequence that subscribes, unsubscribes, uses the freed id for another
    destination and cleans a connection up. *)
Definition sample_calls : list RegistryCall :=
  [ AddSubscription 1 (lit "a") (lit "d1");
    AddSubscription 2 (lit "a") (lit "d1");
    RemoveSubscription 1 (lit "a");
    AddSubscription 1 (lit "a") (lit "d2");
    RemoveAllForConnection 2 ].

(** ** Deliveries and close events of the native binding *)

(** What the listeners of one connection see. *)
Inductive NativeEvent :=
| Delivered (ws : nat) (message : jsstring)
| Closed (ws : nat).

Definition native_step (randomUUID : nat → jsstring) (w : World)
    (e : NativeEvent) : World :=
  match e with
  | Delivered ws message => Native.onMessage randomUUID ws message w
  | Closed ws => Native.onClose ws w
  end.

Definition native_run (randomUUID : nat → jsstring) (w : World)
    (events : list NativeEvent) : World :=
  foldl (native_step randomUUID) w events.

(** Ids and destinations kept in the connection index are non-empty. *)
Definition stores_truthy (r : Registry) : Prop :=
  ∀ c s d, conn_has r c s d → s ≠ [] ∧ d ≠ [].

(** Two connections subscribe to [news]; the first moves its id to
    [sport] (its entry under [news] stays), the second sends to [news], the
    first unsubscribes and disconnects; then its transport closes. *)
Definition sample_events : list NativeEvent :=
  [ Delivered 1 (subscribeChunk (lit "s1") (lit "news"));
    Delivered 2 (subscribeChunk (lit "s2") (lit "news"));
    Delivered 1 (subscribeChunk (lit "s1") (lit "sport"));
    Delivered 2 (sendChunk (lit "news") (lit "hello"));
    Delivered 1 (lit "UNSUBSCRIBE" ++ NL :: lit "id:s1" ++ [NL; NL; NUL]
                 ++ lit "DISCONNECT" ++ [NL; NL; NUL]);
    Closed 1 ].

Definition event_connection (e : NativeEvent) : nat :=
  match e with Delivered ws _ => ws | Closed ws => ws end.

(** The reply to [CONNECT] and [STOMP], as written to the transport. *)
Definition connectedFrame : jsstring :=
  lit "CONNECTED" ++ NL :: lit "version:1.2" ++ [NL; NL; NUL].

(** The commands [handleFrame] knows. *)
Definition known_commands : list jsstring :=
  [lit "CONNECT"; lit "STOMP"; lit "SUBSCRIBE"; lit "UNSUBSCRIBE";
   lit "SEND"; lit "DISCONNECT"].

(** Frames of the examples. *)
Definition subscribeFrame (id destination : jsstring) : Frame :=
  {| command := lit "SUBSCRIBE";
     headers := {[ lit "id" := id; lit "destination" := destination ]};
     body := [] |}.

Definition unsubscribeFrame (id : jsstring) : Frame :=
  {| command := lit "UNSUBSCRIBE"; headers := {[ lit "id" := id ]};
     body := [] |}.

Definition sendFrameTo (destination body : jsstring) : Frame :=
  {| command := lit "SEND";
     headers := {[ lit "destination" := destination ]}; body := body |}.

Definition disconnectFrame : Frame :=
  {| command := lit "DISCONNECT"; headers := ∅; body := [] |}.

(** ** Further properties of the codec: what they are stated with *)

(** A code unit of a heartbeat: white space or the terminator. *)
Definition idle_unit (x : N) : Prop := is_ws x = true ∨ x = NUL.

(** A command, headers and a body that survive the wire. *)
Definition wire_frame (t : jsstring * list (jsstring * jsstring) * jsstring)
  : Prop :=
  wire_command t.1.1 ∧ Forall wire_header t.1.2 ∧ (NUL ∉ t.2).

Definition encode_wire (t : jsstring * list (jsstring * jsstring) * jsstring)
  : jsstring := Native.frameText t.1.1 t.1.2 t.2.

Definition decoded_wire (t : jsstring * list (jsstring * jsstring) * jsstring)
  : Frame :=
  {| command := trim t.1.1; headers := trimmed_headers t.1.2; body := t.2 |}.

(** [SockJS] registers connection 7 on the registry of [room_world]. *)
Definition registered_world : World := SockJS.registerConnection 7 room_world.

(** A string as the decoder stores one: trimmed, on one line, without
    NUL. *)
Definition tidy (s : jsstring) : Prop :=
  trim s = s ∧ (NL ∉ s) ∧ (NUL ∉ s).

(** The shape of a decoded frame. *)
Definition decoded_shape (f : Frame) : Prop :=
  command f ≠ [] ∧ tidy (command f) ∧ (NUL ∉ body f)
  ∧ ∀ k v, headers f !! k = Some v →
           tidy k ∧ tidy v ∧ (COLON ∉ k) ∧ k ≠ PROTO.

(** ** Runs of the SockJS binding *)

(** What reaches the SockJS binding: a new connection, a chunk on a
    connection, the close of one. *)
Inductive SockEvent :=
| SockConnected (conn : nat)
| SockData (conn : nat) (chunk : jsstring)
| SockClosed (conn : nat).

Definition sock_step (randomUUID : nat → jsstring) (w : World)
    (e : SockEvent) : World :=
  match e with
  | SockConnected conn => SockJS.registerConnection conn w
  | SockData conn chunk => SockJS.onData randomUUID conn chunk w
  | SockClosed conn => SockJS.onClose conn w
  end.

Definition sock_run (randomUUID : nat → jsstring) (w : World)
    (events : list SockEvent) : World :=
  foldl (sock_step randomUUID) w events.

(** No destination is kept with an empty entry, no subscriber with an
    empty set of ids. *)
Definition pruned_destinations (r : Registry) : Prop :=
  (∀ d ds, Map_get d (subscribersByDestination r) = Some ds → ds ≠ [])
  ∧ (∀ d ds c subSet, Map_get d (subscribersByDestination r) = Some ds →
       Map_get c ds = Some subSet → subSet ≠ []).

(** What every state of the SockJS binding satisfies. *)
Definition sock_sound (r : Registry) : Prop :=
  backed r ∧ pruned_destinations r ∧ Registry_wf r ∧ stores_truthy r.

(** A connection arrives, subscribes, unsubscribes; a second one arrives
    and sends. *)
Definition sock_sample_events : list SockEvent :=
  [ SockConnected 1;
    SockData 1 (subscribeChunk (lit "s1") (lit "news"));
    SockConnected 2;
    SockData 2 (sendChunk (lit "news") (lit "hello"));
    SockClosed 1 ].

(** ** The channel relay ([src/server.js]) *)

Module Channels.

(** A value [JSON.parse] returns.  The properties of an object are listed
    in the order the engine enumerates them. *)
#[warnings="-register-all"]
Inductive JSON (Number : Type) :=
| JNull
| JBool (b : bool)
| JNum (x : Number)
| JStr (s : jsstring)
| JArr (items : list (JSON Number))
| JObj (props : list (jsstring * JSON Number)).

Arguments JNull {Number}.
Arguments JBool {Number} b.
Arguments JNum {Number} x.
Arguments JStr {Number} s.
Arguments JArr {Number} items.
Arguments JObj {Number} props.

(** [channels]: the module-level map from channel ids to sets of sockets.
    [listeners]: the closures the connection handler has registered, each
    with the socket it listens on and the [channelId] it captured.
    [socketState]: the [readyState] of each socket.  [sent]: the calls of
    [client.send], oldest first.  [clockCalls]: how many times [Date.now]
    was called. *)
Record Hub := mkHub {
  channels : list (jsstring * list nat);
  listeners : list (nat * jsstring);
  socketState : nat → ReadyState;
  sent : list (nat * jsstring);
  clockCalls : nat
}.

(** [params.get('channel') || 'general']; [param] is what
    [params.get('channel')] returns, [None] for [null]. *)
Definition channelIdOf (param : option jsstring) : jsstring :=
  match param with
  | Some s => if truthy s then s else lit "general"
  | None => lit "general"
  end.

(** The connection handler, up to the registration of the listeners. *)
Definition onConnection (socket : nat) (param : option jsstring) (h : Hub)
  : Hub :=
  let channelId := channelIdOf param in
  let chans :=
    if negb (Map_has channelId (channels h))
    then Map_set channelId [] (channels h) else channels h in
  let chans := Map_alter (Set_add socket) channelId chans in
  mkHub chans (listeners h ++ [(socket, channelId)]) (socketState h) (sent h)
        (clockCalls h).

Section Relay.
Context {Number : Type}.
(** [JSON.parse], [None] when it throws; [JSON.stringify]; [now n] is what
    the [n]-th call of [Date.now()] returns. *)
Variable JSON_parse : jsstring → option (JSON Number).
Variable JSON_stringify : JSON Number → jsstring.
Variable now : nat → Number.

(** What [...payload] copies: the own enumerable properties, which a
    string and an array have under their indices. *)
Definition ownProperties (payload : JSON Number)
  : list (jsstring * JSON Number) :=
  match payload with
  | JObj props => props
  | JArr items => imap (λ i v, (lit (pretty i), v)) items
  | JStr s => imap (λ i c, (lit (pretty i), JStr [c])) s
  | _ => []
  end.

(** [{...payload}] *)
Definition spread (payload : JSON Number) : list (jsstring * JSON Number) :=
  foldl (λ o kv, Map_set kv.1 kv.2 o) [] (ownProperties payload).

(** [{...payload, timestamp: Date.now(), channelId}] *)
Definition enrich (payload : JSON Number) (timestamp : Number)
    (channelId : jsstring) : list (jsstring * JSON Number) :=
  Map_set (lit "channelId") (JStr channelId)
    (Map_set (lit "timestamp") (JNum timestamp) (spread payload)).

Definition send (client : nat) (text : jsstring) (h : Hub) : Hub :=
  mkHub (channels h) (listeners h) (socketState h) (sent h ++ [(client, text)])
        (clockCalls h).

(** The body of the loop over the sockets of the channel. *)
Definition deliver (text : jsstring) (h : Hub) (client : nat) : Hub :=
  if is_open (socketState h client) then send client text h else h.

(** The [message] listener of a connection whose handler computed
    [channelId].  [None]: an exception leaves the listener, which the loop
    over [channels.get(channelId)] raises when the map has no such key. *)
Definition onMessage (channelId : jsstring) (raw : jsstring) (h : Hub)
  : option Hub :=
  match JSON_parse raw with
  | None => Some h
  | Some payload =>
      let enriched :=
        JSON_stringify (JObj (enrich payload (now (clockCalls h)) channelId)) in
      let h := mkHub (channels h) (listeners h) (socketState h) (sent h)
                     (S (clockCalls h)) in
      match Map_get channelId (channels h) with
      | None => None
      | Some clients => Some (foldl (deliver enriched) h clients)
      end
  end.

(** The [close] listener; the socket is closed when it runs. *)
Definition onClose (channelId : jsstring) (socket : nat) (h : Hub) : Hub :=
  mkHub (Map_alter (Set_delete socket) channelId (channels h)) (listeners h)
        (λ c, if decide (c = socket) then CLOSED else socketState h c)
        (sent h) (clockCalls h).

(** An event on [socket] runs the listeners registered on it, oldest
    first; an exception ends the run. *)
Fixpoint emit (listener : jsstring → Hub → option Hub) (socket : nat)
    (registered : list (nat * jsstring)) (h : Hub) : option Hub :=
  match registered with
  | [] => Some h
  | (socket', channelId) :: rest =>
      if decide (socket' = socket)
      then match listener channelId h with
           | None => None
           | Some h' => emit listener socket rest h'
           end
      else emit listener socket rest h
  end.

(** What reaches the server: a connection with what
    [params.get('channel')] gives for its URL, a message, a close. *)
Inductive Event :=
| Connection (socket : nat) (param : option jsstring)
| Message (socket : nat) (raw : jsstring)
| Close (socket : nat).

Definition step (h : Hub) (e : Event) : option Hub :=
  match e with
  | Connection socket param => Some (onConnection socket param h)
  | Message socket raw =>
      emit (λ channelId, onMessage channelId raw) socket (listeners h) h
  | Close socket =>
      emit (λ channelId h, Some (onClose channelId socket h)) socket
           (listeners h) h
  end.

Fixpoint run (h : Hub) (events : list Event) : option Hub :=
  match events with
  | [] => Some h
  | e :: rest =>
      match step h e with
      | None => None
      | Some h' => run h' rest
      end
  end.
End Relay.

(** The server before the first connection. *)
Definition start (state : nat → ReadyState) : Hub := mkHub [] [] state [] 0.

(** [socket] is in the set of [channelId]. *)
Definition member (h : Hub) (channelId : jsstring) (socket : nat) : Prop :=
  ∃ clients, Map_get channelId (channels h) = Some clients ∧ socket ∈ clients.

(** [socket] connected with [channelId]. *)
Definition joined (h : Hub) (socket : nat) (channelId : jsstring) : Prop :=
  (socket, channelId) ∈ listeners h.

(** What every state of the relay satisfies: the channel a listener
    captured has its set; the members of a set connected to its channel;
    keys and members are unique. *)
Definition sound (h : Hub) : Prop :=
  (∀ socket channelId, joined h socket channelId →
     is_Some (Map_get channelId (channels h)))
  ∧ (∀ channelId socket, member h channelId socket →
       joined h socket channelId)
  ∧ Map_wf (channels h)
  ∧ (∀ channelId clients, (channelId, clients) ∈ channels h → NoDup clients).

(** The sockets of [clients] that are open, in their order. *)
Definition open_clients (h : Hub) (clients : list nat) : list nat :=
  filter (λ c, is_open (socketState h c) = true) clients.
End Channels.

(** Stand-ins for [JSON.parse], [JSON.stringify] and [Date.now] in the
    examples: only [{}] and [42] parse. *)
Definition sample_parse (raw : jsstring) : option (Channels.JSON N) :=
  if decide (raw = lit "{}") then Some (Channels.JObj [])
  else if decide (raw = lit "42") then Some (Channels.JNum 42%N)
  else None.

Definition sample_stringify (v : Channels.JSON N) : jsstring :=
  match v with
  | Channels.JObj props => lit "{" ++ concat (fst <$> props) ++ lit "}"
  | _ => lit "?"
  end.

Definition sample_now (n : nat) : N := 1000 + N.of_nat n.

(** Sockets 1 and 2 connect to [room], socket 3 without a channel; socket 1
    speaks; socket 2 leaves. *)
Definition sample_relay_events : list Channels.Event :=
  [ Channels.Connection 1 (Some (lit "room"));
    Channels.Connection 2 (Some (lit "room"));
    Channels.Connection 3 None;
    Channels.Message 1 (lit "{}");
    Channels.Close 2 ].

Definition sample_hub : Channels.Hub :=
  default (Channels.start everyone_open)
    (Channels.run sample_parse sample_stringify sample_now
       (Channels.start everyone_open) sample_relay_events).

(** * Lemmas on the containers *)

Section CollectionLemmas.
Context {K V : Type} `{!EqDecision K}.
Implicit Types (m : list (K * V)) (s : list K).

Lemma Map_get_set k' k v m :
  Map_get k' (Map_set k v m) = if decide (k' = k) then Some v else Map_get k' m.
Proof.
  induction m as [|[k0 v0] m IH]; simpl.
  - repeat case_decide; congruence.
  - repeat (case_decide; simpl); try congruence.
Qed.

Lemma Map_get_delete k' k m :
  Map_get k' (Map_delete k m) = if decide (k' = k) then None else Map_get k' m.
Proof.
  induction m as [|[k0 v0] m IH]; simpl.
  - by case_decide.
  - repeat (case_decide; simpl); try congruence.
Qed.

Lemma Map_get_alter (f : V → V) k' k m :
  Map_get k' (Map_alter f k m)
  = if decide (k' = k) then f <$> Map_get k m else Map_get k' m.
Proof.
  induction m as [|[k0 v0] m IH]; simpl.
  - by case_decide.
  - repeat (case_decide; simpl); try congruence.
Qed.

Lemma Map_has_true k m : Map_has k m = true ↔ is_Some (Map_get k m).
Proof.
  unfold Map_has. destruct (Map_get k m); split; intros H; eauto;
    try done.
Qed.

Lemma Map_get_elem k v m : Map_get k m = Some v → (k, v) ∈ m.
Proof.
  induction m as [|[k0 v0] m IH]; simpl; [done|].
  case_decide; intros Hg; simplify_eq; [left | right; auto].
Qed.

Lemma Map_elem_get k v m : Map_wf m → (k, v) ∈ m → Map_get k m = Some v.
Proof.
  unfold Map_wf. induction m as [|[k0 v0] m IH]; simpl; intros Hnd Hin.
  - by apply elem_of_nil in Hin.
  - apply NoDup_cons in Hnd as [Hk0 Hnd].
    apply elem_of_cons in Hin as [Heq|Hin].
    + simplify_eq. by rewrite decide_True.
    + rewrite decide_False; [auto|]. intros ->. apply Hk0.
      apply list_elem_of_fmap. by exists (k0, v).
Qed.

Lemma Map_nonempty_get m : m ≠ [] → ∃ k v, Map_get k m = Some v.
Proof.
  destruct m as [|[k v] m]; [done|]. intros _. exists k, v. simpl.
  by rewrite decide_True.
Qed.

Lemma is_empty_true {A} (l : list A) : is_empty l = true ↔ l = [].
Proof. by destruct l. Qed.

Lemma is_empty_false {A} (l : list A) : is_empty l = false ↔ l ≠ [].
Proof. by destruct l. Qed.

Lemma Set_has_true x s : Set_has x s = true ↔ x ∈ s.
Proof.
  induction s as [|y s IH]; simpl.
  - split; [done|]. intros H. by apply elem_of_nil in H.
  - case_decide; subst.
    + split; [left|done].
    + rewrite IH. split; [by right|]. intros H'.
      apply elem_of_cons in H' as [?|?]; [done|auto].
Qed.

Lemma elem_of_Set_add x y s : x ∈ Set_add y s ↔ x = y ∨ x ∈ s.
Proof.
  unfold Set_add. destruct (Set_has y s) eqn:E.
  - apply Set_has_true in E. split; [auto|]. by intros [->|].
  - rewrite elem_of_app, list_elem_of_singleton. tauto.
Qed.

Lemma elem_of_Set_delete x y s : x ∈ Set_delete y s ↔ x ≠ y ∧ x ∈ s.
Proof.
  induction s as [|z s IH]; simpl.
  - split; [intros H; by apply elem_of_nil in H|]. intros [_ H].
    by apply elem_of_nil in H.
  - case_decide; subst.
    + rewrite IH, elem_of_cons. tauto.
    + rewrite !elem_of_cons, IH. intuition congruence.
Qed.
End CollectionLemmas.

(** * Lemmas on the registry operations *)

Section RegistryLemmas.
Implicit Types (byDest : list (jsstring * list (nat * list jsstring)))
  (ds : list (nat * list jsstring)) (subSet : list jsstring)
  (c : nat) (s d : jsstring).

Lemma get_dropFromDestination c' c s ds subSet :
  Map_get c ds = Some subSet →
  Map_get c' (Native.dropFromDestination c s ds subSet)
  = if decide (c' = c)
    then (if is_empty (Set_delete s subSet) then None
          else Some (Set_delete s subSet))
    else Map_get c' ds.
Proof.
  intros Hc. unfold Native.dropFromDestination.
  destruct (is_empty (Set_delete s subSet)).
  - by rewrite Map_get_delete.
  - by rewrite Map_get_set.
Qed.

Lemma get_pruneDestination d' d ds byDest :
  Map_get d' (Native.pruneDestination d ds byDest)
  = if decide (d' = d) then (if is_empty ds then None else Some ds)
    else Map_get d' byDest.
Proof.
  unfold Native.pruneDestination. destruct (is_empty ds).
  - by rewrite Map_get_delete.
  - by rewrite Map_get_set.
Qed.

Lemma Map_get_Some_nonempty {K V} `{!EqDecision K} (k : K) (v : V) m :
  Map_get k m = Some v → is_empty m = false.
Proof. by destruct m. Qed.

(** Dropping [s] from the set of [c] under [d], with the prunings, takes
    exactly the triple [(d, c, s)] out of the destination index. *)
Lemma dest_lists_drop byDest d c s ds subSet d' c' s' :
  Map_get d byDest = Some ds → Map_get c ds = Some subSet →
  dest_lists
    (Native.pruneDestination d (Native.dropFromDestination c s ds subSet)
       byDest) d' c' s'
  ↔ dest_lists byDest d' c' s' ∧ ¬ (d' = d ∧ c' = c ∧ s' = s).
Proof.
  intros Hd Hc. unfold dest_lists. split.
  - intros (ds0 & ss0 & H1 & H2 & H3).
    rewrite get_pruneDestination in H1. case_decide as Ed.
    + subst d'.
      destruct (is_empty _) eqn:E in H1; [done|]. simplify_eq.
      rewrite (get_dropFromDestination _ _ _ _ _ Hc) in H2.
      case_decide as Ec.
      * subst c'. destruct (is_empty _) eqn:E' in H2; [done|].
        simplify_eq. apply elem_of_Set_delete in H3 as [Hne Hin].
        split; [eauto 6 | tauto].
      * split; [eauto 6 | tauto].
    + split; [eauto 6 | tauto].
  - intros [(ds0 & ss0 & H1 & H2 & H3) Hne].
    destruct (decide (d' = d)) as [->|Ed].
    + rewrite Hd in H1. simplify_eq.
      assert (∃ ss1, Map_get c' (Native.dropFromDestination c s ds0 subSet)
                     = Some ss1 ∧ s' ∈ ss1) as (ss1 & G1 & G2).
      { rewrite (get_dropFromDestination _ _ _ _ _ Hc).
        destruct (decide (c' = c)) as [->|Ec]; [|eauto].
        rewrite Hc in H2. simplify_eq.
        assert (s' ∈ Set_delete s ss0) as Hin.
        { apply elem_of_Set_delete. split; [|done]. intros ->. tauto. }
        destruct (Set_delete s ss0) eqn:E; [by apply elem_of_nil in Hin|].
        simpl. eauto. }
      exists (Native.dropFromDestination c s ds0 subSet), ss1.
      rewrite get_pruneDestination, decide_True by done.
      by rewrite (Map_get_Some_nonempty _ _ _ G1).
    + exists ds0, ss0. by rewrite get_pruneDestination, decide_False.
Qed.

(** One turn of the cleanup loop takes exactly [(d, c, s)] out. *)
Lemma dest_lists_cleanupStep byDest c s d d' c' s' :
  dest_lists (Native.cleanupStep c byDest (s, d)) d' c' s'
  ↔ dest_lists byDest d' c' s' ∧ ¬ (d' = d ∧ c' = c ∧ s' = s).
Proof.
  unfold Native.cleanupStep.
  destruct (Map_get d byDest) as [ds|] eqn:Hd.
  - destruct (Map_get c ds) as [subSet|] eqn:Hc.
    + by apply dest_lists_drop.
    + unfold dest_lists. split.
      * intros (ds0 & ss0 & H1 & H2 & H3).
        rewrite get_pruneDestination in H1. case_decide as Ed.
        -- subst. destruct (is_empty ds) eqn:E in H1; [done|]. simplify_eq.
           split; [eauto 6|]. intros (_ & -> & _). congruence.
        -- split; [eauto 6 | tauto].
      * intros [(ds0 & ss0 & H1 & H2 & H3) _]. exists ds0, ss0.
        rewrite get_pruneDestination. case_decide as Ed; [|done].
        subst. rewrite Hd in H1. simplify_eq.
        by rewrite (Map_get_Some_nonempty _ _ _ H2).
  - split; [|tauto]. intros H. split; [done|].
    intros (-> & _ & _). destruct H as (? & ? & ? & _). congruence.
Qed.

Lemma dest_lists_cleanup_loop c connSubs : ∀ byDest d' c' s',
  dest_lists (foldl (Native.cleanupStep c) byDest connSubs) d' c' s'
  ↔ dest_lists byDest d' c' s' ∧ ¬ (c' = c ∧ (s', d') ∈ connSubs).
Proof.
  induction connSubs as [|[s d] l IH]; intros byDest d' c' s'; cbn [foldl].
  - split; [|tauto]. intros H. split; [done|]. intros [_ H'].
    by apply elem_of_nil in H'.
  - rewrite IH, dest_lists_cleanupStep, elem_of_cons.
    split.
    + intros [[H1 H2] H3]. split; [done|]. intros [-> [Heq|Hin]].
      * simplify_eq. tauto.
      * tauto.
    + intros [H1 H2]. split; [split; [done|]|].
      * intros (-> & -> & ->). apply H2. split; [done|]. by left.
      * intros [-> Hin]. apply H2. split; [done|]. by right.
Qed.
Lemma get_ensure_alter {K V} `{!EqDecision K} (f : V → V) (k k' : K)
    (v0 : V) (m : list (K * V)) :
  Map_get k' (Map_alter f k (if Map_has k m then m else Map_set k v0 m))
  = if decide (k' = k) then Some (f (default v0 (Map_get k m)))
    else Map_get k' m.
Proof.
  rewrite Map_get_alter. unfold Map_has.
  destruct (Map_get k m) as [v|] eqn:E; case_decide; subst; simpl.
  - by rewrite E.
  - done.
  - by rewrite Map_get_set, decide_True.
  - by rewrite Map_get_set, decide_False.
Qed.

Lemma conn_has_add r c s d c' s' d' :
  conn_has (Native.addSubscription c s d r) c' s' d'
  ↔ (c' = c ∧ s' = s ∧ d' = d) ∨ (¬ (c' = c ∧ s' = s) ∧ conn_has r c' s' d').
Proof.
  unfold conn_has, Native.addSubscription; cbn [subscriptionsByConn].
  setoid_rewrite get_ensure_alter. split.
  - intros (m & H1 & H2). case_decide as Ec.
    + subst c'. simplify_eq. rewrite Map_get_set in H2.
      case_decide as Es; [left; by simplify_eq|right].
      split; [tauto|].
      destruct (Map_get c (subscriptionsByConn r)) as [m|]; [eauto|done].
    + right. split; [tauto | eauto].
  - intros [(-> & -> & ->)|[Hne (m & H1 & H2)]].
    + eexists. rewrite decide_True by done. split; [done|].
      by rewrite Map_get_set, decide_True.
    + case_decide as Ec.
      * subst c'. eexists. split; [done|]. rewrite H1. simpl.
        rewrite Map_get_set, decide_False; [done|]. intros ->. tauto.
      * eauto.
Qed.

Lemma dest_has_add r c s d d' c' s' :
  dest_has (Native.addSubscription c s d r) d' c' s'
  ↔ (d' = d ∧ c' = c ∧ s' = s) ∨ dest_has r d' c' s'.
Proof.
  unfold dest_has, dest_lists, Native.addSubscription,
    Native.ensureDestinationEntry; cbn [subscribersByDestination].
  setoid_rewrite get_ensure_alter. split.
  - intros (ds & subSet & H1 & H2 & H3). case_decide as Ed.
    + subst d'. simplify_eq. rewrite get_ensure_alter in H2.
      case_decide as Ec.
      * subst c'. simplify_eq. apply elem_of_Set_add in H3 as [->|H3].
        -- by left.
        -- right.
           destruct (Map_get d (subscribersByDestination r)) as [ds|];
             simpl in H3; [|by apply elem_of_nil in H3].
           destruct (Map_get c ds) as [ss|] eqn:E;
             simpl in H3; [|by apply elem_of_nil in H3]. eauto 6.
      * right.
        destruct (Map_get d (subscribersByDestination r)) as [ds|];
          simpl in H2; [eauto 6 | done].
    + right. eauto 6.
  - intros [(-> & -> & ->)|(ds & subSet & H1 & H2 & H3)].
    + do 2 eexists. rewrite decide_True by done. split; [done|].
      rewrite get_ensure_alter, decide_True by done. split; [done|].
      apply elem_of_Set_add. by left.
    + case_decide as Ed.
      * subst d'. rewrite H1. simpl. destruct (decide (c' = c)) as [->|Ec].
        -- do 2 eexists. split; [done|].
           rewrite get_ensure_alter, decide_True by done. split; [done|].
           rewrite H2. simpl. apply elem_of_Set_add. by right.
        -- do 2 eexists. split; [done|].
           rewrite get_ensure_alter, decide_False by done. eauto.
      * eauto 6.
Qed.
End RegistryLemmas.

(** * The invariants along call sequences that keep destinations *)

Section Invariants.
Implicit Types (r : Registry) (c : nat) (s d : jsstring).

Lemma pruned_I2 r : pruned r → I2 r.
Proof.
  intros (_ & K2 & K3) d. split.
  - intros [ds Hd]. destruct (Map_nonempty_get ds) as (c & subSet & Hc).
    { by eapply K2. }
    pose proof (K3 _ _ _ _ Hd Hc) as Hne.
    destruct subSet as [|s ss]; [done|]. exists c, s, ds, (s :: ss).
    split_and!; [done..|by left].
  - intros (c & s & ds & subSet & Hd & _). by exists ds.
Qed.

Lemma pruned_I3 r : pruned r → I3 r.
Proof.
  intros (K1 & _ & _) c. split.
  - intros [m Hc]. destruct (Map_nonempty_get m) as (s & d & Hs).
    { by eapply K1. }
    exists s, d, m. by split.
  - intros (s & d & m & Hc & _). by exists m.
Qed.

Lemma consistent_empty : consistent emptyRegistry.
Proof.
  split; [|by split_and!].
  intros c s d. split.
  - by intros (m & H1 & _).
  - by intros (ds & ss & H1 & _).
Qed.

Lemma Map_set_nonempty {K V} `{!EqDecision K} (k : K) (v : V) m :
  Map_set k v m ≠ [].
Proof. destruct m as [|[k0 v0] m]; simpl; [done|]. by case_decide. Qed.

Lemma Set_add_nonempty {K} `{!EqDecision K} (x : K) l : Set_add x l ≠ [].
Proof.
  intros E. assert (x ∈ Set_add x l) as H by (apply elem_of_Set_add; by left).
  rewrite E in H. by apply elem_of_nil in H.
Qed.

Lemma pruned_add r c s d : pruned r → pruned (Native.addSubscription c s d r).
Proof.
  intros (K1 & K2 & K3).
  unfold pruned, Native.addSubscription, Native.ensureDestinationEntry;
    cbn [subscriptionsByConn subscribersByDestination].
  split_and!.
  - intros c' m. rewrite get_ensure_alter. case_decide; [|by apply K1].
    intros ?; simplify_eq. apply Map_set_nonempty.
  - intros d' ds. rewrite get_ensure_alter. case_decide; [|by apply K2].
    intros [= <-] E.
    assert (Map_get c (@nil (nat * list jsstring)) = None) as Hnil by done.
    rewrite <- E, get_ensure_alter, decide_True in Hnil; done.
  - intros d' ds c' subSet. rewrite get_ensure_alter.
    case_decide; [|by apply K3]. intros ?; simplify_eq.
    rewrite get_ensure_alter. case_decide.
    + intros ?; simplify_eq. apply Set_add_nonempty.
    + destruct (Map_get d (subscribersByDestination r)) as [ds|] eqn:E;
        simpl; [by eapply K3 | done].
Qed.

Lemma consistent_add r c s d :
  consistent r → (∀ d0, conn_has r c s d0 → d0 = d) →
  consistent (Native.addSubscription c s d r).
Proof.
  intros [HI1 HP] Hkeep. split; [|by apply pruned_add].
  intros c' s' d'. rewrite conn_has_add, dest_has_add, <- (HI1 c' s' d'). split.
  - tauto.
  - intros [H|H]; [left; tauto|].
    destruct (decide (c' = c ∧ s' = s)) as [[-> ->]|Hne]; [|tauto].
    left. split_and!; [done..|]. by apply Hkeep.
Qed.

(** [removeSubscription], once it has found [destination] truthy. *)
Lemma get_remove_byConn r c s connSubs c' :
  Map_get c (subscriptionsByConn r) = Some connSubs →
  Map_get c'
    (if is_empty (Map_delete s connSubs)
     then Map_delete c (subscriptionsByConn r)
     else Map_set c (Map_delete s connSubs) (subscriptionsByConn r))
  = if decide (c' = c)
    then (if is_empty (Map_delete s connSubs) then None
          else Some (Map_delete s connSubs))
    else Map_get c' (subscriptionsByConn r).
Proof.
  intros _. destruct (is_empty _).
  - by rewrite Map_get_delete.
  - by rewrite Map_get_set.
Qed.

Lemma pruned_drop byDest d c s ds subSet :
  Map_get d byDest = Some ds → Map_get c ds = Some subSet →
  (∀ d0 ds0, Map_get d0 byDest = Some ds0 → ds0 ≠ []) →
  (∀ d0 ds0 c0 ss0, Map_get d0 byDest = Some ds0 →
     Map_get c0 ds0 = Some ss0 → ss0 ≠ []) →
  let byDest' :=
    Native.pruneDestination d (Native.dropFromDestination c s ds subSet)
      byDest in
  (∀ d0 ds0, Map_get d0 byDest' = Some ds0 → ds0 ≠ [])
  ∧ (∀ d0 ds0 c0 ss0, Map_get d0 byDest' = Some ds0 →
       Map_get c0 ds0 = Some ss0 → ss0 ≠ []).
Proof.
  intros Hd Hc K2 K3 byDest'. subst byDest'. split.
  - intros d0 ds0. rewrite get_pruneDestination.
    case_decide; [|by apply K2].
    destruct (is_empty _) eqn:E; [done|]. intros ?; simplify_eq.
    by apply is_empty_false.
  - intros d0 ds0 c0 ss0. rewrite get_pruneDestination.
    case_decide; [|by apply K3].
    destruct (is_empty _) eqn:E; [done|]. intros ?; simplify_eq.
    rewrite (get_dropFromDestination _ _ _ _ _ Hc).
    case_decide; [|by eapply K3].
    destruct (is_empty (Set_delete s subSet)) eqn:E'; [done|].
    intros ?; simplify_eq. by apply is_empty_false.
Qed.

Lemma consistent_remove r c s :
  consistent r → consistent (Native.removeSubscription c s r).
Proof.
  intros [HI1 (K1 & K2 & K3)]. unfold Native.removeSubscription.
  destruct (Map_get c (subscriptionsByConn r)) as [connSubs|] eqn:Hc;
    [|by split].
  destruct (Map_get s connSubs) as [d|] eqn:Hs; [|by split].
  destruct (negb (truthy d)); [by split|].
  assert (conn_has r c s d) as Hcs by (exists connSubs; by split).
  destruct (proj1 (HI1 _ _ _) Hcs) as (ds & subSet & Hd & Hcd & Hin).
  fold (subscribersByDestination r). rewrite Hd, Hcd.
  destruct (pruned_drop _ d c s ds subSet Hd Hcd K2 K3) as [K2' K3'].
  split; [|split_and!; cbn [subscriptionsByConn subscribersByDestination]].
  - intros c' s' d'. unfold dest_has; cbn [subscribersByDestination].
    rewrite (dest_lists_drop _ _ _ _ _ _ _ _ _ Hd Hcd).
    fold (dest_has r d' c' s'). rewrite <- (HI1 c' s' d').
    unfold conn_has at 1; cbn [subscriptionsByConn].
    setoid_rewrite (get_remove_byConn r c s connSubs c' Hc). split.
    + intros (m & H1 & H2). case_decide as Ec.
      * subst c'. destruct (is_empty _) eqn:E in H1; [done|].
        simplify_eq. rewrite Map_get_delete in H2.
        case_decide as Es; [done|]. split; [by exists connSubs|tauto].
      * split; [by exists m|tauto].
    + intros [(m & H1 & H2) Hne]. case_decide as Ec.
      * subst c'. rewrite Hc in H1. simplify_eq.
        assert (s' ≠ s) as Es.
        { intros ->. rewrite Hs in H2. simplify_eq. tauto. }
        assert (Map_get s' (Map_delete s m) = Some d') as G
            by by rewrite Map_get_delete, decide_False.
        exists (Map_delete s m).
        by rewrite (Map_get_Some_nonempty _ _ _ G).
      * by exists m.
  - intros c' m. rewrite (get_remove_byConn r c s connSubs c' Hc).
    case_decide; [|by apply K1].
    destruct (is_empty _) eqn:E; [done|]. intros ?; simplify_eq.
    by apply is_empty_false.
  - apply K2'.
  - apply K3'.
Qed.
Lemma pruned_cleanupStep c byDest entry :
  (∀ d0 ds0, Map_get d0 byDest = Some ds0 → ds0 ≠ []) →
  (∀ d0 ds0 c0 ss0, Map_get d0 byDest = Some ds0 →
     Map_get c0 ds0 = Some ss0 → ss0 ≠ []) →
  (∀ d0 ds0, Map_get d0 (Native.cleanupStep c byDest entry) = Some ds0 →
     ds0 ≠ [])
  ∧ (∀ d0 ds0 c0 ss0,
       Map_get d0 (Native.cleanupStep c byDest entry) = Some ds0 →
       Map_get c0 ds0 = Some ss0 → ss0 ≠ []).
Proof.
  intros K2 K3. destruct entry as [s d]. unfold Native.cleanupStep.
  destruct (Map_get d byDest) as [ds|] eqn:Hd; [|done].
  destruct (Map_get c ds) as [subSet|] eqn:Hc.
  - by apply pruned_drop.
  - split.
    + intros d0 ds0. rewrite get_pruneDestination.
      case_decide; [|by apply K2].
      destruct (is_empty ds) eqn:E; [done|]. intros ?; simplify_eq.
      by apply is_empty_false.
    + intros d0 ds0 c0 ss0. rewrite get_pruneDestination.
      case_decide; [|by apply K3].
      destruct (is_empty ds) eqn:E; [done|]. intros ?; simplify_eq.
      by eapply K3.
Qed.

Lemma pruned_cleanup_loop c connSubs : ∀ byDest,
  (∀ d0 ds0, Map_get d0 byDest = Some ds0 → ds0 ≠ []) →
  (∀ d0 ds0 c0 ss0, Map_get d0 byDest = Some ds0 →
     Map_get c0 ds0 = Some ss0 → ss0 ≠ []) →
  (∀ d0 ds0,
     Map_get d0 (foldl (Native.cleanupStep c) byDest connSubs) = Some ds0 →
     ds0 ≠ [])
  ∧ (∀ d0 ds0 c0 ss0,
       Map_get d0 (foldl (Native.cleanupStep c) byDest connSubs) = Some ds0 →
       Map_get c0 ds0 = Some ss0 → ss0 ≠ []).
Proof.
  induction connSubs as [|e l IH]; intros byDest K2 K3; cbn [foldl].
  - by split.
  - destruct (pruned_cleanupStep c byDest e K2 K3) as [K2' K3'].
    by apply IH.
Qed.

Lemma consistent_cleanup r c :
  consistent r → consistent (Native.cleanupConnection c r).
Proof.
  intros [HI1 (K1 & K2 & K3)]. unfold Native.cleanupConnection.
  destruct (Map_get c (subscriptionsByConn r)) as [connSubs|] eqn:Hc;
    [|by split].
  destruct (pruned_cleanup_loop c connSubs _ K2 K3) as [K2' K3'].
  split; [|split_and!; cbn [subscriptionsByConn subscribersByDestination]].
  - intros c' s' d'. unfold dest_has; cbn [subscribersByDestination].
    rewrite dest_lists_cleanup_loop. fold (dest_has r d' c' s').
    rewrite <- (HI1 c' s' d').
    unfold conn_has at 1; cbn [subscriptionsByConn].
    setoid_rewrite Map_get_delete. split.
    + intros (m & H1 & H2). case_decide as Ec; [done|].
      split; [by exists m | tauto].
    + intros [(m & H1 & H2) Hne]. exists m. case_decide as Ec; [|done].
      subst c'. rewrite Hc in H1. simplify_eq. exfalso. apply Hne.
      split; [done|]. by apply Map_get_elem.
  - intros c' m. rewrite Map_get_delete. case_decide; [done|]. apply K1.
  - apply K2'.
  - apply K3'.
Qed.

Lemma consistent_call r op :
  consistent r → keeps_destination r op → consistent (call r op).
Proof.
  destruct op as [c s d|c s|c]; simpl; intros Hr Hk.
  - by apply consistent_add.
  - by apply consistent_remove.
  - by apply consistent_cleanup.
Qed.

(** Along call sequences that never give an id in use a different
    destination, the two indices stay mutually consistent and pruned,
    hence I1, I2 and I3 hold. *)
Lemma reaches_consistent r : reaches r → consistent r.
Proof.
  induction 1 as [|r op _ IH Hk]; [apply consistent_empty|].
  by apply consistent_call.
Qed.

Lemma reaches_invariants r : reaches r → I1 r ∧ I2 r ∧ I3 r.
Proof.
  intros [HI1 HP]%reaches_consistent.
  split_and!; [done | by apply pruned_I2 | by apply pruned_I3].
Qed.
End Invariants.

(** * The registry: re-subscription, invariants, cleanup *)

Lemma resubscribed_eq :
  resubscribed
  = mkRegistry [(1, [(lit "s", lit "d2")])]
               [(lit "d1", [(1, [lit "s"])]); (lit "d2", [(1, [lit "s"])])].
Proof. reflexivity. Qed.

Lemma resubscribed_dest_has : dest_has resubscribed (lit "d1") 1 (lit "s").
Proof.
  exists [(1, [lit "s"])], [lit "s"]. split_and!; [reflexivity..|by left].
Qed.

Lemma resubscribed_not_conn_has : ¬ conn_has resubscribed 1 (lit "s") (lit "d1").
Proof.
  intros (connSubs & H1 & H2). vm_compute in H1. by simplify_eq.
Qed.

Lemma reaches_first_subscription c s d :
  reaches (Native.addSubscription c s d emptyRegistry).
Proof.
  apply (reaches_call emptyRegistry (AddSubscription c s d)).
  - constructor.
  - by intros d0 (m & H1 & _).
Qed.


(** C1 (the code departs from the specification): after [addSubscription] maps
    [(1, s)], which pointed to [d1], to [d2], the entry of [d1] in the
    destination index still lists [s] for connection 1, and I1 is broken.
    Both bindings do the same. *)
Theorem addSubscription_keeps_old_destination_entry :
  let r0 := Native.addSubscription 1 (lit "s") (lit "d1") emptyRegistry in
  let r1 := Native.addSubscription 1 (lit "s") (lit "d2") r0 in
  conn_has r0 1 (lit "s") (lit "d1")
  ∧ (I1 r0 ∧ I2 r0 ∧ I3 r0)
  ∧ conn_has r1 1 (lit "s") (lit "d2")
  ∧ dest_has r1 (lit "d1") 1 (lit "s")
  ∧ ¬ I1 r1
  ∧ SockJS.addSubscription 1 (lit "s") (lit "d2")
      (SockJS.addSubscription 1 (lit "s") (lit "d1") emptyRegistry) = r1.
Proof.
  cbv zeta.
  destruct (reaches_invariants _
              (reaches_first_subscription 1 (lit "s") (lit "d1")))
    as (HI1 & HI2 & HI3).
  split_and!; [|exact HI1|exact HI2|exact HI3|..].
  - exists [(lit "s", lit "d1")]. by split.
  - exists [(lit "s", lit "d2")]. by split.
  - apply resubscribed_dest_has.
  - intros H. apply resubscribed_not_conn_has, H, resubscribed_dest_has.
  - reflexivity.
Qed.

(** C2 (the code departs from the specification): two [AddSubscription] calls from the
    empty indices reach a state where I1 fails; the destination index lists
    a pair the connection index does not have. *)
Theorem invariants_fail_after_resubscription :
  dest_has resubscribed (lit "d1") 1 (lit "s")
  ∧ ¬ conn_has resubscribed 1 (lit "s") (lit "d1")
  ∧ ¬ I1 resubscribed.
Proof.
  split_and!.
  - apply resubscribed_dest_has.
  - apply resubscribed_not_conn_has.
  - intros H. apply resubscribed_not_conn_has, H, resubscribed_dest_has.
Qed.

(** The stale entry outlives both [RemoveSubscription] and
    [RemoveAllForConnection]. *)
Lemma stale_entry_is_never_removed :
  Native.removeSubscription 1 (lit "s") resubscribed
  = mkRegistry [] [(lit "d1", [(1, [lit "s"])])]
  ∧ Native.cleanupConnection 1 resubscribed
    = mkRegistry [] [(lit "d1", [(1, [lit "s"])])].
Proof. split; reflexivity. Qed.

(** The second call of [cleanupConnection] finds no entry for the
    connection and returns at once. *)
Lemma cleanupConnection_twice (r : Registry) (c : nat) :
  Native.cleanupConnection c (Native.cleanupConnection c r)
  = Native.cleanupConnection c r.
Proof.
  assert (Map_get c (subscriptionsByConn (Native.cleanupConnection c r))
          = None) as Hgone.
  { unfold Native.cleanupConnection.
    destruct (Map_get c (subscriptionsByConn r)) eqn:E; [|done].
    simpl. by rewrite Map_get_delete, decide_True. }
  unfold Native.cleanupConnection at 1. by rewrite Hgone.
Qed.


(** C6 (the code departs from the specification): in the state the two
    calls [AddSubscription(1, s, d1)], [AddSubscription(1, s, d2)] reach
    from the empty indices, one call of [cleanupConnection] for connection
    1 leaves the connection listed under [d1] in the destination index, in
    both bindings: a subscription owned by the connection remains.  The
    second call changes nothing, so the entry stays after it too. *)
Theorem cleanupConnection_leaves_stale_entry :
  resubscribed
  = Native.addSubscription 1 (lit "s") (lit "d2")
      (Native.addSubscription 1 (lit "s") (lit "d1") emptyRegistry)
  ∧ dest_has (Native.cleanupConnection 1 resubscribed) (lit "d1") 1 (lit "s")
  ∧ dest_has (SockJS.cleanupConnection 1 resubscribed) (lit "d1") 1 (lit "s")
  ∧ ¬ (∀ s d, ¬ dest_has (Native.cleanupConnection 1 resubscribed) d 1 s)
  ∧ dest_has
      (Native.cleanupConnection 1 (Native.cleanupConnection 1 resubscribed))
      (lit "d1") 1 (lit "s").
Proof.
  assert (dest_has (Native.cleanupConnection 1 resubscribed)
            (lit "d1") 1 (lit "s")) as Hstale.
  { exists [(1, [lit "s"])], [lit "s"].
    split_and!; [reflexivity..|by left]. }
  split_and!.
  - reflexivity.
  - exact Hstale.
  - exact Hstale.
  - intros H. by apply (H (lit "s") (lit "d1")).
  - by rewrite cleanupConnection_twice.
Qed.



(** * Unique keys and members are kept by every operation *)

Section WellFormed.
Context {K V : Type} `{!EqDecision K}.
Implicit Types (m : list (K * V)) (l : list K).

Lemma elem_of_Map_set k' v' k v m :
  (k', v') ∈ Map_set k v m → (k' = k ∧ v' = v) ∨ (k', v') ∈ m.
Proof.
  induction m as [|[k0 v0] m IH]; simpl.
  - intros E%list_elem_of_singleton. simplify_eq. by left.
  - case_decide; subst; rewrite !elem_of_cons; intros [E|E].
    + simplify_eq. by left.
    + right. by right.
    + right. by left.
    + destruct (IH E); [by left | right; by right].
Qed.

Lemma elem_of_Map_delete k' v' k m :
  (k', v') ∈ Map_delete k m → (k', v') ∈ m.
Proof.
  induction m as [|[k0 v0] m IH]; simpl; [done|].
  case_decide; rewrite !elem_of_cons; [by right; apply IH|].
  intros [E|E]; [by left | right; by apply IH].
Qed.

Lemma elem_of_Map_alter (f : V → V) k' v' k m :
  (k', v') ∈ Map_alter f k m →
  (k', v') ∈ m ∨ ∃ v0, (k, v0) ∈ m ∧ k' = k ∧ v' = f v0.
Proof.
  induction m as [|[k0 v0] m IH]; simpl; [by left|].
  case_decide; subst; rewrite !elem_of_cons; intros [E|E].
  - simplify_eq. right. exists v0. split; [by left | done].
  - left. by right.
  - left. by left.
  - destruct (IH E) as [?|(v1 & ? & ? & ?)].
    + left. by right.
    + right. exists v1. split; [by right | done].
Qed.

Lemma Map_keys_set k v m :
  (Map_set k v m).*1 = if Map_has k m then m.*1 else m.*1 ++ [k].
Proof.
  unfold Map_has. induction m as [|[k0 v0] m IH]; [done|].
  cbn [Map_set Map_get]. case_decide; subst; [done|].
  rewrite !fmap_cons, IH. by destruct (Map_get k m).
Qed.

Lemma Map_get_None_keys k m : Map_get k m = None → k ∉ m.*1.
Proof.
  induction m as [|[k0 v0] m IH]; simpl; [intros _; apply not_elem_of_nil|].
  case_decide; [done|]. intros E. apply not_elem_of_cons. auto.
Qed.

Lemma Map_wf_set k v m : Map_wf m → Map_wf (Map_set k v m).
Proof.
  unfold Map_wf. rewrite Map_keys_set. unfold Map_has.
  destruct (Map_get k m) eqn:E; [done|]. intros Hnd.
  apply NoDup_app. split_and!; [done| |apply NoDup_singleton].
  intros x Hx ->%list_elem_of_singleton.
  by apply (Map_get_None_keys _ _ E).
Qed.

Lemma Map_keys_delete k' k m : k' ∈ (Map_delete k m).*1 → k' ∈ m.*1.
Proof.
  induction m as [|[k0 v0] m IH]; simpl; [done|].
  case_decide; simpl; rewrite !elem_of_cons; [by right; apply IH|].
  intros [E|E]; [by left | right; by apply IH].
Qed.

Lemma Map_wf_delete k m : Map_wf m → Map_wf (Map_delete k m).
Proof.
  unfold Map_wf. induction m as [|[k0 v0] m IH]; simpl; [done|].
  intros [Hk Hnd]%NoDup_cons. case_decide; [by apply IH|]. simpl.
  apply NoDup_cons. split; [|by apply IH].
  intros Hin. by apply Hk, (Map_keys_delete _ k).
Qed.

Lemma Map_keys_alter (f : V → V) k m : (Map_alter f k m).*1 = m.*1.
Proof.
  induction m as [|[k0 v0] m IH]; [done|].
  cbn [Map_alter]. case_decide; [done|]. by rewrite !fmap_cons, IH.
Qed.

Lemma Map_wf_alter (f : V → V) k m : Map_wf m → Map_wf (Map_alter f k m).
Proof. unfold Map_wf. by rewrite Map_keys_alter. Qed.

Lemma NoDup_Set_add x l : NoDup l → NoDup (Set_add x l).
Proof.
  unfold Set_add. destruct (Set_has x l) eqn:E; [done|]. intros Hnd.
  apply NoDup_app. split_and!; [done| |apply NoDup_singleton].
  intros y Hy ->%list_elem_of_singleton.
  apply Set_has_true in Hy. congruence.
Qed.

Lemma NoDup_Set_delete x l : NoDup l → NoDup (Set_delete x l).
Proof.
  induction l as [|y l IH]; simpl; [done|].
  intros [Hy Hnd]%NoDup_cons. case_decide; [by apply IH|].
  apply NoDup_cons. split; [|by apply IH].
  intros Hin%elem_of_Set_delete. tauto.
Qed.

Lemma Map_wf_nil : Map_wf (@nil (K * V)).
Proof. apply NoDup_nil_2. Qed.
End WellFormed.

Section RegistryWellFormed.
Implicit Types (byDest : list (jsstring * list (nat * list jsstring)))
  (ds : list (nat * list jsstring)) (subSet : list jsstring)
  (c : nat) (s d : jsstring) (r : Registry).

Lemma entry_wf_nil : entry_wf [].
Proof. split; [apply Map_wf_nil|]. by intros c ss H%elem_of_nil. Qed.

Lemma entry_wf_drop c s ds subSet :
  entry_wf ds → NoDup subSet →
  entry_wf (Native.dropFromDestination c s ds subSet).
Proof.
  intros [Hk Hs] Hnd. unfold Native.dropFromDestination.
  destruct (is_empty _); split.
  - by apply Map_wf_delete.
  - intros c' ss H%elem_of_Map_delete. eauto.
  - by apply Map_wf_set.
  - intros c' ss [[_ ->]|H]%elem_of_Map_set; [|eauto].
    by apply NoDup_Set_delete.
Qed.

Lemma dest_wf_prune d ds byDest :
  dest_wf byDest → entry_wf ds →
  dest_wf (Native.pruneDestination d ds byDest).
Proof.
  intros [Hk He] Hds. unfold Native.pruneDestination.
  destruct (is_empty ds); split.
  - by apply Map_wf_delete.
  - intros d' ds' H%elem_of_Map_delete. eauto.
  - by apply Map_wf_set.
  - intros d' ds' [[_ ->]|H]%elem_of_Map_set; [done|eauto].
Qed.

Lemma dest_wf_cleanupStep c byDest entry :
  dest_wf byDest → dest_wf (Native.cleanupStep c byDest entry).
Proof.
  intros Hwf. destruct entry as [s d]. unfold Native.cleanupStep.
  destruct (Map_get d byDest) as [ds|] eqn:Hd; [|done].
  apply Map_get_elem in Hd. pose proof (proj2 Hwf _ _ Hd) as Hds.
  apply dest_wf_prune; [done|].
  destruct (Map_get c ds) as [subSet|] eqn:Hc; [|done].
  apply Map_get_elem in Hc. apply entry_wf_drop; [done|].
  by eapply (proj2 Hds).
Qed.

Lemma dest_wf_cleanup_loop c connSubs : ∀ byDest,
  dest_wf byDest → dest_wf (foldl (Native.cleanupStep c) byDest connSubs).
Proof.
  induction connSubs as [|e l IH]; intros byDest Hwf; cbn [foldl]; [done|].
  by apply IH, dest_wf_cleanupStep.
Qed.

Lemma Map_wf_ensure {K V} `{!EqDecision K} (k : K) (v : V) m :
  Map_wf m → Map_wf (if Map_has k m then m else Map_set k v m).
Proof. destruct (Map_has k m); [done|]. apply Map_wf_set. Qed.

Lemma Registry_wf_add r c s d :
  Registry_wf r → Registry_wf (Native.addSubscription c s d r).
Proof.
  intros [[Hck Hcm] [Hdk Hde]]. unfold Native.addSubscription,
    Native.ensureDestinationEntry. split; split;
    cbn [subscriptionsByConn subscribersByDestination].
  - by apply Map_wf_alter, Map_wf_ensure.
  - intros c' m [H|(m0 & H & -> & ->)]%elem_of_Map_alter.
    + destruct (Map_has c _); [eauto|].
      apply elem_of_Map_set in H as [[_ ->]|H]; [apply Map_wf_nil|eauto].
    + apply Map_wf_set. destruct (Map_has c _); [eauto|].
      apply elem_of_Map_set in H as [[_ ->]|H]; [apply Map_wf_nil|eauto].
  - by apply Map_wf_alter, Map_wf_ensure.
  - assert (∀ d' ds',
      (d', ds') ∈ (if Map_has d (subscribersByDestination r)
                   then subscribersByDestination r
                   else Map_set d [] (subscribersByDestination r)) →
      entry_wf ds') as Hens.
    { intros d' ds' H. destruct (Map_has d _); [eauto|].
      apply elem_of_Map_set in H as [[_ ->]|H]; [apply entry_wf_nil|eauto]. }
    intros d' ds' [H|(ds0 & H & -> & ->)]%elem_of_Map_alter; [eauto|].
    apply Hens in H as [Hk Hs]. split.
    + by apply Map_wf_alter, Map_wf_ensure.
    + intros c' ss [H|(ss0 & H & -> & ->)]%elem_of_Map_alter.
      * destruct (Map_has c ds0); [eauto|].
        apply elem_of_Map_set in H as [[_ ->]|H]; [apply NoDup_nil_2|eauto].
      * apply NoDup_Set_add. destruct (Map_has c ds0); [eauto|].
        apply elem_of_Map_set in H as [[_ ->]|H]; [apply NoDup_nil_2|eauto].
Qed.

Lemma conn_wf_remove r c s connSubs :
  conn_wf (subscriptionsByConn r) →
  (c, connSubs) ∈ subscriptionsByConn r →
  conn_wf (if is_empty (Map_delete s connSubs)
           then Map_delete c (subscriptionsByConn r)
           else Map_set c (Map_delete s connSubs) (subscriptionsByConn r)).
Proof.
  intros [Hk Hm] Hin. destruct (is_empty _); split.
  - by apply Map_wf_delete.
  - intros c' m H%elem_of_Map_delete. eauto.
  - by apply Map_wf_set.
  - intros c' m [[_ ->]|H]%elem_of_Map_set; [|eauto].
    apply Map_wf_delete. eauto.
Qed.

Lemma Registry_wf_remove r c s :
  Registry_wf r → Registry_wf (Native.removeSubscription c s r).
Proof.
  intros [Hc Hd]. unfold Native.removeSubscription.
  destruct (Map_get c (subscriptionsByConn r)) as [connSubs|] eqn:E1;
    [|by split].
  destruct (Map_get s connSubs) as [d|] eqn:E2; [|by split].
  destruct (negb (truthy d)); [by split|].
  apply Map_get_elem in E1.
  pose proof (conn_wf_remove r c s connSubs Hc E1) as Hc'.
  destruct (Map_get d (subscribersByDestination r)) as [ds|] eqn:E3;
    [|by split].
  destruct (Map_get c ds) as [subSet|] eqn:E4; [|by split].
  split; [done|]. cbn [subscribersByDestination].
  apply Map_get_elem in E3, E4. pose proof (proj2 Hd _ _ E3) as Hds.
  apply dest_wf_prune; [done|]. apply entry_wf_drop; [done|].
  by eapply (proj2 Hds).
Qed.

Lemma Registry_wf_cleanup r c :
  Registry_wf r → Registry_wf (Native.cleanupConnection c r).
Proof.
  intros [[Hk Hm] Hd]. unfold Native.cleanupConnection.
  destruct (Map_get c (subscriptionsByConn r)) as [connSubs|] eqn:E1;
    [|by split].
  split; [split|]; cbn [subscriptionsByConn subscribersByDestination].
  - by apply Map_wf_delete.
  - intros c' m H%elem_of_Map_delete. eauto.
  - by apply dest_wf_cleanup_loop.
Qed.

Lemma Registry_wf_empty : Registry_wf emptyRegistry.
Proof.
  split; (split; [apply Map_wf_nil|]); by intros ? ? H%elem_of_nil.
Qed.

(** Every state the three operations reach from the empty indices has
    unique keys and members. *)
Lemma Registry_wf_calls ops : Registry_wf (calls ops).
Proof.
  unfold calls. induction ops as [|op ops IH] using rev_ind.
  - apply Registry_wf_empty.
  - rewrite foldl_app. simpl. destruct op; simpl.
    + by apply Registry_wf_add.
    + by apply Registry_wf_remove.
    + by apply Registry_wf_cleanup.
Qed.
End RegistryWellFormed.

(** * Writing frames *)

Lemma header_fold (hs : list (jsstring * jsstring)) : ∀ acc : jsstring,
  foldl (λ frame kv, frame ++ (kv.1 ++ [COLON] ++ kv.2 ++ [NL])) acc hs
  = acc ++ header_lines hs.
Proof.
  induction hs as [|kv hs IH]; intros acc; simpl.
  - by rewrite app_nil_r.
  - rewrite IH. repeat (rewrite <- app_assoc; simpl). done.
Qed.

Lemma truthy_or_empty (b : jsstring) : (if truthy b then b else []) = b.
Proof. by destruct b. Qed.

(** [sendFrame] builds the bytes of the wire grammar. *)
Lemma frameText_encode cmd hs bdy :
  Native.frameText cmd hs bdy = encodeFrame cmd hs bdy.
Proof.
  unfold Native.frameText, encodeFrame.
  rewrite header_fold, truthy_or_empty.
  repeat (rewrite <- app_assoc; simpl). done.
Qed.

Lemma SockJS_frameText_eq cmd hs bdy :
  SockJS.frameText cmd hs bdy = Native.frameText cmd hs bdy.
Proof. reflexivity. Qed.

Lemma messageFrame_text uuid s d body n c :
  (c, Native.frameText (lit "MESSAGE") (Native.messageHeaders uuid s d n) body)
  = messageFrame uuid d body n (c, s).
Proof.
  rewrite frameText_encode. unfold encodeFrame, messageFrame. simpl.
  repeat (rewrite <- app_assoc; simpl). done.
Qed.

Lemma messageFrames_app uuid d body l1 : ∀ n l2,
  messageFrames uuid d body n (l1 ++ l2)
  = messageFrames uuid d body n l1
    ++ messageFrames uuid d body (n + length l1) l2.
Proof.
  induction l1 as [|p l1 IH]; intros n l2; simpl.
  - by rewrite Nat.add_0_r.
  - rewrite IH. do 3 f_equal. lia.
Qed.

Lemma messageFrames_lookup uuid d body pairs : ∀ n i,
  messageFrames uuid d body n pairs !! i
  = messageFrame uuid d body (n + i) <$> pairs !! i.
Proof.
  induction pairs as [|p l IH]; intros n [|i]; simpl; try done.
  - by rewrite Nat.add_0_r.
  - rewrite IH. do 2 f_equal. lia.
Qed.

Lemma messageFrames_length uuid d body pairs : ∀ n,
  length (messageFrames uuid d body n pairs) = length pairs.
Proof. induction pairs as [|p l IH]; intros n; simpl; [done|]. by rewrite IH. Qed.

(** * The two broadcast loops *)

Section Broadcast.
Variable randomUUID : nat → jsstring.
Implicit Types (w : World) (d body : jsstring).

Lemma World_eta w :
  w = mkWorld (registry w) (readyState w) (outbox w ++ []) (uuidCalls w + 0).
Proof. destruct w; simpl. by rewrite app_nil_r, Nat.add_0_r. Qed.

Lemma Native_inner_loop c d body subIds : ∀ w,
  is_open (readyState w c) = true →
  foldl (λ w subId,
           Native.sendFrame c (lit "MESSAGE")
             (Native.messageHeaders randomUUID subId d (uuidCalls w))
             body (Native.tick w)) w subIds
  = mkWorld (registry w) (readyState w)
      (outbox w ++ messageFrames randomUUID d body (uuidCalls w)
                     (pair c <$> subIds))
      (uuidCalls w + length subIds).
Proof.
  induction subIds as [|s l IH]; intros w Hopen; cbn [foldl].
  - apply World_eta.
  - rewrite IH.
    + unfold Native.sendFrame, Native.tick; cbn [readyState].
      rewrite Hopen. unfold transport_send; simpl.
      rewrite messageFrame_text, <- app_assoc. f_equal. lia.
    + unfold Native.sendFrame, Native.tick; cbn [readyState].
      by rewrite Hopen.
Qed.

Lemma SockJS_inner_loop c d body subIds : ∀ w,
  foldl (λ w subId,
           SockJS.sendFrame c (lit "MESSAGE")
             (SockJS.messageHeaders randomUUID subId d (uuidCalls w))
             body (SockJS.tick w)) w subIds
  = mkWorld (registry w) (readyState w)
      (outbox w ++ messageFrames randomUUID d body (uuidCalls w)
                     (pair c <$> subIds))
      (uuidCalls w + length subIds).
Proof.
  induction subIds as [|s l IH]; intros w; cbn [foldl].
  - apply World_eta.
  - rewrite IH. unfold SockJS.sendFrame, SockJS.tick, transport_send; simpl.
    change (SockJS.frameText ?a ?b ?c) with (Native.frameText a b c).
    change (SockJS.messageHeaders ?a ?b ?c ?e)
      with (Native.messageHeaders a b c e).
    rewrite messageFrame_text, <- app_assoc. f_equal. lia.
Qed.

Lemma Native_outer_loop d body ds : ∀ w,
  foldl (λ w entry,
           let '(ws, subIds) := entry in
           if is_open (readyState w ws) then
             foldl (λ w subId,
                      Native.sendFrame ws (lit "MESSAGE")
                        (Native.messageHeaders randomUUID subId d
                           (uuidCalls w))
                        body (Native.tick w)) w subIds
           else w) w ds
  = mkWorld (registry w) (readyState w)
      (outbox w ++ messageFrames randomUUID d body (uuidCalls w)
                     (open_pairs (readyState w) ds))
      (uuidCalls w + length (open_pairs (readyState w) ds)).
Proof.
  induction ds as [|[c subIds] ds IH]; intros w; cbn [foldl open_pairs].
  - apply World_eta.
  - destruct (is_open (readyState w c)) eqn:Hopen.
    + rewrite Native_inner_loop by done. rewrite IH; simpl.
      rewrite messageFrames_app, length_app, length_fmap, <- !app_assoc.
      f_equal. lia.
    + by rewrite IH.
Qed.

Lemma open_pairs_everyone ds (rs : nat → ReadyState) :
  (∀ c, rs c = OPEN) →
  open_pairs rs ds = open_pairs everyone_open ds.
Proof.
  intros H. induction ds as [|[c subIds] ds IH]; simpl; [done|].
  by rewrite H, IH.
Qed.

Lemma SockJS_outer_loop d body ds : ∀ w,
  foldl (λ w entry,
           let '(conn, subIds) := entry in
           foldl (λ w subId,
                    SockJS.sendFrame conn (lit "MESSAGE")
                      (SockJS.messageHeaders randomUUID subId d
                         (uuidCalls w))
                      body (SockJS.tick w)) w subIds) w ds
  = mkWorld (registry w) (readyState w)
      (outbox w ++ messageFrames randomUUID d body (uuidCalls w)
                     (open_pairs everyone_open ds))
      (uuidCalls w + length (open_pairs everyone_open ds)).
Proof.
  induction ds as [|[c subIds] ds IH]; intros w; cbn [foldl open_pairs].
  - apply World_eta.
  - rewrite SockJS_inner_loop. rewrite IH; simpl.
    rewrite messageFrames_app, length_app, length_fmap, <- !app_assoc.
    f_equal. lia.
Qed.
End Broadcast.

(** * Broadcast: who is written to *)

Section FanOut.
Variable randomUUID : nat → jsstring.
Implicit Types (w : World) (d body : jsstring)
  (ds : list (nat * list jsstring)).

Lemma elem_of_open_pairs rs ds c s :
  (c, s) ∈ open_pairs rs ds
  ↔ ∃ subIds, (c, subIds) ∈ ds ∧ s ∈ subIds ∧ is_open (rs c) = true.
Proof.
  induction ds as [|[c0 ss0] ds IH]; simpl.
  - split; [by intros H%elem_of_nil|]. by intros (? & H%elem_of_nil & _).
  - rewrite elem_of_app, IH. split.
    + intros [H|(ss & H1 & H2 & H3)].
      * destruct (is_open (rs c0)) eqn:E; [|by apply elem_of_nil in H].
        apply list_elem_of_fmap in H as (s' & Heq & Hin). simplify_eq.
        exists ss0. split_and!; [by left|done..].
      * exists ss. split_and!; [by right|done..].
    + intros (ss & [Heq|H1]%elem_of_cons & H2 & H3).
      * simplify_eq. left. rewrite H3. apply list_elem_of_fmap. eauto.
      * right. eauto.
Qed.

Lemma NoDup_open_pairs rs ds : entry_wf ds → NoDup (open_pairs rs ds).
Proof.
  unfold entry_wf, Map_wf. induction ds as [|[c0 ss0] ds IH]; simpl.
  - intros _. apply NoDup_nil_2.
  - intros [[Hc0 Hk]%NoDup_cons Hs]. apply NoDup_app. split_and!.
    + destruct (is_open (rs c0)); [|apply NoDup_nil_2].
      apply NoDup_fmap_2; [by intros ?? [=]|]. apply (Hs c0). by left.
    + intros [c s] H1 (ss & H2 & _)%elem_of_open_pairs.
      destruct (is_open (rs c0)); [|by apply elem_of_nil in H1].
      apply list_elem_of_fmap in H1 as (s' & Heq & _). simplify_eq.
      apply Hc0. apply list_elem_of_fmap. by exists (c0, ss).
    + apply IH. split; [done|]. intros c ss H. apply (Hs c). by right.
Qed.

Lemma open_pairs_nil rs ds :
  (∀ c subIds, (c, subIds) ∈ ds → subIds = []) → open_pairs rs ds = [].
Proof.
  induction ds as [|[c0 ss0] ds IH]; simpl; [done|]. intros H.
  rewrite (H c0 ss0) by by left. rewrite IH.
  - by destruct (is_open (rs c0)).
  - intros c ss Hin. apply (H c). by right.
Qed.

Lemma Native_broadcast_eq d body w :
  Native.broadcast randomUUID d body w
  = match Map_get d (subscribersByDestination (registry w)) with
    | None => w
    | Some ds =>
        mkWorld (registry w) (readyState w)
          (outbox w ++ messageFrames randomUUID d body (uuidCalls w)
                         (open_pairs (readyState w) ds))
          (uuidCalls w + length (open_pairs (readyState w) ds))
    end.
Proof.
  unfold Native.broadcast. destruct (Map_get d _); [|done].
  apply Native_outer_loop.
Qed.

Lemma SockJS_broadcast_eq d body w :
  SockJS.broadcast randomUUID d body w
  = match Map_get d (subscribersByDestination (registry w)) with
    | None => w
    | Some ds =>
        mkWorld (registry w) (readyState w)
          (outbox w ++ messageFrames randomUUID d body (uuidCalls w)
                         (open_pairs everyone_open ds))
          (uuidCalls w + length (open_pairs everyone_open ds))
    end.
Proof.
  unfold SockJS.broadcast. destruct (Map_get d _); [|done].
  apply SockJS_outer_loop.
Qed.

Lemma Native_broadcast_registry d body w :
  registry (Native.broadcast randomUUID d body w) = registry w.
Proof. rewrite Native_broadcast_eq. by destruct (Map_get d _). Qed.

Lemma SockJS_broadcast_registry d body w :
  registry (SockJS.broadcast randomUUID d body w) = registry w.
Proof. rewrite SockJS_broadcast_eq. by destruct (Map_get d _). Qed.

Lemma Native_broadcast_readyState d body w :
  readyState (Native.broadcast randomUUID d body w) = readyState w.
Proof. rewrite Native_broadcast_eq. by destruct (Map_get d _). Qed.
End FanOut.

(** C4: [broadcast] writes one [MESSAGE] frame for each pair [(c, s)] the
    destination index lists under [d] with [c] open, and no other; the frame
    at position [i] goes to the connection of the pair at position [i] and
    carries [subscription:s], [destination:d], the identifier returned by
    its own call of [randomUUID], and the body.  When the generator never
    repeats, the identifiers differ pairwise.  A connection listed with two
    ids gives two pairs, hence two frames. *)
Theorem broadcast_fan_out (randomUUID : nat → jsstring) (w : World)
    (d body : jsstring) :
  (∀ i j, randomUUID i = randomUUID j → i = j) →
  Registry_wf (registry w) →
  ∃ pairs : list (nat * jsstring),
    NoDup pairs
    ∧ (∀ c s, (c, s) ∈ pairs
              ↔ dest_has (registry w) d c s ∧ readyState w c = OPEN)
    ∧ outbox (Native.broadcast randomUUID d body w)
      = outbox w ++ messageFrames randomUUID d body (uuidCalls w) pairs
    ∧ NoDup (randomUUID <$> seq (uuidCalls w) (length pairs))
    ∧ registry (Native.broadcast randomUUID d body w) = registry w.
Proof.
  intros Hfresh [_ [Hdk Hde]].
  assert (∀ l : list nat, NoDup l → NoDup (randomUUID <$> l)) as Hids.
  { intros l. apply NoDup_fmap_2. intros i j. apply Hfresh. }
  rewrite Native_broadcast_registry, Native_broadcast_eq.
  unfold dest_has, dest_lists.
  destruct (Map_get d (subscribersByDestination (registry w))) as [ds|] eqn:E.
  - pose proof (Hde _ _ (Map_get_elem _ _ _ E)) as Hds.
    exists (open_pairs (readyState w) ds). split_and!.
    + by apply NoDup_open_pairs.
    + intros c s. rewrite elem_of_open_pairs. split.
      * intros (ss & H1 & H2 & H3). split.
        -- exists ds, ss. split_and!; [done| |done].
           by apply Map_elem_get; [apply Hds|].
        -- by destruct (readyState w c).
      * intros [(ds' & ss & H1 & H2 & H3) Hopen]. simplify_eq.
        exists ss. split_and!; [by apply Map_get_elem|done|by rewrite Hopen].
    + done.
    + apply Hids, NoDup_seq.
    + done.
  - exists []. split_and!.
    + apply NoDup_nil_2.
    + intros c s. split; [by intros H%elem_of_nil|].
      by intros [(? & ? & ? & _) _].
    + simpl. by rewrite app_nil_r.
    + apply NoDup_nil_2.
    + done.
Qed.

Lemma sampleUUID_fresh i j : sampleUUID i = sampleUUID j → i = j.
Proof.
  unfold sampleUUID. intros H%app_inv_head. apply (f_equal length) in H.
  by rewrite !length_replicate in H.
Qed.

Lemma broadcast_fan_out_witness :
  (∀ i j, sampleUUID i = sampleUUID j → i = j)
  ∧ Registry_wf (registry room_world)
  ∧ ∃ pairs : list (nat * jsstring),
      NoDup pairs
      ∧ (∀ c s, (c, s) ∈ pairs
                ↔ dest_has (registry room_world) (lit "room/1") c s
                  ∧ readyState room_world c = OPEN)
      ∧ outbox (Native.broadcast sampleUUID (lit "room/1") (lit "hi")
                  room_world)
        = outbox room_world
          ++ messageFrames sampleUUID (lit "room/1") (lit "hi")
               (uuidCalls room_world) pairs
      ∧ NoDup (sampleUUID <$> seq (uuidCalls room_world) (length pairs))
      ∧ registry (Native.broadcast sampleUUID (lit "room/1") (lit "hi")
                    room_world)
        = registry room_world.
Proof.
  split_and!.
  - exact sampleUUID_fresh.
  - apply Registry_wf_calls.
  - apply (broadcast_fan_out sampleUUID room_world (lit "room/1") (lit "hi")).
    + exact sampleUUID_fresh.
    + apply Registry_wf_calls.
Defined.

(** The fan-out of the specification's scenario, with connection 1
    subscribed under a second id as well: three frames, in the order of
    insertion. *)
Lemma broadcast_room_frames :
  outbox (Native.broadcast sampleUUID (lit "room/1") (lit "hi") room_world)
  = [ (1, lit "MESSAGE" ++ NL :: lit "subscription:s1" ++ NL
          :: lit "destination:room/1" ++ NL :: lit "message-id:id-"
          ++ NL :: NL :: lit "hi" ++ [NUL]);
      (1, lit "MESSAGE" ++ NL :: lit "subscription:s3" ++ NL
          :: lit "destination:room/1" ++ NL :: lit "message-id:id-1"
          ++ NL :: NL :: lit "hi" ++ [NUL]);
      (2, lit "MESSAGE" ++ NL :: lit "subscription:s2" ++ NL
          :: lit "destination:room/1" ++ NL :: lit "message-id:id-11"
          ++ NL :: NL :: lit "hi" ++ [NUL]) ].
Proof. reflexivity. Qed.

(** C8: a destination with no subscriber listed: [broadcast] returns the
    world as it got it, in both bindings; nothing is written, the indices
    and the transports are untouched. *)
Theorem broadcast_no_subscribers (randomUUID : nat → jsstring) (w : World)
    (d body : jsstring) :
  Registry_wf (registry w) →
  (∀ c s, ¬ dest_has (registry w) d c s) →
  Native.broadcast randomUUID d body w = w
  ∧ SockJS.broadcast randomUUID d body w = w.
Proof.
  intros [_ [Hdk Hde]] Hnone.
  rewrite Native_broadcast_eq, SockJS_broadcast_eq.
  destruct (Map_get d (subscribersByDestination (registry w))) as [ds|] eqn:E;
    [|done].
  pose proof (Hde _ _ (Map_get_elem _ _ _ E)) as [Hk Hs].
  assert (∀ c subIds, (c, subIds) ∈ ds → subIds = []) as Hempty.
  { intros c [|s ss] Hin; [done|]. exfalso. apply (Hnone c s).
    exists ds, (s :: ss). split_and!; [done| |by left].
    by apply Map_elem_get. }
  rewrite !open_pairs_nil by done. simpl. by rewrite <- World_eta.
Qed.

Lemma broadcast_no_subscribers_witness :
  Registry_wf (registry room_world)
  ∧ (∀ c s, ¬ dest_has (registry room_world) (lit "empty/topic") c s)
  ∧ Native.broadcast sampleUUID (lit "empty/topic") (lit "x") room_world
    = room_world
  ∧ SockJS.broadcast sampleUUID (lit "empty/topic") (lit "x") room_world
    = room_world.
Proof.
  assert (∀ c s, ¬ dest_has (registry room_world) (lit "empty/topic") c s)
    as Hnone.
  { intros c s (ds & ss & H & _). vm_compute in H. discriminate. }
  split_and!; [apply Registry_wf_calls | exact Hnone | |].
  - exact (proj1 (broadcast_no_subscribers sampleUUID room_world
                    (lit "empty/topic") (lit "x")
                    (Registry_wf_calls _) Hnone)).
  - exact (proj2 (broadcast_no_subscribers sampleUUID room_world
                    (lit "empty/topic") (lit "x")
                    (Registry_wf_calls _) Hnone)).
Defined.

(** * Command dispatch *)

Section Dispatch.
Variable randomUUID : nat → jsstring.
Implicit Types (w : World) (frame : Frame) (ws : nat).

Lemma Native_sendFrame_open ws cmd hs bdy w :
  readyState w ws = OPEN →
  Native.sendFrame ws cmd hs bdy w
  = transport_send ws (Native.frameText cmd hs bdy) w.
Proof. unfold Native.sendFrame. by intros ->. Qed.

Lemma Native_sendFrame_not_open ws cmd hs bdy w :
  readyState w ws ≠ OPEN → Native.sendFrame ws cmd hs bdy w = w.
Proof. unfold Native.sendFrame. by destruct (readyState w ws). Qed.

Lemma handleFrame_SUBSCRIBE_error ws frame w :
  command frame = lit "SUBSCRIBE" →
  falsy (header "id" (headers frame))
  || falsy (header "destination" (headers frame)) = true →
  Native.handleFrame randomUUID ws frame w
  = Native.sendFrame ws (lit "ERROR")
      [(lit "message", lit "Subscription requires id and destination")]
      (lit "Missing id or destination header") w
  ∧ SockJS.handleFrame randomUUID ws frame w
    = SockJS.sendFrame ws (lit "ERROR")
        [(lit "message", lit "Subscription requires id and destination")]
        (lit "Missing id or destination header") w.
Proof.
  intros Hcmd Hmissing.
  unfold Native.handleFrame, SockJS.handleFrame. rewrite Hcmd, Hmissing.
  done.
Qed.

(** The two handlers change the registry in the same way. *)
Lemma handleFrame_same_registry ws frame w :
  registry (SockJS.handleFrame randomUUID ws frame w)
  = registry (Native.handleFrame randomUUID ws frame w).
Proof.
  unfold Native.handleFrame, SockJS.handleFrame.
  repeat match goal with
         | |- context [if ?b then _ else _] => destruct b eqn:?
         end;
    rewrite ?Native_broadcast_registry, ?SockJS_broadcast_registry;
    try reflexivity;
    unfold Native.sendFrame, SockJS.sendFrame;
    by destruct (is_open _).
Qed.

(** With every transport open the two handlers do the same. *)
Lemma handleFrame_same_when_open ws frame w :
  (∀ c, readyState w c = OPEN) →
  SockJS.handleFrame randomUUID ws frame w
  = Native.handleFrame randomUUID ws frame w.
Proof.
  intros Hopen. unfold Native.handleFrame, SockJS.handleFrame.
  repeat match goal with
         | |- context [if ?b then _ else _] => destruct b eqn:?
         end;
    rewrite ?Native_broadcast_eq, ?SockJS_broadcast_eq;
    try reflexivity;
    unfold Native.sendFrame, SockJS.sendFrame;
    rewrite ?Hopen; try reflexivity;
    destruct (Map_get _ _); [|done];
    by rewrite (open_pairs_everyone _ (readyState w) Hopen).
Qed.
End Dispatch.

Lemma parseFrames_same (chunk : jsstring) :
  SockJS.parseFrames chunk = Native.parseFrames chunk.
Proof. reflexivity. Qed.

Lemma errorFrame_text :
  Native.frameText (lit "ERROR")
    [(lit "message", lit "Subscription requires id and destination")]
    (lit "Missing id or destination header")
  = errorFrame.
Proof. reflexivity. Qed.

(** C5: a [SUBSCRIBE] frame without a non-empty [id] or without a non-empty
    [destination], handled on an open connection: exactly one frame is
    written, to that connection, an [ERROR] frame with a [message] header
    and a body that names the missing header; the two indices and the state
    of every transport stay as they were.  The SockJS handler does the
    same. *)
Theorem subscribe_without_id_or_destination (randomUUID : nat → jsstring)
    (ws : nat) (frame : Frame) (w : World) :
  command frame = lit "SUBSCRIBE" →
  falsy (header "id" (headers frame))
  || falsy (header "destination" (headers frame)) = true →
  readyState w ws = OPEN →
  let w' := Native.handleFrame randomUUID ws frame w in
  outbox w' = outbox w ++ [(ws, errorFrame)]
  ∧ Native.parseFrames errorFrame
    = [ {| command := lit "ERROR";
           headers := {[ lit "message"
                         := lit "Subscription requires id and destination" ]};
           body := lit "Missing id or destination header" |} ]
  ∧ registry w' = registry w
  ∧ readyState w' = readyState w
  ∧ SockJS.handleFrame randomUUID ws frame w = w'.
Proof.
  intros Hcmd Hmissing Hopen w'. subst w'.
  destruct (handleFrame_SUBSCRIBE_error randomUUID ws frame w Hcmd Hmissing)
    as [-> ->].
  rewrite Native_sendFrame_open by done. rewrite errorFrame_text.
  split_and!; reflexivity.
Qed.

Lemma subscribe_without_id_or_destination_witness :
  Native.parseFrames (lit "SUBSCRIBE" ++ [NL; NL; NUL])
  = [mkFrame (lit "SUBSCRIBE") ∅ []]
  ∧ falsy (header "id" (∅ : gmap jsstring jsstring))
    || falsy (header "destination" (∅ : gmap jsstring jsstring)) = true
  ∧ readyState world0 1 = OPEN
  ∧ outbox (Native.handleFrame sampleUUID 1 (mkFrame (lit "SUBSCRIBE") ∅ [])
              world0)
    = [(1, errorFrame)]
  ∧ registry (Native.handleFrame sampleUUID 1 (mkFrame (lit "SUBSCRIBE") ∅ [])
                world0)
    = emptyRegistry.
Proof.
  pose proof (subscribe_without_id_or_destination sampleUUID 1
                (mkFrame (lit "SUBSCRIBE") ∅ []) world0
                eq_refl eq_refl eq_refl) as (H1 & _ & H2 & _).
  split_and!; [by vm_compute | reflexivity | reflexivity | exact H1 | exact H2].
Defined.

(** On a connection that is not open the native handler writes nothing
    for the same frame. *)
Lemma subscribe_error_not_written_when_not_open (randomUUID : nat → jsstring)
    (ws : nat) (frame : Frame) (w : World) :
  command frame = lit "SUBSCRIBE" →
  falsy (header "id" (headers frame))
  || falsy (header "destination" (headers frame)) = true →
  readyState w ws ≠ OPEN →
  Native.handleFrame randomUUID ws frame w = w.
Proof.
  intros Hcmd Hmissing Hclosed.
  destruct (handleFrame_SUBSCRIBE_error randomUUID ws frame w Hcmd Hmissing)
    as [-> _].
  by apply Native_sendFrame_not_open.
Qed.

(** * The two bindings side by side *)

(** The native [broadcast] writes to no connection whose transport is not
    open. *)
Lemma Native_broadcast_skips_closed (randomUUID : nat → jsstring) (w : World)
    (d body : jsstring) (c : nat) (frame : jsstring) :
  readyState w c ≠ OPEN →
  ∃ written,
    outbox (Native.broadcast randomUUID d body w) = outbox w ++ written
    ∧ (c, frame) ∉ written.
Proof.
  intros Hclosed. rewrite Native_broadcast_eq.
  destruct (Map_get d _) as [ds|]; simpl.
  - eexists. split; [done|]. intros Hin.
    apply list_elem_of_lookup in Hin as [i Hi].
    rewrite messageFrames_lookup in Hi.
    destruct (open_pairs (readyState w) ds !! i) as [[c' s]|] eqn:E;
      [|done].
    simpl in Hi. unfold messageFrame in Hi. simplify_eq/=.
    apply list_elem_of_lookup_2, elem_of_open_pairs in E as (ss & _ & _ & Ho).
    by destruct (readyState w c).
  - exists []. rewrite app_nil_r. split; [done|]. apply not_elem_of_nil.
Qed.

(** C7 (the code departs from the specification): the SockJS [broadcast] has no check
    of the transport's state: with connection 1 closed it still calls
    [send] for both of its ids, where the native [broadcast] skips it and
    serves connection 2.  The closed subscriber is reached in a run of the
    SockJS binding: connection 1 re-subscribes id [s] from [d1] to [d2] and
    closes, [d1] keeps its entry, and a later [SEND] to [d1] writes to
    it. *)
Theorem SockJS_broadcast_writes_to_closed_connection :
  readyState room_world_1_closed 1 = CLOSED
  ∧ outbox (SockJS.broadcast sampleUUID (lit "room/1") (lit "hi")
              room_world_1_closed)
    = messageFrames sampleUUID (lit "room/1") (lit "hi") 0
        [(1, lit "s1"); (1, lit "s3"); (2, lit "s2")]
  ∧ outbox (Native.broadcast sampleUUID (lit "room/1") (lit "hi")
              room_world_1_closed)
    = messageFrames sampleUUID (lit "room/1") (lit "hi") 0 [(2, lit "s2")]
  ∧ readyState sockjs_stale_run 1 = CLOSED
  ∧ outbox sockjs_stale_run
    = messageFrames sampleUUID (lit "d1") (lit "hi") 0 [(1, lit "s")]
  ∧ outbox native_stale_run = [].
Proof. split_and!; reflexivity. Qed.

(** C9 (the code departs from the specification): one delivery, [DISCONNECT] followed by
    a [SUBSCRIBE] without headers, from the same world.  The decoders give
    the same two frames and the registries end equal, but the native
    handler, whose transport is closing by then, writes nothing, while the
    SockJS handler writes the [ERROR] frame. *)
Theorem bindings_differ_after_disconnect :
  Native.parseFrames disconnectThenSubscribe
  = [mkFrame (lit "DISCONNECT") ∅ []; mkFrame (lit "SUBSCRIBE") ∅ []]
  ∧ SockJS.parseFrames disconnectThenSubscribe
    = Native.parseFrames disconnectThenSubscribe
  ∧ registry (SockJS.onData sampleUUID 1 disconnectThenSubscribe world0)
    = registry (Native.onMessage sampleUUID 1 disconnectThenSubscribe world0)
  ∧ outbox (Native.onMessage sampleUUID 1 disconnectThenSubscribe world0) = []
  ∧ outbox (SockJS.onData sampleUUID 1 disconnectThenSubscribe world0)
    = [(1, errorFrame)].
Proof. split_and!; reflexivity. Qed.

(** What the two bindings do share: the decoder, the registry mutations of
    one delivery, and, while every transport is open, the frames written. *)
Lemma deliveries_same_registry (randomUUID : nat → jsstring) (c : nat)
    (chunk : jsstring) (w1 w2 : World) :
  registry w1 = registry w2 →
  registry (SockJS.onData randomUUID c chunk w1)
  = registry (Native.onMessage randomUUID c chunk w2).
Proof.
  unfold SockJS.onData, Native.onMessage.
  change (SockJS.parseFrames chunk) with (Native.parseFrames chunk).
  generalize (Native.parseFrames chunk) as frames. intros frames.
  revert w1 w2. induction frames as [|f frames IH]; intros w1 w2 Hr; [done|].
  cbn [foldl]. apply IH. rewrite handleFrame_same_registry.
  clear IH. unfold Native.handleFrame.
  repeat match goal with
         | |- context [if ?b then _ else _] => destruct b eqn:?
         end;
    rewrite ?Native_broadcast_registry;
    unfold Native.sendFrame, set_registry, transport_close;
    repeat match goal with
           | |- context [is_open ?x] => destruct (is_open x)
           end; simpl; by rewrite ?Hr.
Qed.

(** * Splitting and joining *)

Section Splitting.
Implicit Types (s t p : jsstring) (sep : N).

Lemma split1_nonempty sep s : split1 sep s ≠ [].
Proof.
  destruct s as [|c r]; simpl; [done|].
  destruct (c =? sep)%N; [done|]. by destruct (split1 sep r).
Qed.

Lemma cons_seg_prepend c segs : cons_seg c segs = prepend_seg [c] segs.
Proof. by destruct segs. Qed.

Lemma prepend_seg_nil segs : segs ≠ [] → prepend_seg [] segs = segs.
Proof. by destruct segs. Qed.

Lemma prepend_seg_cons c p segs :
  segs ≠ [] → cons_seg c (prepend_seg p segs) = prepend_seg (c :: p) segs.
Proof. by destruct segs. Qed.

(** A prefix without the separator stays in the first segment. *)
Lemma split1_prefix sep p t :
  sep ∉ p → split1 sep (p ++ t) = prepend_seg p (split1 sep t).
Proof.
  induction p as [|c p IH]; intros Hp; simpl.
  - by rewrite prepend_seg_nil by apply split1_nonempty.
  - apply not_elem_of_cons in Hp as [Hc Hp].
    rewrite (proj2 (N.eqb_neq c sep)) by done.
    rewrite IH by done. apply prepend_seg_cons, split1_nonempty.
Qed.

Lemma split1_no_sep sep s : sep ∉ s → split1 sep s = [s].
Proof.
  intros H. rewrite <- (app_nil_r s) at 1.
  rewrite split1_prefix by done. simpl. by rewrite app_nil_r.
Qed.

Lemma split1_app sep p t :
  sep ∉ p → split1 sep (p ++ sep :: t) = p :: split1 sep t.
Proof.
  intros H. rewrite split1_prefix by done. simpl.
  rewrite N.eqb_refl. simpl. by rewrite app_nil_r.
Qed.

Lemma split_blank_eq c d r :
  split_blank (c :: d :: r)
  = if ((c =? NL) && (d =? NL))%N then [] :: split_blank r
    else cons_seg c (split_blank (d :: r)).
Proof. reflexivity. Qed.

Lemma has_blank_eq c d r :
  has_blank (c :: d :: r)
  = ((c =? NL) && (d =? NL))%N || has_blank (d :: r).
Proof. reflexivity. Qed.

Lemma cons_seg_nonempty c segs : cons_seg c segs ≠ [].
Proof. by destruct segs. Qed.

Lemma split_blank_nonempty s : split_blank s ≠ [].
Proof.
  destruct s as [|c [|d r]]; [done..|]. rewrite split_blank_eq.
  destruct ((c =? NL) && (d =? NL))%N; [done|]. apply cons_seg_nonempty.
Qed.

Lemma split_blank_cons c t :
  has_blank (c :: take 1 t) = false →
  split_blank (c :: t) = cons_seg c (split_blank t).
Proof.
  destruct t as [|d r]; [done|]. rewrite split_blank_eq.
  change (take 1 (d :: r)) with [d]. rewrite has_blank_eq.
  by intros [-> _]%orb_false_elim.
Qed.

Lemma has_blank_cons_false c t :
  has_blank (c :: t) = false → has_blank t = false.
Proof.
  destruct t as [|d r]; [done|]. rewrite has_blank_eq.
  by intros [_ ?]%orb_false_elim.
Qed.

Lemma has_blank_head c p t :
  has_blank ((c :: p) ++ take 1 t) = false →
  has_blank (c :: take 1 (p ++ t)) = false.
Proof.
  destruct p as [|d p]; [done|].
  change (take 1 ((d :: p) ++ t)) with [d].
  change ((c :: d :: p) ++ take 1 t) with (c :: d :: (p ++ take 1 t)).
  rewrite !has_blank_eq. intros [-> _]%orb_false_elim. done.
Qed.

(** A prefix that holds no blank line, not even with the code unit that
    follows it, stays in the first segment. *)
Lemma split_blank_prefix p : ∀ t,
  has_blank (p ++ take 1 t) = false →
  split_blank (p ++ t) = prepend_seg p (split_blank t).
Proof.
  induction p as [|c p IH]; intros t Hb.
  - by rewrite prepend_seg_nil by apply split_blank_nonempty.
  - cbn [app]. rewrite split_blank_cons by by apply has_blank_head.
    rewrite IH by by apply has_blank_cons_false in Hb.
    apply prepend_seg_cons, split_blank_nonempty.
Qed.

Lemma split_blank_no_blank s : has_blank s = false → split_blank s = [s].
Proof.
  intros H. rewrite <- (app_nil_r s) at 1.
  rewrite split_blank_prefix by by rewrite app_nil_r.
  simpl. by rewrite app_nil_r.
Qed.

Lemma split_blank_app p t :
  has_blank (p ++ [NL]) = false →
  split_blank (p ++ NL :: NL :: t) = p :: split_blank t.
Proof.
  intros H. rewrite split_blank_prefix by done. simpl.
  by rewrite app_nil_r.
Qed.

Lemma join_cons_seg (glue : jsstring) c segs :
  segs ≠ [] → join glue (cons_seg c segs) = c :: join glue segs.
Proof. destruct segs as [|seg [|seg' rest]]; by simpl. Qed.

Lemma join_cons (glue : jsstring) seg segs :
  segs ≠ [] → join glue (seg :: segs) = seg ++ glue ++ join glue segs.
Proof. by destruct segs. Qed.

(** Joining what [split('\n\n')] gave restores the string. *)
Lemma join_split_blank s : join [NL; NL] (split_blank s) = s.
Proof.
  assert (∀ n s, length s ≤ n → join [NL; NL] (split_blank s) = s) as H.
  { clear s. induction n as [|n IH]; intros s Hn.
    - by destruct s; [|simpl in Hn; lia].
    - destruct s as [|c [|d r]]; [done..|]. simpl in Hn.
      rewrite split_blank_eq.
      destruct ((c =? NL) && (d =? NL))%N eqn:E.
      + apply andb_true_iff in E as [->%N.eqb_eq ->%N.eqb_eq].
        rewrite join_cons by apply split_blank_nonempty.
        rewrite IH by lia. done.
      + rewrite join_cons_seg by apply split_blank_nonempty.
        rewrite IH by (simpl; lia). done. }
  by apply (H (length s)).
Qed.

Lemma has_blank_app_l p t : has_blank (p ++ t) = false → has_blank p = false.
Proof.
  induction p as [|c p IH]; [done|]. intros H.
  destruct p as [|d p]; [done|].
  change ((c :: d :: p) ++ t) with (c :: d :: (p ++ t)) in H.
  rewrite has_blank_eq in *.
  apply orb_false_elim in H as [-> H]. by rewrite IH.
Qed.

Lemma has_blank_app_r p t : has_blank (p ++ t) = false → has_blank t = false.
Proof.
  induction p as [|c p IH]; [done|]. intros H. apply IH.
  by apply has_blank_cons_false in H.
Qed.

(** A part without line feed neither holds nor starts a blank line. *)
Lemma has_blank_no_NL p t : NL ∉ p → has_blank (p ++ t) = has_blank t.
Proof.
  induction p as [|c p IH]; [done|]. intros [Hc Hp]%not_elem_of_cons.
  cbn [app]. destruct (p ++ t) as [|d r] eqn:E.
  - destruct p; [|done]. simpl in E. by subst.
  - assert ((c =? NL)%N = false) as Ec by (apply N.eqb_neq; congruence).
    rewrite has_blank_eq, Ec, orb_false_l. by apply IH.
Qed.
End Splitting.

(** * The header block *)

Section HeaderBlock.
Implicit Types (c b s : jsstring) (hs : list (jsstring * jsstring))
  (kv : jsstring * jsstring).

Lemma header_line_NL kv : wire_header kv → NL ∉ header_line kv.
Proof.
  intros (_ & _ & Hk & _ & _ & _ & Hv & _). unfold header_line.
  rewrite not_elem_of_app, not_elem_of_cons. done.
Qed.

Lemma header_line_NUL kv : wire_header kv → NUL ∉ header_line kv.
Proof.
  intros (_ & _ & _ & Hk & _ & _ & _ & Hv). unfold header_line.
  rewrite not_elem_of_app, not_elem_of_cons. done.
Qed.

Lemma header_line_nonempty kv : header_line kv ≠ [].
Proof. unfold header_line. by destruct (kv.1). Qed.

Lemma header_lines_cons kv hs :
  header_lines (kv :: hs) = header_line kv ++ NL :: header_lines hs.
Proof. unfold header_line. simpl. by rewrite <- app_assoc. Qed.

(** The command line and the header lines, joined by line feeds, with
    the line feed that ends the last of them. *)
Lemma header_block_shape hs : ∀ c,
  c ++ NL :: header_lines hs
  = join [NL] (c :: (header_line <$> hs)) ++ [NL].
Proof.
  induction hs as [|kv hs IH]; intros c; [done|].
  rewrite header_lines_cons, IH, fmap_cons.
  rewrite (join_cons [NL] c) by done. by rewrite <- !app_assoc.
Qed.

Lemma split1_join ls : ∀ l,
  NL ∉ l → Forall (λ l', NL ∉ l') ls →
  split1 NL (join [NL] (l :: ls)) = l :: ls.
Proof.
  induction ls as [|l' ls IH]; intros l Hl Hls.
  - by apply split1_no_sep.
  - apply Forall_cons in Hls as [Hl' Hls].
    rewrite join_cons by done. cbn [app].
    rewrite split1_app by done. by rewrite IH.
Qed.

Lemma has_blank_header_lines hs :
  Forall wire_header hs → has_blank (NL :: header_lines hs) = false.
Proof.
  induction hs as [|kv hs IH]; intros Hhs; [done|].
  apply Forall_cons in Hhs as [Hkv Hhs].
  rewrite header_lines_cons.
  pose proof (header_line_NL kv Hkv) as HNL.
  destruct (header_line kv) as [|x line] eqn:E.
  { by apply header_line_nonempty in E. }
  apply not_elem_of_cons in HNL as [Hx Hline].
  change ((x :: line) ++ NL :: header_lines hs)
    with (x :: (line ++ NL :: header_lines hs)).
  rewrite has_blank_eq.
  assert ((x =? NL)%N = false) as -> by (apply N.eqb_neq; congruence).
  rewrite andb_false_r, orb_false_l.
  change (x :: line ++ NL :: header_lines hs)
    with ((x :: line) ++ NL :: header_lines hs).
  rewrite has_blank_no_NL; [by apply IH|].
  apply not_elem_of_cons. split; [congruence|done].
Qed.

Lemma has_blank_header_block c hs :
  NL ∉ c → Forall wire_header hs →
  has_blank (c ++ NL :: header_lines hs) = false.
Proof.
  intros Hc Hhs. rewrite has_blank_no_NL by done.
  by apply has_blank_header_lines.
Qed.

Lemma filter_truthy_id (ls : list jsstring) :
  Forall (λ l, l ≠ []) ls → filter_truthy ls = ls.
Proof.
  induction 1 as [|l ls Hl _ IH]; simpl; [done|].
  destruct l; [done|]. simpl. by rewrite IH.
Qed.

Lemma indexOf_app k v :
  COLON ∉ k → indexOf COLON (k ++ COLON :: v) = Some (length k).
Proof.
  induction k as [|x k IH]; intros Hk; simpl; [done|].
  apply not_elem_of_cons in Hk as [Hx Hk].
  assert ((x =? COLON)%N = false) as -> by (apply N.eqb_neq; congruence).
  by rewrite IH.
Qed.

Lemma parseHeaderLine_wire (o : gmap jsstring jsstring) kv :
  wire_header kv →
  Native.parseHeaderLine o (header_line kv) = <[trim kv.1 := trim kv.2]> o.
Proof.
  intros (_ & _ & _ & _ & Hcolon & Hproto & _).
  unfold Native.parseHeaderLine, header_line.
  rewrite indexOf_app by done.
  rewrite take_app_length.
  replace (drop (S (length kv.1)) (kv.1 ++ COLON :: kv.2)) with kv.2.
  - unfold obj_set. by rewrite decide_False.
  - rewrite (cons_middle COLON), app_assoc.
    rewrite drop_app_length'; [done|]. rewrite length_app. simpl. lia.
Qed.

Lemma parse_header_lines hs : ∀ o : gmap jsstring jsstring,
  Forall wire_header hs →
  foldl Native.parseHeaderLine o (header_line <$> hs)
  = foldl (λ o kv, <[trim kv.1 := trim kv.2]> o) o hs.
Proof.
  induction hs as [|kv hs IH]; intros o Hhs; [done|].
  apply Forall_cons in Hhs as [Hkv Hhs].
  rewrite fmap_cons. cbn [foldl].
  rewrite parseHeaderLine_wire by done. by apply IH.
Qed.

Lemma header_lines_NUL hs :
  Forall wire_header hs → NUL ∉ header_lines hs.
Proof.
  induction 1 as [|kv hs Hkv _ IH]; [apply not_elem_of_nil|].
  rewrite header_lines_cons, not_elem_of_app, not_elem_of_cons.
  split; [by apply header_line_NUL|done].
Qed.

Lemma trim_nil_command c : trim c ≠ [] → c ≠ [].
Proof. by intros H ->. Qed.
End HeaderBlock.

(** * Decoding what was encoded *)

Section Decode.
Implicit Types (c b raw : jsstring) (hs : list (jsstring * jsstring)).

Lemma parseRaw_eq raw first parts :
  2 ≤ length raw → split_blank raw = first :: parts →
  Native.parseRaw raw
  = match filter_truthy (split1 NL first) with
    | [] => None
    | commandLine :: headerLines =>
        if negb (truthy (trim commandLine)) then None
        else Some {| command := trim commandLine;
                     headers := foldl Native.parseHeaderLine ∅ headerLines;
                     body := join [NL; NL] parts |}
    end.
Proof.
  intros Hlen Hsplit. unfold Native.parseRaw. rewrite Hsplit.
  destruct raw as [|x [|y raw]]; simpl in Hlen; [lia..|].
  simpl. rewrite bool_decide_eq_false_2; done.
Qed.

(** One segment made of a first line [c], complete header lines, the
    blank line and a body. *)
Lemma parseRaw_block c hs b :
  NL ∉ c → Forall wire_header hs →
  Native.parseRaw (c ++ NL :: header_lines hs ++ NL :: b)
  = match filter_truthy [c] ++ (header_line <$> hs) with
    | [] => None
    | commandLine :: headerLines =>
        if negb (truthy (trim commandLine)) then None
        else Some {| command := trim commandLine;
                     headers := foldl Native.parseHeaderLine ∅ headerLines;
                     body := b |}
    end.
Proof.
  intros Hc Hhs.
  assert (c ++ NL :: header_lines hs ++ NL :: b
          = join [NL] (c :: (header_line <$> hs)) ++ NL :: NL :: b) as Hshape.
  { rewrite (app_comm_cons _ _ NL), app_assoc, header_block_shape.
    by rewrite <- app_assoc. }
  rewrite (parseRaw_eq _ (join [NL] (c :: (header_line <$> hs)))
             (split_blank b)).
  - rewrite split1_join, join_split_blank.
    + replace (filter_truthy (c :: (header_line <$> hs)))
        with (filter_truthy [c] ++ (header_line <$> hs)); [done|].
      assert (filter_truthy (header_line <$> hs) = header_line <$> hs) as E.
      { apply filter_truthy_id, Forall_fmap, Forall_true.
        intros kv. apply header_line_nonempty. }
      simpl. destruct (truthy c); simpl; by rewrite E.
    + done.
    + apply Forall_fmap. eapply Forall_impl; [done|].
      intros kv. apply header_line_NL.
  - rewrite length_app. cbn [length]. rewrite length_app. cbn [length]. lia.
  - rewrite Hshape. apply split_blank_app.
    rewrite <- header_block_shape. by apply has_blank_header_block.
Qed.

Lemma parseFrames_no_NUL raw :
  NUL ∉ raw →
  Native.parseFrames raw
  = match Native.parseRaw raw with Some f => [f] | None => [] end.
Proof.
  intros H. unfold Native.parseFrames. destruct raw as [|x raw]; [done|].
  cbn [truthy negb]. rewrite split1_no_sep by done. done.
Qed.

Lemma parseFrames_terminated raw :
  NUL ∉ raw →
  Native.parseFrames (raw ++ [NUL])
  = match Native.parseRaw raw with Some f => [f] | None => [] end.
Proof.
  intros H. unfold Native.parseFrames.
  assert (truthy (raw ++ [NUL]) = true) as -> by by destruct raw.
  cbn [negb]. rewrite split1_app by done. simpl.
  by destruct (Native.parseRaw raw).
Qed.

Lemma encoded_no_NUL c hs b :
  NUL ∉ c → Forall wire_header hs → NUL ∉ b →
  NUL ∉ c ++ NL :: header_lines hs ++ NL :: b.
Proof.
  intros Hc Hhs Hb.
  rewrite not_elem_of_app, not_elem_of_cons, not_elem_of_app,
    not_elem_of_cons.
  split_and!; [done|done|by apply header_lines_NUL|done|done].
Qed.

Lemma frameText_terminated c hs b :
  Native.frameText c hs b = (c ++ NL :: header_lines hs ++ NL :: b) ++ [NUL].
Proof.
  rewrite frameText_encode. unfold encodeFrame.
  repeat (rewrite <- app_assoc; simpl). done.
Qed.

(** The segment of an encoded frame, decoded. *)
Lemma parseRaw_encoded c hs b :
  wire_command c → Forall wire_header hs →
  Native.parseRaw (c ++ NL :: header_lines hs ++ NL :: b)
  = Some {| command := trim c; headers := trimmed_headers hs; body := b |}.
Proof.
  intros (Htrim & HNL & HNUL) Hhs.
  rewrite parseRaw_block by done.
  assert (truthy c = true) as Hc.
  { destruct c; [|done]. by apply trim_nil_command in Htrim. }
  simpl. rewrite Hc. simpl.
  assert (truthy (trim c) = true) as -> by by destruct (trim c).
  simpl. by rewrite parse_header_lines.
Qed.
End Decode.

(** C3 (as stated, refuted): the name and the value of the header are
    non-empty, the name has no line feed, the body has no NUL, and one
    frame is decoded; but the value holds a line feed and is cut there. *)
Lemma round_trip_fails_on_value_with_line_feed :
  Native.parseFrames
    (Native.frameText (lit "SEND") [(lit "a", lit "x" ++ NL :: lit "y")] [])
  = [ {| command := lit "SEND"; headers := {[ lit "a" := lit "x" ]};
         body := [] |} ]
  ∧ trimmed_headers [(lit "a", lit "x" ++ NL :: lit "y")]
    = {[ lit "a" := lit "x" ++ NL :: lit "y" ]}
  ∧ Native.parseFrames
      (Native.frameText (lit "SEND") [(lit "a", lit "x" ++ NL :: lit "y")] [])
    ≠ [ {| command := lit "SEND";
           headers := trimmed_headers [(lit "a", lit "x" ++ NL :: lit "y")];
           body := [] |} ].
Proof. split_and!; [by vm_compute..|]. by vm_compute. Qed.

(** C3 (amended): for a command that is not blank, headers whose names
    and values are non-empty, whose names hold no colon and do not trim
    to [__proto__], with no line feed and no NUL in command, names and
    values, and a body without NUL, decoding the encoded frame gives
    exactly one frame: the trimmed command, the trimmed header mapping and
    the body as it was. *)
Theorem decode_encode (c : jsstring) (hs : list (jsstring * jsstring))
    (b : jsstring) :
  wire_command c → Forall wire_header hs → NUL ∉ b →
  Native.parseFrames (Native.frameText c hs b)
  = [ {| command := trim c; headers := trimmed_headers hs; body := b |} ].
Proof.
  intros Hc Hhs Hb.
  assert (NUL ∉ c ++ NL :: header_lines hs ++ NL :: b) as HNUL.
  { destruct Hc as (_ & _ & HcNUL). by apply encoded_no_NUL. }
  rewrite frameText_terminated.
  rewrite parseFrames_terminated by done.
  by rewrite parseRaw_encoded.
Qed.

Ltac wire_check :=
  repeat match goal with
         | |- _ ∧ _ => split
         | |- Forall _ _ => constructor
         | |- _ ∉ _ => apply (bool_decide_unpack _); vm_compute; exact I
         | |- NoDup _ => apply (bool_decide_unpack _); vm_compute; exact I
         | |- _ ≠ _ => let H := fresh in intros H; vm_compute in H; discriminate
         | |- _ = _ => vm_compute; reflexivity
         end.

Lemma decode_encode_witness :
  wire_command (lit " SEND")
  ∧ Forall wire_header [(lit "destination ", lit " a:b")]
  ∧ (NUL ∉ lit "hi" ++ [NL; NL] ++ lit "x")
  ∧ Native.parseFrames
      (Native.frameText (lit " SEND") [(lit "destination ", lit " a:b")]
         (lit "hi" ++ [NL; NL] ++ lit "x"))
    = [ {| command := lit "SEND";
           headers := {[ lit "destination" := lit "a:b" ]};
           body := lit "hi" ++ [NL; NL] ++ lit "x" |} ].
Proof.
  assert (wire_command (lit " SEND")) as Hc
    by (unfold wire_command; wire_check).
  assert (Forall wire_header [(lit "destination ", lit " a:b")]) as Hhs
    by (unfold wire_header; wire_check).
  assert (NUL ∉ lit "hi" ++ [NL; NL] ++ lit "x") as Hb by wire_check.
  split_and!; [exact Hc | exact Hhs | exact Hb |].
  rewrite (decode_encode _ _ _ Hc Hhs Hb). by vm_compute.
Defined.

(** * A frame delivered in two chunks *)

Section TwoChunks.
Implicit Types (c b raw t : jsstring) (hs : list (jsstring * jsstring))
  (kv : jsstring * jsstring) (f : Frame).

Lemma length_trimStart s : length (trimStart s) ≤ length s.
Proof.
  induction s as [|x s IH]; simpl; [done|]. destruct (is_ws x); simpl; lia.
Qed.

Lemma length_trim s : length (trim s) ≤ length s.
Proof.
  unfold trim, trimEnd. rewrite length_reverse.
  etrans; [apply length_trimStart|]. rewrite length_reverse.
  apply length_trimStart.
Qed.

Lemma parseRaw_body raw f :
  Native.parseRaw raw = Some f →
  ∃ first parts, split_blank raw = first :: parts
                 ∧ body f = join [NL; NL] parts.
Proof.
  unfold Native.parseRaw.
  destruct (negb (truthy raw)); [done|].
  destruct (bool_decide (raw = [NL])); [done|].
  destruct (split_blank raw) as [|first parts]; [done|].
  destruct (filter_truthy _) as [|cl hl]; [done|].
  destruct (negb (truthy (trim cl))); [done|].
  intros [= <-]. by exists first, parts.
Qed.

(** The body decoded from a segment is empty, or shorter than the
    segment by the blank line at least. *)
Lemma parseRaw_body_short raw f :
  Native.parseRaw raw = Some f →
  body f = [] ∨ length (body f) + 2 ≤ length raw.
Proof.
  intros (first & parts & Hs & Hb)%parseRaw_body.
  destruct parts as [|p ps]; [by left|]. right.
  rewrite <- (join_split_blank raw), Hs, join_cons by done.
  rewrite <- Hb, !length_app. simpl. lia.
Qed.

Lemma parseRaw_body_no_blank raw f :
  has_blank raw = false → Native.parseRaw raw = Some f → body f = [].
Proof.
  intros Hb (first & parts & Hs & ->)%parseRaw_body.
  rewrite split_blank_no_blank in Hs by done. by simplify_eq.
Qed.

Lemma trimmed_headers_snoc hs kv :
  trimmed_headers (hs ++ [kv])
  = <[trim kv.1 := trim kv.2]> (trimmed_headers hs).
Proof. unfold trimmed_headers. by rewrite foldl_app. Qed.

Lemma trimmed_headers_None hs (k : jsstring) :
  k ∉ trimmed_names hs → trimmed_headers hs !! k = None.
Proof.
  unfold trimmed_names.
  induction hs as [|kv hs IH] using rev_ind; intros Hk; [done|].
  rewrite fmap_app, not_elem_of_app in Hk. destruct Hk as [Hk Hkv].
  rewrite trimmed_headers_snoc, lookup_insert_ne; [by apply IH|].
  intros <-. apply Hkv. simpl. by left.
Qed.

Lemma trimmed_headers_Some hs kv :
  kv ∈ hs → is_Some (trimmed_headers hs !! trim kv.1).
Proof.
  induction hs as [|kv' hs IH] using rev_ind; [by intros H%elem_of_nil|].
  rewrite elem_of_app, list_elem_of_singleton, trimmed_headers_snoc.
  intros [Hin| ->].
  - destruct (decide (trim kv'.1 = trim kv.1)) as [E|E].
    + rewrite E, lookup_insert_eq. eauto.
    + rewrite lookup_insert_ne by done. by apply IH.
  - rewrite lookup_insert_eq. eauto.
Qed.

(** Headers decoded from lines after the line of [kv] miss its name. *)
Lemma trimmed_headers_suffix_ne hs1 kv hs2 pre hs' :
  NoDup (trimmed_names (hs1 ++ kv :: hs2)) → hs2 = pre ++ hs' →
  trimmed_headers hs' ≠ trimmed_headers (hs1 ++ kv :: hs2).
Proof.
  intros Hnd -> Heq.
  assert (kv ∈ hs1 ++ kv :: pre ++ hs') as Hin.
  { apply elem_of_app. right. by left. }
  apply trimmed_headers_Some in Hin as [v Hv].
  rewrite <- Heq, trimmed_headers_None in Hv; [done|].
  unfold trimmed_names in *.
  rewrite fmap_app, fmap_cons, fmap_app in Hnd.
  apply NoDup_app in Hnd as (_ & _ & Hnd).
  apply NoDup_cons in Hnd as [Hnotin _].
  rewrite not_elem_of_app in Hnotin. tauto.
Qed.

(** Where a cut can fall in the lines of the headers: inside the line
    of some header [kv], or at one of its ends. *)
Lemma header_lines_cut hs : ∀ H1 H2 : jsstring,
  H1 ++ H2 = header_lines hs → H2 ≠ [] →
  ∃ hs1 kv hs2 l1 l2,
    hs = hs1 ++ kv :: hs2 ∧ header_line kv = l1 ++ l2
    ∧ H2 = l2 ++ NL :: header_lines hs2.
Proof.
  induction hs as [|kv hs IH]; intros H1 H2 Heq Hne.
  - by destruct H1, H2.
  - rewrite header_lines_cons in Heq.
    apply app_eq_app in Heq as [l [[-> Heq]|[Hl ->]]].
    + destruct l as [|x l].
      * exists [], kv, hs, (header_line kv), []. simpl in *.
        rewrite app_nil_r. by subst.
      * simpl in Heq. injection Heq as <- Heq.
        destruct (IH l H2 (eq_sym Heq) Hne)
          as (hs1 & kv' & hs2 & l1 & l2 & -> & Hl & ->).
        exists (kv :: hs1), kv', hs2, l1, l2. by split_and!.
    + exists [], kv, hs, H1, l. by split_and!.
Qed.

(** Where a cut can fall in an encoded frame, when the second chunk
    holds more than the final NUL: in the command line, in the lines of
    the headers, or in the body. *)
Lemma frame_cut c b (H chunk1 chunk2 : jsstring) :
  chunk1 ++ chunk2 = c ++ NL :: H ++ NL :: b ++ [NUL] →
  chunk2 ≠ [] → chunk2 ≠ [NUL] →
  (∃ c2, c = chunk1 ++ c2 ∧ chunk2 = c2 ++ NL :: H ++ NL :: b ++ [NUL])
  ∨ (∃ H1 H2, H = H1 ++ H2 ∧ chunk1 = c ++ NL :: H1
              ∧ chunk2 = H2 ++ NL :: b ++ [NUL])
  ∨ (∃ b1 b2, b = b1 ++ b2 ∧ b2 ≠ [] ∧ chunk1 = c ++ NL :: H ++ NL :: b1
              ∧ chunk2 = b2 ++ [NUL]).
Proof.
  intros Heq Hne HneNUL.
  apply app_eq_app in Heq as [l [[-> Heq]|[-> ->]]]; [|left; eauto].
  destruct l as [|x l].
  { left. exists []. simpl in Heq. rewrite !app_nil_r. by subst. }
  simpl in Heq. injection Heq as <- Heq. symmetry in Heq.
  apply app_eq_app in Heq as [l' [[-> Heq]|[-> ->]]];
    [|right; left; eauto].
  destruct l' as [|x l'].
  { right. left. exists H, []. simpl in Heq. rewrite !app_nil_r. by subst. }
  simpl in Heq. injection Heq as <- Heq. symmetry in Heq.
  apply app_eq_app in Heq as [l'' [[-> Heq]|[-> ->]]].
  - destruct l'' as [|x l'']; simpl in Heq; [by subst|].
    injection Heq as <- Heq. by destruct l'', chunk2.
  - right. right. exists l', l''. split_and!; [done| |done|done].
    intros ->. done.
Qed.

(** A first line and the lines of the headers that follow the header
    [kv]: what is decoded misses the name of [kv]. *)
Lemma block_headers_ne (l : jsstring) hs1 kv hs2 b f :
  NL ∉ l → Forall wire_header hs2 →
  NoDup (trimmed_names (hs1 ++ kv :: hs2)) →
  Native.parseRaw (l ++ NL :: header_lines hs2 ++ NL :: b) = Some f →
  headers f ≠ trimmed_headers (hs1 ++ kv :: hs2).
Proof.
  intros Hl Hhs Hnd. rewrite parseRaw_block by done.
  destruct l as [|x l]; simpl.
  - destruct hs2 as [|kv2 hs3]; simpl; [done|].
    apply Forall_cons in Hhs as [_ Hhs].
    destruct (negb (truthy _)); [done|]. intros [= <-]. simpl.
    rewrite parse_header_lines by done.
    by apply (trimmed_headers_suffix_ne hs1 kv (kv2 :: hs3) [kv2] hs3).
  - destruct (negb (truthy _)); [done|]. intros [= <-]. simpl.
    rewrite parse_header_lines by done.
    by apply (trimmed_headers_suffix_ne hs1 kv hs2 [] hs2).
Qed.

Lemma not_elem_of_app_r_inv {A} (x : A) (l1 l2 : list A) :
  x ∉ l1 ++ l2 → x ∉ l2.
Proof. rewrite not_elem_of_app. tauto. Qed.

Lemma not_elem_of_app_l_inv {A} (x : A) (l1 l2 : list A) :
  x ∉ l1 ++ l2 → x ∉ l1.
Proof. rewrite not_elem_of_app. tauto. Qed.
End TwoChunks.

(** C10 (as stated, refuted): the cut just before the final NUL.  The
    first chunk, which is the frame without its terminator, is decoded to
    the frame; the second, the NUL alone, to nothing. *)
Lemma cut_before_NUL_is_decoded :
  let frame := Native.frameText (lit "SEND") [(lit "destination", lit "d")]
                 (lit "hello") in
  let chunk1 := lit "SEND" ++ NL :: lit "destination:d" ++ NL :: NL
                :: lit "hello" in
  let chunk2 := [NUL] in
  chunk1 ++ chunk2 = frame
  ∧ Native.parseFrames frame
    = [ {| command := lit "SEND"; headers := {[ lit "destination" := lit "d" ]};
           body := lit "hello" |} ]
  ∧ Native.parseFrames chunk1 = Native.parseFrames frame
  ∧ Native.parseFrames chunk2 = [].
Proof. cbv zeta. split_and!; by vm_compute. Qed.

(** C10 (amended): a frame whose command carries no surrounding white
    space, whose trimmed header names differ pairwise and whose body is not
    empty, otherwise as for the round trip; cut into two non-empty chunks
    of which the second holds more than the final NUL.  The frame itself
    decodes, but neither chunk decodes to it: the decoder keeps nothing
    from one call to the next. *)
Theorem split_frame_is_not_decoded (c : jsstring)
    (hs : list (jsstring * jsstring)) (b chunk1 chunk2 : jsstring) :
  wire_command c → trim c = c →
  Forall wire_header hs → NoDup (trimmed_names hs) →
  (NUL ∉ b) → b ≠ [] →
  chunk1 ++ chunk2 = Native.frameText c hs b →
  chunk1 ≠ [] → chunk2 ≠ [] → chunk2 ≠ [NUL] →
  let original := {| command := c; headers := trimmed_headers hs;
                     body := b |} in
  Native.parseFrames (Native.frameText c hs b) = [original]
  ∧ (original ∉ Native.parseFrames chunk1)
  ∧ (original ∉ Native.parseFrames chunk2).
Proof.
  intros Hc Htrim Hhs Hnd Hb Hbne Hcut Hne1 Hne2 HneNUL original.
  assert (NUL ∉ c ++ NL :: header_lines hs ++ NL :: b) as HNUL.
  { destruct Hc as (_ & _ & HcNUL). by apply encoded_no_NUL. }
  split.
  { rewrite frameText_terminated, parseFrames_terminated by done.
    rewrite parseRaw_encoded by done. by rewrite Htrim. }
  destruct Hc as (_ & HcNL & HcNUL).
  rewrite frameText_encode in Hcut. unfold encodeFrame in Hcut.
  assert (∀ raw f, Native.parseRaw raw = Some f →
            (body f = [] ∨ length (body f) < length b) → original ≠ f)
    as Hbody.
  { intros raw f _ [Hf|Hf] <-; simpl in Hf; [done|lia]. }
  apply frame_cut in Hcut; [|done|done].
  destruct Hcut as
    [(c2 & Ec & ->)|[(H1 & H2 & EH & -> & ->)|(b1 & b2 & Eb & Hb2 & -> & ->)]].
  - (* the cut falls in the command line *)
    split.
    + assert (has_blank chunk1 = false) as Hblank.
      { apply (has_blank_app_l _ (c2 ++ NL :: header_lines hs)).
        rewrite app_assoc, <- Ec. by apply has_blank_header_block. }
      rewrite parseFrames_no_NUL
        by (rewrite Ec in HcNUL; by apply not_elem_of_app_l_inv in HcNUL).
      destruct (Native.parseRaw chunk1) as [f|] eqn:E;
        [|apply not_elem_of_nil].
      apply not_elem_of_cons. split; [|apply not_elem_of_nil].
      apply (Hbody _ _ E). left. by eapply parseRaw_body_no_blank.
    + assert ((NL ∉ c2) ∧ (NUL ∉ c2)) as [Hc2NL Hc2NUL].
      { rewrite Ec in HcNL, HcNUL.
        split; by eapply not_elem_of_app_r_inv. }
      replace (c2 ++ NL :: header_lines hs ++ NL :: b ++ [NUL])
        with ((c2 ++ NL :: header_lines hs ++ NL :: b) ++ [NUL])
        by (repeat (rewrite <- app_assoc; simpl); done).
      rewrite parseFrames_terminated by by apply encoded_no_NUL.
      destruct (Native.parseRaw _) as [f|] eqn:E; [|apply not_elem_of_nil].
      apply not_elem_of_cons. split; [|apply not_elem_of_nil].
      destruct c2 as [|x c2].
      * destruct hs as [|kv hs].
        { rewrite parseRaw_block in E by done. done. }
        rewrite parseRaw_block in E by done. simpl in E.
        apply Forall_cons in Hhs as [_ Hhs].
        destruct (negb (truthy _)); [done|]. injection E as <-.
        intros [= _ Hheaders]. rewrite parse_header_lines in Hheaders by done.
        by apply (trimmed_headers_suffix_ne [] kv hs [] hs Hnd eq_refl).
      * rewrite parseRaw_block in E by done. simpl in E.
        destruct (negb (truthy _)); [done|]. injection E as <-.
        intros [= Hcmd _]. pose proof (length_trim (x :: c2)) as Hlen.
        rewrite <- Hcmd, Ec, length_app in Hlen.
        destruct chunk1; [done|]. simpl in Hlen. lia.
  - (* the cut falls in the lines of the headers *)
    split.
    + assert (has_blank (c ++ NL :: H1) = false) as Hblank.
      { apply (has_blank_app_l _ H2).
        rewrite <- app_assoc. simpl. rewrite <- EH.
        by apply has_blank_header_block. }
      rewrite parseFrames_no_NUL.
      2:{ rewrite EH in HNUL. intros Hin. apply HNUL.
          rewrite !elem_of_app, !elem_of_cons, !elem_of_app in *. tauto. }
      destruct (Native.parseRaw _) as [f|] eqn:E; [|apply not_elem_of_nil].
      apply not_elem_of_cons. split; [|apply not_elem_of_nil].
      apply (Hbody _ _ E). left. by eapply parseRaw_body_no_blank.
    + replace (H2 ++ NL :: b ++ [NUL]) with ((H2 ++ NL :: b) ++ [NUL])
        by (repeat (rewrite <- app_assoc; simpl); done).
      rewrite parseFrames_terminated.
      2:{ rewrite EH in HNUL. intros Hin. apply HNUL.
          rewrite !elem_of_app, !elem_of_cons, !elem_of_app in *. tauto. }
      destruct (Native.parseRaw _) as [f|] eqn:E; [|apply not_elem_of_nil].
      apply not_elem_of_cons. split; [|apply not_elem_of_nil].
      destruct (decide (H2 = [])) as [->|HH2].
      * apply (Hbody _ _ E).
        destruct (parseRaw_body_short _ _ E) as [?|Hlen]; [by left|right].
        simpl in Hlen. lia.
      * destruct (header_lines_cut hs H1 H2 (eq_sym EH) HH2)
          as (hs1 & kv & hs2 & l1 & l2 & -> & Hline & ->).
        apply Forall_app in Hhs as [_ [Hkv Hhs2]%Forall_cons].
        assert (NL ∉ l2) as Hl2.
        { apply (not_elem_of_app_r_inv _ l1). rewrite <- Hline.
          by apply header_line_NL. }
        rewrite <- app_assoc in E. simpl in E. intros <-.
        by apply (block_headers_ne l2 hs1 kv hs2 b _ Hl2 Hhs2 Hnd E).
  - (* the cut falls in the body *)
    assert (length b1 < length b) as Hb1.
    { rewrite Eb, length_app. destruct b2; [done|]. simpl. lia. }
    split.
    + rewrite parseFrames_no_NUL.
      2:{ apply encoded_no_NUL; [done..|]. rewrite Eb in Hb.
          by apply not_elem_of_app_l_inv in Hb. }
      rewrite parseRaw_block by done.
      destruct (filter_truthy [c] ++ _) as [|cl hl]; [apply not_elem_of_nil|].
      destruct (negb (truthy _)); [apply not_elem_of_nil|].
      apply not_elem_of_cons. split; [|apply not_elem_of_nil].
      intros [= _ _ E]. rewrite E in Hb1. lia.
    + rewrite parseFrames_terminated.
      2:{ rewrite Eb in Hb. by apply not_elem_of_app_r_inv in Hb. }
      destruct (Native.parseRaw _) as [f|] eqn:E; [|apply not_elem_of_nil].
      apply not_elem_of_cons. split; [|apply not_elem_of_nil].
      apply (Hbody _ _ E).
      destruct (parseRaw_body_short _ _ E) as [?|Hlen]; [by left|right].
      rewrite Eb, length_app. lia.
Qed.

Lemma split_frame_is_not_decoded_witness :
  let original := {| command := lit "SEND";
                     headers := {[ lit "destination" := lit "d" ]};
                     body := lit "hello" |} in
  let chunk1 := lit "SEND" ++ NL :: lit "desti" in
  let chunk2 := lit "nation:d" ++ NL :: NL :: lit "hello" ++ [NUL] in
  wire_command (lit "SEND") ∧ trim (lit "SEND") = lit "SEND"
  ∧ Forall wire_header [(lit "destination", lit "d")]
  ∧ NoDup (trimmed_names [(lit "destination", lit "d")])
  ∧ chunk1 ++ chunk2
    = Native.frameText (lit "SEND") [(lit "destination", lit "d")]
        (lit "hello")
  ∧ Native.parseFrames (chunk1 ++ chunk2) = [original]
  ∧ (original ∉ Native.parseFrames chunk1)
  ∧ (original ∉ Native.parseFrames chunk2).
Proof.
  cbv zeta.
  assert (wire_command (lit "SEND")) as Hc
    by (unfold wire_command; wire_check).
  assert (Forall wire_header [(lit "destination", lit "d")]) as Hhs
    by (unfold wire_header; wire_check).
  assert (NoDup (trimmed_names [(lit "destination", lit "d")])) as Hnd
    by (unfold trimmed_names; wire_check).
  split_and!; [exact Hc | by vm_compute | exact Hhs | exact Hnd
              | by vm_compute | by vm_compute | |].
  - apply (split_frame_is_not_decoded
             (lit "SEND") [(lit "destination", lit "d")] (lit "hello")
             (lit "SEND" ++ NL :: lit "desti")
             (lit "nation:d" ++ NL :: NL :: lit "hello" ++ [NUL]));
      [exact Hc | by vm_compute | exact Hhs | exact Hnd | wire_check..].
  - apply (split_frame_is_not_decoded
             (lit "SEND") [(lit "destination", lit "d")] (lit "hello")
             (lit "SEND" ++ NL :: lit "desti")
             (lit "nation:d" ++ NL :: NL :: lit "hello" ++ [NUL]));
      [exact Hc | by vm_compute | exact Hhs | exact Hnd | wire_check..].
Defined.

(** * Why the conditions are there *)

(** Each condition of the round trip, dropped in turn: an empty command
    gives no frame; white space around the command is trimmed; a colon in
    a name moves the cut between name and value; a header named
    [__proto__] is not stored; a NUL in a value ends the frame early. *)
Lemma round_trip_conditions_are_needed :
  Native.parseFrames (Native.frameText [] [] (lit "x")) = []
  ∧ Native.parseFrames (Native.frameText (lit " SEND ") [] [])
    = [ {| command := lit "SEND"; headers := ∅; body := [] |} ]
  ∧ Native.parseFrames (Native.frameText (lit "SEND") [(lit "a:b", lit "c")] [])
    = [ {| command := lit "SEND"; headers := {[ lit "a" := lit "b:c" ]};
           body := [] |} ]
  ∧ Native.parseFrames
      (Native.frameText (lit "SEND") [(lit "__proto__", lit "c")] [])
    = [ {| command := lit "SEND"; headers := ∅; body := [] |} ]
  ∧ Native.parseFrames
      (Native.frameText (lit "SEND") [(lit "a", lit "x" ++ NUL :: lit "y")] [])
    = [ {| command := lit "SEND"; headers := {[ lit "a" := lit "x" ]};
           body := [] |};
        {| command := lit "y"; headers := ∅; body := [] |} ].
Proof. split_and!; by vm_compute. Qed.

(** Each condition on the frame that is cut, dropped in turn: with an
    empty body the cut after the command line leaves the whole frame in the
    first chunk's decoding; with white space in front of the command, or
    with two names that trim to the same, the second chunk decodes to the
    frame. *)
Lemma cut_conditions_are_needed :
  Native.parseFrames (lit "CMD" ++ [NL])
  = Native.parseFrames (Native.frameText (lit "CMD") [] [])
  ∧ Native.parseFrames (lit "SEND" ++ NL :: NL :: lit "x" ++ [NUL])
    = Native.parseFrames (Native.frameText (lit " SEND") [] (lit "x"))
  ∧ Native.parseFrames
      (lit "a:b" ++ NL :: lit " a:b" ++ NL :: NL :: lit "x" ++ [NUL])
    = Native.parseFrames
        (Native.frameText (lit "a:b") [(lit "a", lit "b"); (lit " a", lit "b")]
           (lit "x")).
Proof. split_and!; by vm_compute. Qed.

(** The SockJS binding stores an empty map for a connection as soon as it
    is registered, before any subscription: a key of the connection index
    without a subscription. *)
Lemma registerConnection_breaks_I3 :
  ¬ I3 (registry (SockJS.registerConnection 1 world0)).
Proof.
  intros H. destruct (proj1 (H 1)) as (s & d & m & H1 & H2).
  - by exists [].
  - vm_compute in H1. by simplify_eq.
Qed.

(** * Further properties of the registry *)

Section RegistryMore.
Implicit Types (r : Registry) (c : nat) (s d : jsstring).

Lemma Map_set_set {K V} `{!EqDecision K} (k : K) (v v' : V) m :
  Map_set k v (Map_set k v' m) = Map_set k v m.
Proof.
  induction m as [|[k0 v0] m IH]; simpl.
  - by rewrite decide_True.
  - case_decide; simpl; [by rewrite decide_True|].
    rewrite decide_False by done. by rewrite IH.
Qed.

Lemma Map_alter_alter {K V} `{!EqDecision K} (f g : V → V) (k : K) m :
  Map_alter f k (Map_alter g k m) = Map_alter (f ∘ g) k m.
Proof.
  induction m as [|[k0 v0] m IH]; simpl; [done|].
  case_decide; simpl; [by rewrite decide_True|].
  rewrite decide_False by done. by rewrite IH.
Qed.

Lemma Map_alter_ext {K V} `{!EqDecision K} (f g : V → V) (k : K) m :
  (∀ v, f v = g v) → Map_alter f k m = Map_alter g k m.
Proof.
  intros Hfg. induction m as [|[k0 v0] m IH]; simpl; [done|].
  case_decide; [by rewrite Hfg|]. by rewrite IH.
Qed.

Lemma Map_has_ensure_alter {K V} `{!EqDecision K} (f : V → V) (k : K)
    (v0 : V) m :
  Map_has k (Map_alter f k (if Map_has k m then m else Map_set k v0 m)) = true.
Proof.
  apply Map_has_true. rewrite get_ensure_alter, decide_True by done. eauto.
Qed.

Lemma Set_add_Set_add {K} `{!EqDecision K} (x : K) l :
  Set_add x (Set_add x l) = Set_add x l.
Proof.
  unfold Set_add at 1.
  assert (Set_has x (Set_add x l) = true) as ->; [|done].
  apply Set_has_true, elem_of_Set_add. by left.
Qed.

(** The step both indices take in [addSubscription]: create the entry when
    it is missing, then change it in place.  Taking it twice is taking it
    once when the change is idempotent. *)
Lemma ensure_alter_twice {K V} `{!EqDecision K} (f : V → V) (k : K)
    (v0 : V) m :
  (∀ v, f (f v) = f v) →
  let step m := Map_alter f k (if Map_has k m then m else Map_set k v0 m) in
  step (step m) = step m.
Proof.
  intros Hf step. unfold step at 1. fold (step m).
  unfold step at 1. rewrite Map_has_ensure_alter. unfold step.
  rewrite Map_alter_alter. by apply Map_alter_ext.
Qed.

Lemma removeSubscription_found r c s connSubs d :
  Map_get c (subscriptionsByConn r) = Some connSubs →
  Map_get s connSubs = Some d → d ≠ [] →
  Native.removeSubscription c s r
  = mkRegistry
      (if is_empty (Map_delete s connSubs)
       then Map_delete c (subscriptionsByConn r)
       else Map_set c (Map_delete s connSubs) (subscriptionsByConn r))
      (match Map_get d (subscribersByDestination r) with
       | None => subscribersByDestination r
       | Some ds =>
           match Map_get c ds with
           | None => subscribersByDestination r
           | Some subSet =>
               Native.pruneDestination d
                 (Native.dropFromDestination c s ds subSet)
                 (subscribersByDestination r)
           end
       end).
Proof.
  intros Hc Hs Hd. unfold Native.removeSubscription. rewrite Hc, Hs.
  destruct d; [done|]. simpl.
  destruct (Map_get _ (subscribersByDestination r)) as [ds|]; [|done].
  by destruct (Map_get c ds).
Qed.

Lemma removeSubscription_not_found r c s :
  (∀ d, conn_has r c s d → d = []) → Native.removeSubscription c s r = r.
Proof.
  intros Hnone. unfold Native.removeSubscription.
  destruct (Map_get c (subscriptionsByConn r)) as [connSubs|] eqn:Hc; [|done].
  destruct (Map_get s connSubs) as [d|] eqn:Hs; [|done].
  rewrite (Hnone d); [done|]. by exists connSubs.
Qed.

Lemma conn_has_remove_found r c s connSubs d c' s' d' :
  Map_get c (subscriptionsByConn r) = Some connSubs →
  Map_get s connSubs = Some d → d ≠ [] →
  conn_has (Native.removeSubscription c s r) c' s' d'
  ↔ conn_has r c' s' d' ∧ ¬ (c' = c ∧ s' = s).
Proof.
  intros Hc Hs Hd. rewrite (removeSubscription_found r c s connSubs d) by done.
  unfold conn_has; cbn [subscriptionsByConn].
  setoid_rewrite (get_remove_byConn r c s connSubs c' Hc). split.
  - intros (m & H1 & H2). case_decide as Ec.
    + subst c'. destruct (is_empty _) eqn:E in H1; [done|].
      simplify_eq. rewrite Map_get_delete in H2.
      case_decide as Es; [done|]. split; [by exists connSubs|tauto].
    + split; [by exists m|tauto].
  - intros [(m & H1 & H2) Hne]. case_decide as Ec.
    + subst c'. rewrite Hc in H1. simplify_eq.
      assert (s' ≠ s) as Es by (intros ->; tauto).
      assert (Map_get s' (Map_delete s m) = Some d') as G
          by by rewrite Map_get_delete, decide_False.
      exists (Map_delete s m).
      by rewrite (Map_get_Some_nonempty _ _ _ G).
    + by exists m.
Qed.

Lemma dest_has_remove_found r c s connSubs d d' c' s' :
  Map_get c (subscriptionsByConn r) = Some connSubs →
  Map_get s connSubs = Some d → d ≠ [] →
  dest_has (Native.removeSubscription c s r) d' c' s'
  ↔ dest_has r d' c' s' ∧ ¬ (d' = d ∧ c' = c ∧ s' = s).
Proof.
  intros Hc Hs Hd. rewrite (removeSubscription_found r c s connSubs d) by done.
  unfold dest_has; cbn [subscribersByDestination].
  destruct (Map_get d (subscribersByDestination r)) as [ds|] eqn:E1.
  - destruct (Map_get c ds) as [subSet|] eqn:E2.
    + by apply dest_lists_drop.
    + split; [|tauto]. intros H. split; [done|]. intros (-> & -> & ->).
      destruct H as (ds' & ss & H1 & H2 & _). congruence.
  - split; [|tauto]. intros H. split; [done|]. intros (-> & -> & ->).
    destruct H as (ds' & ss & H1 & _). congruence.
Qed.
End RegistryMore.

Section RegistryInvariantsMore.
Implicit Types (r : Registry) (c : nat) (s d : jsstring).

Lemma pruned_remove r c s : pruned r → pruned (Native.removeSubscription c s r).
Proof.
  intros (K1 & K2 & K3).
  destruct (Map_get c (subscriptionsByConn r)) as [connSubs|] eqn:Hc.
  2:{ rewrite removeSubscription_not_found; [done|].
      intros d (m & H1 & _). congruence. }
  destruct (Map_get s connSubs) as [d|] eqn:Hs.
  2:{ rewrite removeSubscription_not_found; [done|].
      intros d (m & H1 & H2). congruence. }
  destruct (decide (d = [])) as [->|Hd].
  { rewrite removeSubscription_not_found; [done|].
    intros d (m & H1 & H2). congruence. }
  rewrite (removeSubscription_found r c s connSubs d) by done.
  assert (∀ c' m, Map_get c'
            (if is_empty (Map_delete s connSubs)
             then Map_delete c (subscriptionsByConn r)
             else Map_set c (Map_delete s connSubs) (subscriptionsByConn r))
          = Some m → m ≠ []) as K1'.
  { intros c' m. rewrite (get_remove_byConn r c s connSubs c' Hc).
    case_decide; [|by apply K1].
    destruct (is_empty _) eqn:E; [done|]. intros ?; simplify_eq.
    by apply is_empty_false. }
  destruct (Map_get d (subscribersByDestination r)) as [ds|] eqn:E1;
    [|by split_and!].
  destruct (Map_get c ds) as [subSet|] eqn:E2; [|by split_and!].
  destruct (pruned_drop _ d c s ds subSet E1 E2 K2 K3) as [K2' K3'].
  by split_and!.
Qed.

Lemma pruned_cleanup r c : pruned r → pruned (Native.cleanupConnection c r).
Proof.
  intros (K1 & K2 & K3). unfold Native.cleanupConnection.
  destruct (Map_get c (subscriptionsByConn r)) as [connSubs|] eqn:Hc;
    [|by split_and!].
  destruct (pruned_cleanup_loop c connSubs _ K2 K3) as [K2' K3'].
  split_and!; cbn [subscriptionsByConn subscribersByDestination];
    [|done|done].
  intros c' m. rewrite Map_get_delete. case_decide; [done|]. apply K1.
Qed.

Lemma conn_has_cleanup r c c' s d :
  conn_has (Native.cleanupConnection c r) c' s d
  ↔ conn_has r c' s d ∧ c' ≠ c.
Proof.
  unfold Native.cleanupConnection, conn_has.
  destruct (Map_get c (subscriptionsByConn r)) as [connSubs|] eqn:Hc.
  - cbn [subscriptionsByConn]. setoid_rewrite Map_get_delete. split.
    + intros (m & H1 & H2). case_decide; [done|]. split; [by exists m|done].
    + intros [(m & H1 & H2) Hne]. exists m. by rewrite decide_False.
  - split; [|tauto]. intros (m & H1 & H2). split; [by exists m|].
    intros ->. congruence.
Qed.

Lemma dest_has_cleanup_other r c c' s d :
  c' ≠ c →
  dest_has (Native.cleanupConnection c r) d c' s ↔ dest_has r d c' s.
Proof.
  intros Hne. unfold Native.cleanupConnection, dest_has.
  destruct (Map_get c (subscriptionsByConn r)) as [connSubs|]; [|done].
  cbn [subscribersByDestination]. rewrite dest_lists_cleanup_loop. tauto.
Qed.

Lemma backed_add r c s d : backed r → backed (Native.addSubscription c s d r).
Proof.
  intros Hb c' s' d'. rewrite conn_has_add, dest_has_add.
  intros [?|[_ H]]; [left; tauto|right; by apply Hb].
Qed.

Lemma backed_remove r c s :
  backed r → backed (Native.removeSubscription c s r).
Proof.
  intros Hb.
  destruct (Map_get c (subscriptionsByConn r)) as [connSubs|] eqn:Hc.
  2:{ rewrite removeSubscription_not_found; [done|].
      intros d (m & H1 & _). congruence. }
  destruct (Map_get s connSubs) as [d|] eqn:Hs.
  2:{ rewrite removeSubscription_not_found; [done|].
      intros d (m & H1 & H2). congruence. }
  destruct (decide (d = [])) as [->|Hd].
  { rewrite removeSubscription_not_found; [done|].
    intros d (m & H1 & H2). congruence. }
  intros c' s' d'.
  rewrite (conn_has_remove_found r c s connSubs d) by done.
  rewrite (dest_has_remove_found r c s connSubs d) by done.
  intros [H Hne]. split; [by apply Hb|tauto].
Qed.

Lemma backed_cleanup r c :
  backed r → backed (Native.cleanupConnection c r).
Proof.
  intros Hb c' s d. rewrite conn_has_cleanup. intros [H Hne].
  rewrite dest_has_cleanup_other by done. by apply Hb.
Qed.

Lemma backed_pruned_call r op :
  backed r ∧ pruned r → backed (call r op) ∧ pruned (call r op).
Proof.
  intros [Hb Hp]. destruct op as [c s d|c s|c]; simpl.
  - split; [by apply backed_add | by apply pruned_add].
  - split; [by apply backed_remove | by apply pruned_remove].
  - split; [by apply backed_cleanup | by apply pruned_cleanup].
Qed.
End RegistryInvariantsMore.

(** X1: subscribing again with the same id and the same destination changes
    nothing: [addSubscription] applied twice gives what one application
    gives, in both indices and in their order. *)
Theorem addSubscription_twice (r : Registry) (c : nat) (s d : jsstring) :
  Native.addSubscription c s d (Native.addSubscription c s d r)
  = Native.addSubscription c s d r.
Proof.
  unfold Native.addSubscription, Native.ensureDestinationEntry.
  cbn [subscriptionsByConn subscribersByDestination]. f_equal.
  - apply (ensure_alter_twice (Map_set s d) c []).
    intros m. apply Map_set_set.
  - apply (ensure_alter_twice
             (λ ds, Map_alter (Set_add s) c
                      (if Map_has c ds then ds else Map_set c [] ds)) d []).
    intros ds. apply (ensure_alter_twice (Set_add s) c []).
    intros l. apply Set_add_Set_add.
Qed.

(** X2: when the connection holds the id [s] for a non-empty destination
    [d], [removeSubscription] takes [(c, s)] out of the connection index and
    [(d, c, s)] out of the destination index, and nothing else: every other
    pair and every other triple is there after the call iff it was there
    before. *)
Theorem removeSubscription_removes_exactly (r : Registry) (c : nat)
    (s d : jsstring) :
  conn_has r c s d → d ≠ [] →
  ∀ c' s' d',
    (conn_has (Native.removeSubscription c s r) c' s' d'
     ↔ conn_has r c' s' d' ∧ ¬ (c' = c ∧ s' = s))
    ∧ (dest_has (Native.removeSubscription c s r) d' c' s'
       ↔ dest_has r d' c' s' ∧ ¬ (d' = d ∧ c' = c ∧ s' = s)).
Proof.
  intros (connSubs & Hc & Hs) Hd c' s' d'. split.
  - by apply (conn_has_remove_found r c s connSubs d).
  - by apply (dest_has_remove_found r c s connSubs d).
Qed.

Lemma removeSubscription_removes_exactly_witness :
  conn_has two_subscriptions 1 (lit "a") (lit "d1") ∧ lit "d1" ≠ []
  ∧ ¬ conn_has (Native.removeSubscription 1 (lit "a") two_subscriptions)
        1 (lit "a") (lit "d1")
  ∧ conn_has (Native.removeSubscription 1 (lit "a") two_subscriptions)
      1 (lit "b") (lit "d2").
Proof.
  assert (conn_has two_subscriptions 1 (lit "a") (lit "d1")) as Ha.
  { exists [(lit "a", lit "d1"); (lit "b", lit "d2")]. by split. }
  assert (conn_has two_subscriptions 1 (lit "b") (lit "d2")) as Hb.
  { exists [(lit "a", lit "d1"); (lit "b", lit "d2")]. by split. }
  assert (lit "d1" ≠ []) as Hd by done.
  split_and!; [exact Ha | exact Hd | |].
  - intros H.
    apply (removeSubscription_removes_exactly _ _ _ _ Ha Hd 1 (lit "a")
             (lit "d1")) in H.
    tauto.
  - apply (removeSubscription_removes_exactly _ _ _ _ Ha Hd 1 (lit "b")
             (lit "d2")).
    split; [exact Hb|]. intros [_ H]. vm_compute in H. discriminate.
Defined.

(** X3: after any sequence of [addSubscription], [removeSubscription] and
    [cleanupConnection] calls from the empty indices, whatever the ids and
    destinations: every subscription of the connection index is listed in
    the destination index, I2 and I3 hold, and keys and members are
    unique. *)
Theorem calls_keep_subscribers_listed (ops : list RegistryCall) :
  backed (calls ops) ∧ I2 (calls ops) ∧ I3 (calls ops)
  ∧ Registry_wf (calls ops).
Proof.
  assert (backed (calls ops) ∧ pruned (calls ops)) as [Hb Hp].
  { unfold calls. induction ops as [|op ops IH] using rev_ind.
    - split; [|by split_and!]. by intros c s d (m & H & _).
    - rewrite foldl_app. simpl. by apply backed_pruned_call. }
  split_and!; [done | by apply pruned_I2 | by apply pruned_I3
              | apply Registry_wf_calls].
Qed.

(** X4: run from the empty indices, a sequence of calls in which no
    [addSubscription] gives an id in use a different destination keeps
    I1, I2 and I3. *)
Theorem calls_keep_invariants (ops : list RegistryCall) :
  keep_destinations emptyRegistry ops →
  I1 (calls ops) ∧ I2 (calls ops) ∧ I3 (calls ops).
Proof.
  unfold calls. intros Hk.
  assert (∀ r, consistent r → keep_destinations r ops →
               consistent (foldl call r ops)) as Hall.
  { clear Hk. induction ops as [|op ops IH]; intros r Hr Hk; [done|].
    destruct Hk as [Hop Hk]. cbn [foldl]. apply IH; [|done].
    by apply consistent_call. }
  destruct (Hall emptyRegistry consistent_empty Hk) as [HI1 Hp].
  split_and!; [done | by apply pruned_I2 | by apply pruned_I3].
Qed.

Lemma calls_keep_invariants_witness :
  keep_destinations emptyRegistry sample_calls
  ∧ I1 (calls sample_calls) ∧ I2 (calls sample_calls)
  ∧ I3 (calls sample_calls)
  ∧ calls sample_calls = mkRegistry [(1, [(lit "a", lit "d2")])]
                           [(lit "d2", [(1, [lit "a"])])].
Proof.
  assert (keep_destinations emptyRegistry sample_calls) as Hk.
  { repeat split; intros d0 (m & H1 & H2); vm_compute in H1; simplify_eq;
      vm_compute in H2; discriminate. }
  destruct (calls_keep_invariants sample_calls Hk) as (H1 & H2 & H3).
  by split_and!.
Defined.

(** * Dispatch, command by command *)

Section DispatchMore.
Variable randomUUID : nat → jsstring.
Implicit Types (w : World) (frame : Frame) (ws c : nat) (s d : jsstring).

Lemma falsy_Some_false (v : jsstring) : v ≠ [] → falsy (Some v) = false.
Proof. by destruct v. Qed.

Lemma handleFrame_CONNECT ws frame w :
  command frame = lit "CONNECT" ∨ command frame = lit "STOMP" →
  Native.handleFrame randomUUID ws frame w
  = Native.sendFrame ws (lit "CONNECTED") [(lit "version", lit "1.2")] [] w.
Proof.
  intros [Hcmd|Hcmd]; unfold Native.handleFrame; by rewrite Hcmd.
Qed.

Lemma handleFrame_SUBSCRIBE ws frame w s d :
  command frame = lit "SUBSCRIBE" →
  header "id" (headers frame) = Some s → s ≠ [] →
  header "destination" (headers frame) = Some d → d ≠ [] →
  Native.handleFrame randomUUID ws frame w
  = set_registry (Native.addSubscription ws s d (registry w)) w.
Proof.
  intros Hcmd Hid Hs Hdest Hd. unfold Native.handleFrame.
  rewrite Hcmd, Hid, Hdest, !falsy_Some_false by done. done.
Qed.

Lemma handleFrame_UNSUBSCRIBE ws frame w s :
  command frame = lit "UNSUBSCRIBE" →
  header "id" (headers frame) = Some s → s ≠ [] →
  Native.handleFrame randomUUID ws frame w
  = set_registry (Native.removeSubscription ws s (registry w)) w.
Proof.
  intros Hcmd Hid Hs. unfold Native.handleFrame.
  rewrite Hcmd, Hid, falsy_Some_false by done. done.
Qed.

Lemma handleFrame_SEND ws frame w d :
  command frame = lit "SEND" →
  header "destination" (headers frame) = Some d → d ≠ [] →
  Native.handleFrame randomUUID ws frame w
  = Native.broadcast randomUUID d (body frame) w.
Proof.
  intros Hcmd Hdest Hd. unfold Native.handleFrame.
  rewrite Hcmd, Hdest, falsy_Some_false by done. done.
Qed.

Lemma handleFrame_DISCONNECT ws frame w :
  command frame = lit "DISCONNECT" →
  Native.handleFrame randomUUID ws frame w
  = transport_close ws
      (set_registry (Native.cleanupConnection ws (registry w)) w).
Proof. intros Hcmd. unfold Native.handleFrame. by rewrite Hcmd. Qed.

(** What [handleFrame] does to the registry, whatever the frame. *)
Lemma handleFrame_registry_cases ws frame w :
  registry (Native.handleFrame randomUUID ws frame w) = registry w
  ∨ (∃ s d, s ≠ [] ∧ d ≠ []
            ∧ registry (Native.handleFrame randomUUID ws frame w)
              = Native.addSubscription ws s d (registry w))
  ∨ (∃ s, registry (Native.handleFrame randomUUID ws frame w)
          = Native.removeSubscription ws s (registry w))
  ∨ registry (Native.handleFrame randomUUID ws frame w)
    = Native.cleanupConnection ws (registry w).
Proof.
  unfold Native.handleFrame.
  destruct (_ || _) eqn:E1.
  { left. unfold Native.sendFrame. by destruct (is_open _). }
  destruct (bool_decide (command frame = lit "SUBSCRIBE")).
  { destruct (header "id" (headers frame)) as [s|] eqn:Hid; simpl.
    2:{ left. unfold Native.sendFrame. by destruct (is_open _). }
    destruct (header "destination" (headers frame)) as [d|] eqn:Hd; simpl.
    2:{ rewrite orb_true_r. left. unfold Native.sendFrame.
        by destruct (is_open _). }
    destruct s as [|x s]; simpl.
    { left. unfold Native.sendFrame. by destruct (is_open _). }
    destruct d as [|y d]; simpl.
    { left. unfold Native.sendFrame. by destruct (is_open _). }
    right. left. by exists (x :: s), (y :: d). }
  destruct (bool_decide (command frame = lit "UNSUBSCRIBE")).
  { destruct (falsy _); [by left|]. right. right. left. eauto. }
  destruct (bool_decide (command frame = lit "SEND")).
  { destruct (falsy _); [by left|]. left.
    apply Native_broadcast_registry. }
  destruct (bool_decide (command frame = lit "DISCONNECT")); [|by left].
  by right; right; right.
Qed.

Lemma conn_has_remove_other r c s c' s' d' :
  c' ≠ c →
  conn_has (Native.removeSubscription c s r) c' s' d' ↔ conn_has r c' s' d'.
Proof.
  intros Hne.
  destruct (Map_get c (subscriptionsByConn r)) as [connSubs|] eqn:Hc.
  2:{ rewrite removeSubscription_not_found; [done|].
      intros d (m & H1 & _). congruence. }
  destruct (Map_get s connSubs) as [d|] eqn:Hs.
  2:{ rewrite removeSubscription_not_found; [done|].
      intros d (m & H1 & H2). congruence. }
  destruct (decide (d = [])) as [->|Hd].
  { rewrite removeSubscription_not_found; [done|].
    intros d (m & H1 & H2). congruence. }
  rewrite (conn_has_remove_found r c s connSubs d) by done. tauto.
Qed.

Lemma dest_has_remove_other r c s d' c' s' :
  c' ≠ c →
  dest_has (Native.removeSubscription c s r) d' c' s' ↔ dest_has r d' c' s'.
Proof.
  intros Hne.
  destruct (Map_get c (subscriptionsByConn r)) as [connSubs|] eqn:Hc.
  2:{ rewrite removeSubscription_not_found; [done|].
      intros d (m & H1 & _). congruence. }
  destruct (Map_get s connSubs) as [d|] eqn:Hs.
  2:{ rewrite removeSubscription_not_found; [done|].
      intros d (m & H1 & H2). congruence. }
  destruct (decide (d = [])) as [->|Hd].
  { rewrite removeSubscription_not_found; [done|].
    intros d (m & H1 & H2). congruence. }
  rewrite (dest_has_remove_found r c s connSubs d) by done. tauto.
Qed.

(** One frame handled on [ws] leaves the subscriptions of every other
    connection as they were. *)
Lemma handleFrame_others ws frame w c' s d :
  c' ≠ ws →
  (conn_has (registry (Native.handleFrame randomUUID ws frame w)) c' s d
   ↔ conn_has (registry w) c' s d)
  ∧ (dest_has (registry (Native.handleFrame randomUUID ws frame w)) d c' s
     ↔ dest_has (registry w) d c' s).
Proof.
  intros Hne.
  destruct (handleFrame_registry_cases ws frame w)
    as [->|[(s0 & d0 & _ & _ & ->)|[(s0 & ->)| ->]]].
  - done.
  - rewrite conn_has_add, dest_has_add. tauto.
  - by rewrite conn_has_remove_other, dest_has_remove_other.
  - rewrite conn_has_cleanup, dest_has_cleanup_other by done. tauto.
Qed.
End DispatchMore.

Section Deliveries.
Variable randomUUID : nat → jsstring.
Implicit Types (w : World) (frame : Frame) (ws c : nat) (s d : jsstring).

Lemma frames_others ws (frames : list Frame) : ∀ w c' s d,
  c' ≠ ws →
  (conn_has (registry (foldl (λ w frame, Native.handleFrame randomUUID ws
                                           frame w) w frames)) c' s d
   ↔ conn_has (registry w) c' s d)
  ∧ (dest_has (registry (foldl (λ w frame, Native.handleFrame randomUUID ws
                                             frame w) w frames)) d c' s
     ↔ dest_has (registry w) d c' s).
Proof.
  induction frames as [|f frames IH]; intros w c' s d Hne; [done|].
  cbn [foldl].
  destruct (IH (Native.handleFrame randomUUID ws f w) c' s d Hne) as [-> ->].
  by apply handleFrame_others.
Qed.

Lemma messageFrames_targets d body pairs : ∀ n c t,
  (c, t) ∈ messageFrames randomUUID d body n pairs → ∃ s, (c, s) ∈ pairs.
Proof.
  intros n c t [i Hi]%list_elem_of_lookup.
  rewrite messageFrames_lookup in Hi.
  destruct (pairs !! i) as [[c' s]|] eqn:E; [|done].
  simpl in Hi. unfold messageFrame in Hi. simplify_eq/=.
  exists s. by eapply list_elem_of_lookup_2.
Qed.

Lemma messageFrames_elem d body pairs n p :
  p ∈ pairs → ∃ i, messageFrame randomUUID d body (n + i) p
                   ∈ messageFrames randomUUID d body n pairs.
Proof.
  intros [i Hi]%list_elem_of_lookup. exists i.
  apply list_elem_of_lookup. exists i.
  by rewrite messageFrames_lookup, Hi.
Qed.

Lemma sendFrame_writes ws cmd hs bdy w :
  ∃ written,
    outbox (Native.sendFrame ws cmd hs bdy w) = outbox w ++ written
    ∧ (∀ c t, (c, t) ∈ written → readyState w c = OPEN)
    ∧ readyState (Native.sendFrame ws cmd hs bdy w) = readyState w.
Proof.
  unfold Native.sendFrame. destruct (readyState w ws) eqn:E; simpl;
    try (exists []; rewrite app_nil_r; split_and!; [done| |done];
         by intros c t H%elem_of_nil).
  eexists. split_and!; [done| |done].
  intros c t H%list_elem_of_singleton. by simplify_eq.
Qed.

(** One frame handled: what is written goes to connections that are open,
    and no transport becomes open. *)
Lemma handleFrame_writes ws frame w :
  ∃ written,
    outbox (Native.handleFrame randomUUID ws frame w) = outbox w ++ written
    ∧ (∀ c t, (c, t) ∈ written → readyState w c = OPEN)
    ∧ (∀ c, readyState (Native.handleFrame randomUUID ws frame w) c = OPEN
            → readyState w c = OPEN).
Proof.
  assert (∀ w', outbox w' = outbox w → readyState w' = readyState w →
            ∃ written, outbox w' = outbox w ++ written
              ∧ (∀ c t, (c, t) ∈ written → readyState w c = OPEN)
              ∧ (∀ c, readyState w' c = OPEN → readyState w c = OPEN))
    as Hsame.
  { intros w' Ho Hr. exists []. rewrite app_nil_r, Hr.
    split_and!; [done| |done]. by intros c t H%elem_of_nil. }
  assert (∀ cmd hs bdy,
            ∃ written,
              outbox (Native.sendFrame ws cmd hs bdy w) = outbox w ++ written
              ∧ (∀ c t, (c, t) ∈ written → readyState w c = OPEN)
              ∧ (∀ c, readyState (Native.sendFrame ws cmd hs bdy w) c = OPEN
                      → readyState w c = OPEN)) as Hsend.
  { intros cmd hs bdy.
    destruct (sendFrame_writes ws cmd hs bdy w) as (wr & H1 & H2 & H3).
    exists wr. rewrite H3. by split_and!. }
  unfold Native.handleFrame.
  destruct (_ || _); [apply Hsend|].
  destruct (bool_decide (command frame = lit "SUBSCRIBE")).
  { destruct (_ || _); [apply Hsend|]. by apply Hsame. }
  destruct (bool_decide (command frame = lit "UNSUBSCRIBE")).
  { destruct (falsy _); by apply Hsame. }
  destruct (bool_decide (command frame = lit "SEND")).
  { destruct (falsy _); [by apply Hsame|].
    rewrite Native_broadcast_eq.
    destruct (Map_get _ _) as [ds|]; [|by apply Hsame].
    eexists. split_and!; [done| |done].
    intros c t (s & Hin)%messageFrames_targets.
    apply elem_of_open_pairs in Hin as (ss & _ & _ & Ho).
    by destruct (readyState w c). }
  destruct (bool_decide (command frame = lit "DISCONNECT"));
    [|by apply Hsame].
  exists []. rewrite app_nil_r. split_and!; [done| |].
  - by intros c t H%elem_of_nil.
  - intros c. simpl. case_decide; [|done]. subst.
    by destruct (readyState w ws).
Qed.

Lemma native_step_writes w e :
  ∃ written,
    outbox (native_step randomUUID w e) = outbox w ++ written
    ∧ (∀ c t, (c, t) ∈ written → readyState w c = OPEN)
    ∧ (∀ c, readyState (native_step randomUUID w e) c = OPEN
            → readyState w c = OPEN).
Proof.
  destruct e as [ws message|ws]; simpl.
  - unfold Native.onMessage.
    generalize (Native.parseFrames message) as frames. intros frames.
    revert w. induction frames as [|f frames IH]; intros w.
    + exists []. rewrite app_nil_r. split_and!; [done| |done].
      by intros c t H%elem_of_nil.
    + cbn [foldl].
      destruct (handleFrame_writes ws f w) as (wr1 & H1 & H2 & H3).
      destruct (IH (Native.handleFrame randomUUID ws f w))
        as (wr2 & G1 & G2 & G3).
      exists (wr1 ++ wr2). rewrite G1, H1, app_assoc.
      split_and!; [done| |by auto].
      intros c t [Hin|Hin]%elem_of_app; [by eapply H2|].
      apply H3. by eapply G2.
  - exists []. rewrite app_nil_r. split_and!; [done| |].
    + by intros c t H%elem_of_nil.
    + intros c. simpl. by case_decide.
Qed.
End Deliveries.

(** X5: a delivery or a close event on one connection leaves the
    subscriptions of every other connection as they were, in both indices,
    whatever the bytes delivered. *)
Theorem event_leaves_other_connections (randomUUID : nat → jsstring)
    (w : World) (e : NativeEvent) (c' : nat) (s d : jsstring) :
  c' ≠ event_connection e →
  (conn_has (registry (native_step randomUUID w e)) c' s d
   ↔ conn_has (registry w) c' s d)
  ∧ (dest_has (registry (native_step randomUUID w e)) d c' s
     ↔ dest_has (registry w) d c' s).
Proof.
  destruct e as [ws message|ws]; simpl; intros Hne.
  - by apply frames_others.
  - rewrite conn_has_cleanup, dest_has_cleanup_other by done. tauto.
Qed.

Lemma event_leaves_other_connections_witness :
  2 ≠ event_connection
        (Delivered 1 (lit "DISCONNECT" ++ [NL; NL; NUL]))
  ∧ (dest_has (registry (native_step sampleUUID room_world
                           (Delivered 1 (lit "DISCONNECT" ++ [NL; NL; NUL]))))
       (lit "room/1") 2 (lit "s2")
     ↔ dest_has (registry room_world) (lit "room/1") 2 (lit "s2")).
Proof.
  split; [done|].
  apply (event_leaves_other_connections sampleUUID room_world
           (Delivered 1 (lit "DISCONNECT" ++ [NL; NL; NUL])) 2 (lit "s2")
           (lit "room/1")).
  done.
Defined.

(** X6: over any run of deliveries and close events, the native binding
    writes only to connections whose transport is open: every frame added
    to the outbound log goes to a connection that was open when the run
    began (a transport never becomes open again), so a connection that is
    not open gets nothing from then on. *)
Theorem native_writes_only_to_open (randomUUID : nat → jsstring)
    (events : list NativeEvent) (w : World) :
  ∃ written,
    outbox (native_run randomUUID w events) = outbox w ++ written
    ∧ ∀ c t, (c, t) ∈ written → readyState w c = OPEN.
Proof.
  unfold native_run.
  assert (∃ written,
            outbox (foldl (native_step randomUUID) w events)
            = outbox w ++ written
            ∧ (∀ c t, (c, t) ∈ written → readyState w c = OPEN)
            ∧ (∀ c, readyState (foldl (native_step randomUUID) w events) c
                    = OPEN → readyState w c = OPEN))
    as (wr & H1 & H2 & _); [|by exists wr].
  revert w. induction events as [|e events IH]; intros w.
  - exists []. rewrite app_nil_r. split_and!; [done| |done].
    by intros c t H%elem_of_nil.
  - cbn [foldl].
    destruct (native_step_writes randomUUID w e) as (wr1 & H1 & H2 & H3).
    destruct (IH (native_step randomUUID w e)) as (wr2 & G1 & G2 & G3).
    exists (wr1 ++ wr2). rewrite G1, H1, app_assoc.
    split_and!; [done| |by auto].
    intros c t [Hin|Hin]%elem_of_app; [by eapply H2|].
    apply H3. by eapply G2.
Qed.

(** X7: a [SUBSCRIBE] with non-empty [id] and [destination] on an open
    connection is silent, and from then on a [SEND] to that destination,
    from any connection, writes a [MESSAGE] frame to the subscriber with
    its subscription id and the body sent. *)
Theorem subscribe_then_send (randomUUID : nat → jsstring) (w : World)
    (c c2 : nat) (f1 f2 : Frame) (s d : jsstring) :
  command f1 = lit "SUBSCRIBE" →
  header "id" (headers f1) = Some s → s ≠ [] →
  header "destination" (headers f1) = Some d → d ≠ [] →
  command f2 = lit "SEND" → header "destination" (headers f2) = Some d →
  readyState w c = OPEN →
  let w1 := Native.handleFrame randomUUID c f1 w in
  let w2 := Native.handleFrame randomUUID c2 f2 w1 in
  outbox w1 = outbox w
  ∧ ∃ written n,
      outbox w2 = outbox w ++ written
      ∧ messageFrame randomUUID d (body f2) n (c, s) ∈ written.
Proof.
  intros Hc1 Hid Hs Hd1 Hd Hc2 Hd2 Hopen w1 w2. subst w1 w2.
  rewrite (handleFrame_SUBSCRIBE randomUUID c f1 w s d) by done.
  split; [done|].
  rewrite (handleFrame_SEND randomUUID c2 f2 _ d) by done.
  rewrite Native_broadcast_eq. cbn [registry set_registry].
  assert (dest_has (Native.addSubscription c s d (registry w)) d c s)
    as (ds & ss & H1 & H2 & H3).
  { apply dest_has_add. by left. }
  rewrite H1. cbn [outbox readyState uuidCalls].
  destruct (messageFrames_elem randomUUID d (body f2)
              (open_pairs (readyState w) ds) (uuidCalls w) (c, s))
    as [i Hi].
  { apply elem_of_open_pairs. exists ss.
    split_and!; [by apply Map_get_elem | done | by rewrite Hopen]. }
  eauto.
Qed.

Lemma subscribe_then_send_witness :
  let w1 := Native.handleFrame sampleUUID 1
              (subscribeFrame (lit "1") (lit "news")) world0 in
  let w2 := Native.handleFrame sampleUUID 2
              (sendFrameTo (lit "news") (lit "Hello")) w1 in
  outbox w1 = []
  ∧ outbox w2
    = [(1, lit "MESSAGE" ++ NL :: lit "subscription:1" ++ NL
           :: lit "destination:news" ++ NL :: lit "message-id:id-"
           ++ NL :: NL :: lit "Hello" ++ [NUL])]
  ∧ ∃ written n,
      outbox w2 = outbox world0 ++ written
      ∧ messageFrame sampleUUID (lit "news") (lit "Hello") n (1, lit "1")
        ∈ written.
Proof.
  cbv zeta.
  pose proof (subscribe_then_send sampleUUID world0 1 2
                (subscribeFrame (lit "1") (lit "news"))
                (sendFrameTo (lit "news") (lit "Hello"))
                (lit "1") (lit "news")) as H.
  cbv zeta in H.
  split_and!; [reflexivity | reflexivity |].
  apply H; done.
Defined.

(** X8: when the connection holds the id [s] for the non-empty destination
    [d], an [UNSUBSCRIBE] with that id is silent, leaves the connection
    without the id, and a [SEND] to [d] that follows writes no frame for
    the pair [(c, s)]. *)
Theorem unsubscribe_then_send (randomUUID : nat → jsstring) (w : World)
    (c c2 : nat) (f1 f2 : Frame) (s d : jsstring) :
  Registry_wf (registry w) →
  conn_has (registry w) c s d → d ≠ [] →
  command f1 = lit "UNSUBSCRIBE" →
  header "id" (headers f1) = Some s → s ≠ [] →
  command f2 = lit "SEND" → header "destination" (headers f2) = Some d →
  let w1 := Native.handleFrame randomUUID c f1 w in
  let w2 := Native.handleFrame randomUUID c2 f2 w1 in
  outbox w1 = outbox w
  ∧ (∀ d', ¬ conn_has (registry w1) c s d')
  ∧ ∃ pairs,
      outbox w2
      = outbox w ++ messageFrames randomUUID d (body f2) (uuidCalls w) pairs
      ∧ (c, s) ∉ pairs.
Proof.
  intros Hwf Hheld Hd Hc1 Hid Hs Hc2 Hd2 w1 w2. subst w1 w2.
  rewrite (handleFrame_UNSUBSCRIBE randomUUID c f1 w s) by done.
  destruct Hheld as (connSubs & Hc & Hcs).
  split_and!; [done| |].
  - intros d'. cbn [registry set_registry].
    rewrite (conn_has_remove_found _ c s connSubs d) by done. tauto.
  - rewrite (handleFrame_SEND randomUUID c2 f2 _ d) by done.
    rewrite Native_broadcast_eq. cbn [registry set_registry].
    pose proof (Registry_wf_remove _ c s Hwf) as [_ [_ Hde]].
    assert (¬ dest_has (Native.removeSubscription c s (registry w)) d c s)
      as Hgone.
    { rewrite (dest_has_remove_found _ c s connSubs d) by done. tauto. }
    destruct (Map_get d _) as [ds|] eqn:E.
    + exists (open_pairs (readyState w) ds). split; [done|].
      intros (ss & H1 & H2 & _)%elem_of_open_pairs. apply Hgone.
      exists ds, ss. split_and!; [done| |done].
      apply Map_elem_get; [|done].
      by apply (Hde d ds), Map_get_elem.
    + exists []. simpl. rewrite app_nil_r. split; [done|].
      apply not_elem_of_nil.
Qed.

Lemma unsubscribe_then_send_witness :
  let w1 := Native.handleFrame sampleUUID 1 (unsubscribeFrame (lit "s1"))
              room_world in
  let w2 := Native.handleFrame sampleUUID 2
              (sendFrameTo (lit "room/1") (lit "hi")) w1 in
  Registry_wf (registry room_world)
  ∧ conn_has (registry room_world) 1 (lit "s1") (lit "room/1")
  ∧ outbox w2
    = messageFrames sampleUUID (lit "room/1") (lit "hi") 0
        [(1, lit "s3"); (2, lit "s2")]
  ∧ ∃ pairs,
      outbox w2
      = outbox room_world
        ++ messageFrames sampleUUID (lit "room/1") (lit "hi")
             (uuidCalls room_world) pairs
      ∧ (1, lit "s1") ∉ pairs.
Proof.
  cbv zeta.
  assert (conn_has (registry room_world) 1 (lit "s1") (lit "room/1")) as Hh.
  { eexists. split; reflexivity. }
  split_and!; [apply Registry_wf_calls | exact Hh | reflexivity |].
  apply (unsubscribe_then_send sampleUUID room_world 1 2
           (unsubscribeFrame (lit "s1"))
           (sendFrameTo (lit "room/1") (lit "hi")) (lit "s1") (lit "room/1"));
    [apply Registry_wf_calls | exact Hh | done..].
Defined.

(** X9: a [DISCONNECT] frame: nothing is written, the connection is left
    without an entry in the connection index, its transport is no longer
    open, no other transport changes, and the close event that follows
    finds nothing to clean: registry and outbound log stay as [DISCONNECT]
    left them. *)
Theorem disconnect_then_close (randomUUID : nat → jsstring) (w : World)
    (ws : nat) (frame : Frame) :
  command frame = lit "DISCONNECT" →
  let w1 := Native.handleFrame randomUUID ws frame w in
  outbox w1 = outbox w
  ∧ Map_get ws (subscriptionsByConn (registry w1)) = None
  ∧ readyState w1 ws ≠ OPEN
  ∧ (∀ c, c ≠ ws → readyState w1 c = readyState w c)
  ∧ registry (Native.onClose ws w1) = registry w1
  ∧ outbox (Native.onClose ws w1) = outbox w.
Proof.
  intros Hcmd w1. subst w1.
  rewrite (handleFrame_DISCONNECT randomUUID ws frame w) by done.
  assert (Map_get ws (subscriptionsByConn
                        (Native.cleanupConnection ws (registry w))) = None)
    as Hgone.
  { unfold Native.cleanupConnection.
    destruct (Map_get ws (subscriptionsByConn (registry w))) eqn:E; [|done].
    simpl. by rewrite Map_get_delete, decide_True. }
  split_and!; simpl.
  - done.
  - done.
  - rewrite decide_True by done. by destruct (readyState w ws).
  - intros c Hne. by rewrite decide_False.
  - apply cleanupConnection_twice.
  - done.
Qed.

Lemma disconnect_then_close_witness :
  command disconnectFrame = lit "DISCONNECT"
  ∧ registry (Native.handleFrame sampleUUID 1 disconnectFrame room_world)
    = mkRegistry [(2, [(lit "s2", lit "room/1")])]
                 [(lit "room/1", [(2, [lit "s2"])])]
  ∧ registry (Native.onClose 1
                (Native.handleFrame sampleUUID 1 disconnectFrame room_world))
    = registry (Native.handleFrame sampleUUID 1 disconnectFrame room_world).
Proof.
  split_and!; [reflexivity | reflexivity |].
  apply (disconnect_then_close sampleUUID room_world 1 disconnectFrame).
  reflexivity.
Defined.

(** X10: a [CONNECT] or [STOMP] frame on an open connection, whatever its
    headers and body: exactly one frame is written, to that connection,
    [CONNECTED] with the header [version:1.2] and an empty body; indices
    and transports stay as they were.  The SockJS handler does the same. *)
Theorem connect_is_answered (randomUUID : nat → jsstring) (ws : nat)
    (frame : Frame) (w : World) :
  command frame = lit "CONNECT" ∨ command frame = lit "STOMP" →
  readyState w ws = OPEN →
  let w' := Native.handleFrame randomUUID ws frame w in
  outbox w' = outbox w ++ [(ws, connectedFrame)]
  ∧ Native.parseFrames connectedFrame
    = [ {| command := lit "CONNECTED";
           headers := {[ lit "version" := lit "1.2" ]}; body := [] |} ]
  ∧ registry w' = registry w
  ∧ readyState w' = readyState w
  ∧ SockJS.handleFrame randomUUID ws frame w = w'.
Proof.
  intros Hcmd Hopen w'. subst w'.
  rewrite (handleFrame_CONNECT randomUUID ws frame w Hcmd).
  rewrite Native_sendFrame_open by done.
  split_and!; try reflexivity.
  unfold SockJS.handleFrame. by destruct Hcmd as [-> | ->].
Qed.

Lemma connect_is_answered_witness :
  Native.parseFrames (lit "STOMP" ++ NL :: lit "accept-version:1.2"
                      ++ [NL; NL; NUL])
  = [ {| command := lit "STOMP";
         headers := {[ lit "accept-version" := lit "1.2" ]}; body := [] |} ]
  ∧ readyState world0 1 = OPEN
  ∧ outbox (Native.handleFrame sampleUUID 1
              {| command := lit "STOMP";
                 headers := {[ lit "accept-version" := lit "1.2" ]};
                 body := [] |} world0)
    = outbox world0 ++ [(1, connectedFrame)].
Proof.
  split_and!; [by vm_compute | reflexivity |].
  apply (connect_is_answered sampleUUID 1
           {| command := lit "STOMP";
              headers := {[ lit "accept-version" := lit "1.2" ]};
              body := [] |} world0); [by right | reflexivity].
Defined.

(** X11: what is ignored: a frame whose command is none of the six known
    ones (commands are compared as they are, so [connect] is unknown), an
    [UNSUBSCRIBE] without a non-empty [id], a [SEND] without a non-empty
    [destination].  The world stays as it was, in both bindings: nothing
    is written, no error frame either. *)
Theorem ignored_frames (randomUUID : nat → jsstring) (ws : nat)
    (frame : Frame) (w : World) :
  command frame ∉ known_commands
  ∨ (command frame = lit "UNSUBSCRIBE"
     ∧ falsy (header "id" (headers frame)) = true)
  ∨ (command frame = lit "SEND"
     ∧ falsy (header "destination" (headers frame)) = true) →
  Native.handleFrame randomUUID ws frame w = w
  ∧ SockJS.handleFrame randomUUID ws frame w = w.
Proof.
  intros [Hunknown|[[Hcmd Hid]|[Hcmd Hd]]];
    unfold Native.handleFrame, SockJS.handleFrame.
  - unfold known_commands in Hunknown.
    rewrite !not_elem_of_cons in Hunknown.
    destruct Hunknown as (H1 & H2 & H3 & H4 & H5 & H6 & _).
    by rewrite !bool_decide_eq_false_2 by done.
  - by rewrite Hcmd, Hid.
  - by rewrite Hcmd, Hd.
Qed.

Lemma ignored_frames_witness :
  (lit "connect" ∉ known_commands)
  ∧ Native.handleFrame sampleUUID 1
      {| command := lit "connect"; headers := ∅; body := [] |} room_world
    = room_world
  ∧ Native.handleFrame sampleUUID 1
      {| command := lit "SEND"; headers := {[ lit "destination" := [] ]};
         body := lit "x" |} room_world
    = room_world.
Proof.
  assert (lit "connect" ∉ known_commands) as Hu
    by (apply (bool_decide_unpack _); vm_compute; exact I).
  split_and!; [exact Hu | |].
  - apply (ignored_frames sampleUUID 1
             {| command := lit "connect"; headers := ∅; body := [] |}
             room_world). by left.
  - apply (ignored_frames sampleUUID 1
             {| command := lit "SEND";
                headers := {[ lit "destination" := [] ]};
                body := lit "x" |} room_world).
    right. right. split; reflexivity.
Defined.

Lemma conn_has_remove_sub (r : Registry) (c : nat) (s : jsstring) c' s' d' :
  conn_has (Native.removeSubscription c s r) c' s' d' → conn_has r c' s' d'.
Proof.
  destruct (Map_get c (subscriptionsByConn r)) as [connSubs|] eqn:Hc.
  2:{ rewrite removeSubscription_not_found; [done|].
      intros d (m & H1 & _). congruence. }
  destruct (Map_get s connSubs) as [d|] eqn:Hs.
  2:{ rewrite removeSubscription_not_found; [done|].
      intros d (m & H1 & H2). congruence. }
  destruct (decide (d = [])) as [->|Hd].
  { rewrite removeSubscription_not_found; [done|].
    intros d (m & H1 & H2). congruence. }
  rewrite (conn_has_remove_found r c s connSubs d) by done. tauto.
Qed.

Section Reachable.
Variable randomUUID : nat → jsstring.
Implicit Types (w : World) (r : Registry).

(** What every state of the native binding satisfies. *)
Let sound r : Prop :=
  backed r ∧ pruned r ∧ Registry_wf r ∧ stores_truthy r.

Lemma sound_handleFrame ws frame w :
  sound (registry w) →
  sound (registry (Native.handleFrame randomUUID ws frame w)).
Proof.
  intros (Hb & Hp & Hwf & Ht).
  destruct (handleFrame_registry_cases randomUUID ws frame w)
    as [->|[(s0 & d0 & Hs0 & Hd0 & ->)|[(s0 & ->)| ->]]].
  - done.
  - split_and!; [by apply backed_add | by apply pruned_add
                | by apply Registry_wf_add |].
    intros c s d [(-> & -> & ->)|[_ H]]%conn_has_add; [done|by eapply Ht].
  - split_and!; [by apply backed_remove | by apply pruned_remove
                | by apply Registry_wf_remove |].
    intros c s d H%conn_has_remove_sub. by eapply Ht.
  - split_and!; [by apply backed_cleanup | by apply pruned_cleanup
                | by apply Registry_wf_cleanup |].
    intros c s d [H _]%conn_has_cleanup. by eapply Ht.
Qed.

Lemma sound_step w e :
  sound (registry w) → sound (registry (native_step randomUUID w e)).
Proof.
  destruct e as [ws message|ws]; simpl.
  - unfold Native.onMessage.
    generalize (Native.parseFrames message) as frames. intros frames.
    revert w. induction frames as [|f frames IH]; intros w Hw; [done|].
    cbn [foldl]. by apply IH, sound_handleFrame.
  - intros (Hb & Hp & Hwf & Ht).
    split_and!; [by apply backed_cleanup | by apply pruned_cleanup
                | by apply Registry_wf_cleanup |].
    intros c s d [H _]%conn_has_cleanup. by eapply Ht.
Qed.

Lemma sound_run events : ∀ w,
  sound (registry w) → sound (registry (native_run randomUUID w events)).
Proof.
  unfold native_run. induction events as [|e events IH]; intros w Hw; [done|].
  cbn [foldl]. by apply IH, sound_step.
Qed.

Lemma sound_empty : sound emptyRegistry.
Proof.
  split_and!.
  - by intros c s d (m & H & _).
  - by split_and!.
  - apply Registry_wf_empty.
  - by intros c s d (m & H & _).
Qed.
End Reachable.

(** X12: every state the native binding reaches from empty indices by
    deliveries and close events, whatever the bytes delivered: each
    subscription of the connection index is listed in the destination
    index, I2 and I3 hold, keys and members are unique, and the ids and
    destinations stored are non-empty. *)
Theorem native_run_invariants (randomUUID : nat → jsstring)
    (events : list NativeEvent) (w : World) :
  registry w = emptyRegistry →
  let r := registry (native_run randomUUID w events) in
  backed r ∧ I2 r ∧ I3 r ∧ Registry_wf r ∧ stores_truthy r.
Proof.
  intros Hempty r.
  destruct (sound_run randomUUID events w) as (Hb & Hp & Hwf & Ht).
  { rewrite Hempty. apply sound_empty. }
  split_and!; [done | by apply pruned_I2 | by apply pruned_I3 | done..].
Qed.

Lemma native_run_invariants_witness :
  registry world0 = emptyRegistry
  ∧ registry (native_run sampleUUID world0 sample_events)
    = mkRegistry [(2, [(lit "s2", lit "news")])]
        [(lit "news", [(1, [lit "s1"]); (2, [lit "s2"])])]
  ∧ outbox (native_run sampleUUID world0 sample_events)
    = messageFrames sampleUUID (lit "news") (lit "hello") 0
        [(1, lit "s1"); (2, lit "s2")]
  ∧ backed (registry (native_run sampleUUID world0 sample_events))
  ∧ stores_truthy (registry (native_run sampleUUID world0 sample_events)).
Proof.
  destruct (native_run_invariants sampleUUID sample_events world0 eq_refl)
    as (Hb & _ & _ & _ & Ht).
  split_and!; [reflexivity | by vm_compute | by vm_compute
              | exact Hb | exact Ht].
Defined.

(** * Further properties of the codec *)

Section CodecMore.
Implicit Types (s t raw chunk : jsstring).

Lemma split1_sep sep s t :
  split1 sep (s ++ sep :: t) = split1 sep s ++ split1 sep t.
Proof.
  induction s as [|x s IH]; simpl.
  - by rewrite N.eqb_refl.
  - destruct (x =? sep)%N; [by rewrite IH|]. rewrite IH.
    pose proof (split1_nonempty sep s).
    by destruct (split1 sep s).
Qed.

Lemma parseLoop_app l1 l2 :
  Native.parseLoop (l1 ++ l2) = Native.parseLoop l1 ++ Native.parseLoop l2.
Proof.
  induction l1 as [|raw l1 IH]; simpl; [done|].
  destruct (Native.parseRaw raw); simpl; by rewrite IH.
Qed.

(** The guard on the empty chunk changes nothing. *)
Lemma parseFrames_loop chunk :
  Native.parseFrames chunk = Native.parseLoop (split1 NUL chunk).
Proof. by destruct chunk. Qed.

Lemma parseFrames_sep s t :
  Native.parseFrames (s ++ NUL :: t)
  = Native.parseFrames s ++ Native.parseFrames t.
Proof. by rewrite !parseFrames_loop, split1_sep, parseLoop_app. Qed.

Lemma trimStart_ws s : Forall (λ x, is_ws x = true) s → trimStart s = [].
Proof. induction 1 as [|x s Hx _ IH]; simpl; [done|]. by rewrite Hx. Qed.

Lemma trim_ws s : Forall (λ x, is_ws x = true) s → trim s = [].
Proof. intros H. unfold trim. by rewrite trimStart_ws. Qed.

Lemma Forall_cons_seg (P : N → Prop) x segs :
  P x → Forall (Forall P) segs → Forall (Forall P) (cons_seg x segs).
Proof.
  intros Hx Hs. destruct Hs as [|seg segs Hseg Hsegs]; simpl.
  - by repeat constructor.
  - constructor; [by constructor|done].
Qed.

Lemma Forall_split1 (P : N → Prop) sep s :
  Forall P s → Forall (Forall P) (split1 sep s).
Proof.
  induction 1 as [|x s Hx _ IH]; simpl; [by repeat constructor|].
  destruct (x =? sep)%N; [by constructor|]. by apply Forall_cons_seg.
Qed.

Lemma Forall_split_blank (P : N → Prop) s :
  Forall P s → Forall (Forall P) (split_blank s).
Proof.
  assert (∀ n s, length s ≤ n → Forall P s →
                 Forall (Forall P) (split_blank s)) as H.
  { clear s. induction n as [|n IH]; intros s Hn Hs.
    - destruct s; [|simpl in Hn; lia]. by repeat constructor.
    - destruct s as [|x [|y r]].
      { by repeat constructor. }
      { simpl. constructor; [exact Hs|constructor]. }
      simpl in Hn. rewrite split_blank_eq.
      apply Forall_cons in Hs as [Hx Hs].
      destruct (_ && _).
      + constructor; [done|]. apply IH; [lia|].
        by apply Forall_cons in Hs as [_ Hs].
      + apply Forall_cons_seg; [done|]. apply IH; [simpl; lia|done]. }
  by apply (H (length s)).
Qed.

Lemma Forall_filter_truthy (P : jsstring → Prop) ls :
  Forall P ls → Forall P (filter_truthy ls).
Proof.
  induction 1 as [|l ls Hl _ IH]; simpl; [done|].
  destruct (truthy l); [by constructor|done].
Qed.

(** A segment of white space holds no frame. *)
Lemma parseRaw_ws raw :
  Forall (λ x, is_ws x = true) raw → Native.parseRaw raw = None.
Proof.
  intros Hws. unfold Native.parseRaw.
  destruct (negb (truthy raw)); [done|].
  destruct (bool_decide (raw = [NL])); [done|].
  pose proof (Forall_split_blank _ raw Hws) as Hparts.
  destruct (split_blank raw) as [|first parts]; [done|].
  apply Forall_cons in Hparts as [Hfirst _].
  pose proof (Forall_filter_truthy _ _ (Forall_split1 _ NL first Hfirst))
    as Hlines.
  destruct (filter_truthy _) as [|cl hl]; [done|].
  apply Forall_cons in Hlines as [Hcl _].
  by rewrite (trim_ws cl Hcl).
Qed.

Lemma idle_segments chunk :
  Forall idle_unit chunk →
  Forall (Forall (λ x, is_ws x = true)) (split1 NUL chunk).
Proof.
  induction 1 as [|x s Hx _ IH]; simpl; [by repeat constructor|].
  destruct (x =? NUL)%N eqn:E; [by constructor|].
  apply Forall_cons_seg; [|done].
  destruct Hx as [Hx|Hx]; [done|]. subst x. by rewrite N.eqb_refl in E.
Qed.

Lemma parseLoop_ws segments :
  Forall (Forall (λ x, is_ws x = true)) segments →
  Native.parseLoop segments = [].
Proof.
  induction 1 as [|raw l Hraw _ IH]; simpl; [done|].
  by rewrite parseRaw_ws.
Qed.
End CodecMore.

(** X13: decoding goes segment by segment: what is decoded from two pieces
    joined by a NUL is what is decoded from the first followed by what is
    decoded from the second, for every two pieces; and a NUL at the end of a
    chunk adds nothing, so the last segment of a chunk is decoded whether
    its terminator has arrived or not. *)
Theorem parseFrames_by_segment (s t : jsstring) :
  Native.parseFrames (s ++ NUL :: t)
  = Native.parseFrames s ++ Native.parseFrames t
  ∧ Native.parseFrames (s ++ [NUL]) = Native.parseFrames s
  ∧ SockJS.parseFrames (s ++ NUL :: t)
    = SockJS.parseFrames s ++ SockJS.parseFrames t.
Proof.
  split_and!.
  - apply parseFrames_sep.
  - rewrite parseFrames_sep. simpl. by rewrite app_nil_r.
  - apply parseFrames_sep.
Qed.

(** X14: several frames in one delivery: for commands, headers and bodies
    that survive the wire (a command that is not blank and holds no line
    feed and no NUL; header names and values that are non-empty and hold no
    line feed and no NUL; no colon in a name and no name that trims to
    [__proto__]; no NUL in a body), decoding the concatenation of their
    encodings gives their frames, one for one and in order, names, values
    and commands trimmed. *)
Theorem decode_encoded_sequence
    (ts : list (jsstring * list (jsstring * jsstring) * jsstring)) :
  Forall wire_frame ts →
  Native.parseFrames (concat (encode_wire <$> ts)) = decoded_wire <$> ts.
Proof.
  induction 1 as [|[[c hs] b] ts (Hc & Hhs & Hb) _ IH]; [done|].
  rewrite fmap_cons. cbn [concat]. unfold encode_wire at 1. cbn [fst snd].
  rewrite frameText_terminated, <- app_assoc. cbn [app].
  rewrite parseFrames_sep, IH.
  rewrite parseFrames_no_NUL.
  2:{ destruct Hc as (_ & _ & HcNUL). by apply encoded_no_NUL. }
  by rewrite parseRaw_encoded.
Qed.

Lemma decode_encoded_sequence_witness :
  Forall wire_frame
    [ (lit "SUBSCRIBE", [(lit "id", lit "1"); (lit "destination", lit "news")],
       []);
      (lit "SEND", [(lit "destination", lit "news")], lit "Hello") ]
  ∧ Native.parseFrames
      (subscribeChunk (lit "1") (lit "news")
       ++ sendChunk (lit "news") (lit "Hello"))
    = [ subscribeFrame (lit "1") (lit "news");
        sendFrameTo (lit "news") (lit "Hello") ].
Proof.
  assert (Forall wire_frame
    [ (lit "SUBSCRIBE", [(lit "id", lit "1"); (lit "destination", lit "news")],
       []);
      (lit "SEND", [(lit "destination", lit "news")], lit "Hello") ]) as Hw.
  { unfold wire_frame, wire_command, wire_header. wire_check. }
  split; [exact Hw|].
  pose proof (decode_encoded_sequence _ Hw) as H.
  etrans; [|etrans; [exact H|]]; by vm_compute.
Defined.

(** X15: heart-beats: a chunk made of white space and NUL only (line
    feeds between frames, empty segments) gives no frame. *)
Theorem idle_chunk_gives_no_frame (chunk : jsstring) :
  Forall idle_unit chunk →
  Native.parseFrames chunk = [] ∧ SockJS.parseFrames chunk = [].
Proof.
  intros H. change (SockJS.parseFrames chunk) with (Native.parseFrames chunk).
  rewrite parseFrames_loop. split; by apply parseLoop_ws, idle_segments.
Qed.

Lemma idle_chunk_gives_no_frame_witness :
  Forall idle_unit ([NL; NUL; NL; NL; NUL] ++ lit " " ++ [13%N; NL; NUL])
  ∧ Native.parseFrames
      ([NL; NUL; NL; NL; NUL] ++ lit " " ++ [13%N; NL; NUL]) = [].
Proof.
  assert (Forall idle_unit
            ([NL; NUL; NL; NL; NUL] ++ lit " " ++ [13%N; NL; NUL])) as Hi.
  { repeat constructor; ((by left) || (by right)). }
  split; [exact Hi|].
  exact (proj1 (idle_chunk_gives_no_frame _ Hi)).
Defined.


(** * What the decoder yields *)

Section DecodedShape.
Implicit Types (s t raw chunk line : jsstring).

Lemma not_elem_of_Forall (x : N) s : x ∉ s ↔ Forall (λ y, y ≠ x) s.
Proof.
  rewrite Forall_forall. split.
  - intros H y Hy ->. by apply H.
  - intros H Hx. by apply (H x Hx).
Qed.

Lemma Forall_trimStart (P : N → Prop) s : Forall P s → Forall P (trimStart s).
Proof.
  induction 1 as [|x s Hx Hs IH]; simpl; [done|].
  destruct (is_ws x); [done|by constructor].
Qed.

Lemma Forall_trim (P : N → Prop) s : Forall P s → Forall P (trim s).
Proof.
  intros H. unfold trim, trimEnd.
  by apply Forall_reverse, Forall_trimStart, Forall_reverse, Forall_trimStart.
Qed.

Lemma trimStart_idemp s : trimStart (trimStart s) = trimStart s.
Proof.
  induction s as [|x s IH]; simpl; [done|].
  destruct (is_ws x) eqn:E; [done|]. simpl. by rewrite E.
Qed.

Lemma trimStart_snoc u x :
  is_ws x = false → ∃ u', trimStart (u ++ [x]) = u' ++ [x].
Proof.
  intros E. induction u as [|a u IH]; simpl.
  - rewrite E. by exists [].
  - destruct (is_ws a); [done|]. by exists (a :: u).
Qed.

Lemma trimStart_trimEnd t : trimStart t = t → trimStart (trimEnd t) = trimEnd t.
Proof.
  destruct t as [|x r]; [done|]. intros H.
  destruct (is_ws x) eqn:E.
  - simpl in H. rewrite E in H. pose proof (length_trimStart r) as Hl.
    rewrite H in Hl. simpl in Hl. lia.
  - unfold trimEnd. rewrite reverse_cons.
    destruct (trimStart_snoc (reverse r) x E) as [u' ->].
    rewrite reverse_app. simpl. by rewrite E.
Qed.

Lemma trim_idemp s : trim (trim s) = trim s.
Proof.
  unfold trim. rewrite trimStart_trimEnd by apply trimStart_idemp.
  unfold trimEnd. by rewrite reverse_involutive, trimStart_idemp.
Qed.

Lemma tidy_trim line : (NL ∉ line) → (NUL ∉ line) → tidy (trim line).
Proof.
  rewrite !not_elem_of_Forall. intros H1 H2. unfold tidy.
  rewrite !not_elem_of_Forall.
  split_and!; [apply trim_idemp|by apply Forall_trim..].
Qed.

(** No segment of a split holds the separator. *)
Lemma split1_segments sep s :
  Forall (Forall (λ y, y ≠ sep)) (split1 sep s).
Proof.
  induction s as [|x s IH]; simpl; [by repeat constructor|].
  destruct (x =? sep)%N eqn:E; [by constructor|].
  apply Forall_cons_seg; [|done]. by apply N.eqb_neq.
Qed.

Lemma Forall_join (P : N → Prop) (glue : jsstring) parts :
  Forall P glue → Forall (Forall P) parts → Forall P (join glue parts).
Proof.
  intros Hg. induction 1 as [|p ps Hp Hps IH]; [done|].
  destruct ps as [|p' ps]; [done|].
  rewrite join_cons by done. rewrite !Forall_app. by split_and!.
Qed.

Lemma indexOf_take c line i :
  indexOf c line = Some i → Forall (λ y, y ≠ c) (take i line).
Proof.
  revert i. induction line as [|x line IH]; intros i; simpl; [done|].
  destruct (x =? c)%N eqn:E.
  - intros [= <-]. constructor.
  - destruct (indexOf c line) as [j|]; [|done]. intros [= <-]. simpl.
    constructor; [by apply N.eqb_neq|by apply IH].
Qed.

(** What one header line stores has the shape. *)
Lemma parseHeaderLine_shape (hs : gmap jsstring jsstring) line :
  (NL ∉ line) → (NUL ∉ line) →
  (∀ k v, hs !! k = Some v → tidy k ∧ tidy v ∧ (COLON ∉ k) ∧ k ≠ PROTO) →
  ∀ k v, Native.parseHeaderLine hs line !! k = Some v →
         tidy k ∧ tidy v ∧ (COLON ∉ k) ∧ k ≠ PROTO.
Proof.
  intros HNL HNUL Hhs k v. unfold Native.parseHeaderLine.
  destruct (indexOf COLON line) as [i|] eqn:Ei; [|by apply Hhs].
  unfold obj_set. case_decide as Hp; [by apply Hhs|].
  destruct (decide (k = trim (take i line))) as [->|Hk].
  - rewrite lookup_insert_eq. intros [= <-].
    apply not_elem_of_Forall in HNL, HNUL.
    split_and!; [| |apply not_elem_of_Forall, Forall_trim|done].
    + apply tidy_trim; apply not_elem_of_Forall; by apply Forall_take.
    + apply tidy_trim; apply not_elem_of_Forall; by apply Forall_drop.
    + by apply indexOf_take.
  - rewrite lookup_insert_ne by done. by apply Hhs.
Qed.

Lemma header_lines_shape lines : ∀ (hs : gmap jsstring jsstring),
  Forall (λ line, (NL ∉ line) ∧ (NUL ∉ line)) lines →
  (∀ k v, hs !! k = Some v → tidy k ∧ tidy v ∧ (COLON ∉ k) ∧ k ≠ PROTO) →
  ∀ k v, foldl Native.parseHeaderLine hs lines !! k = Some v →
         tidy k ∧ tidy v ∧ (COLON ∉ k) ∧ k ≠ PROTO.
Proof.
  induction lines as [|line lines IH]; intros hs Hl Hhs; [done|].
  apply Forall_cons in Hl as [[HNL HNUL] Hl]. simpl.
  apply IH; [done|]. by apply parseHeaderLine_shape.
Qed.

Lemma parseRaw_shape raw f :
  (NUL ∉ raw) → Native.parseRaw raw = Some f → decoded_shape f.
Proof.
  intros HNUL%not_elem_of_Forall. unfold Native.parseRaw.
  destruct (negb (truthy raw)); [done|].
  destruct (bool_decide (raw = [NL])); [done|].
  pose proof (Forall_split_blank _ raw HNUL) as Hparts.
  destruct (split_blank raw) as [|first parts]; [done|].
  apply Forall_cons in Hparts as [Hfirst Hparts].
  pose proof (Forall_filter_truthy _ _ (Forall_split1 _ NL first Hfirst))
    as Hlines1.
  pose proof (Forall_filter_truthy _ _ (split1_segments NL first))
    as Hlines2.
  destruct (filter_truthy _) as [|cl hl]; [done|].
  apply Forall_cons in Hlines1 as [Hcl1 Hhl1].
  apply Forall_cons in Hlines2 as [Hcl2 Hhl2].
  destruct (truthy (trim cl)) eqn:Ecmd; [|done]. simpl.
  intros [= <-]. unfold decoded_shape. simpl. split_and!.
  - by destruct (trim cl).
  - apply tidy_trim; by apply not_elem_of_Forall.
  - apply not_elem_of_Forall, Forall_join; [|done].
    by repeat constructor.
  - apply header_lines_shape.
    + apply Forall_forall. intros line Hline.
      rewrite !not_elem_of_Forall. split.
      * by apply (proj1 (Forall_forall _ _) Hhl2).
      * by apply (proj1 (Forall_forall _ _) Hhl1).
    + intros k v. by rewrite lookup_empty.
Qed.

Lemma elem_of_parseLoop f segments :
  f ∈ Native.parseLoop segments →
  ∃ raw, raw ∈ segments ∧ Native.parseRaw raw = Some f.
Proof.
  induction segments as [|raw l IH]; simpl; [by intros H%elem_of_nil|].
  destruct (Native.parseRaw raw) as [g|] eqn:E.
  - intros [->|H]%elem_of_cons.
    + exists raw. split; [left|done].
    + destruct (IH H) as (raw' & ? & ?). exists raw'. split; [by right|done].
  - intros H. destruct (IH H) as (raw' & ? & ?).
    exists raw'. split; [by right|done].
Qed.
End DecodedShape.

(** X16: what the decoder yields, whatever the bytes: every decoded frame
    has a non-empty command that is trimmed and holds neither a line feed
    nor a NUL; its body holds no NUL; every header name and value stored is
    trimmed, without line feed and without NUL, and no name holds a colon
    or is [__proto__]. *)
Theorem decoded_frames_shape (chunk : jsstring) (f : Frame) :
  f ∈ Native.parseFrames chunk → decoded_shape f.
Proof.
  rewrite parseFrames_loop. intros (raw & Hraw & Hf)%elem_of_parseLoop.
  apply (parseRaw_shape raw); [|done].
  apply not_elem_of_Forall.
  by apply (proj1 (Forall_forall _ _) (split1_segments NUL chunk)).
Qed.

Lemma decoded_frames_shape_witness :
  subscribeFrame (lit "1") (lit "news")
    ∈ Native.parseFrames (subscribeChunk (lit "1") (lit "news"))
  ∧ decoded_shape (subscribeFrame (lit "1") (lit "news")).
Proof.
  assert (subscribeFrame (lit "1") (lit "news")
            ∈ Native.parseFrames (subscribeChunk (lit "1") (lit "news")))
    as Hin.
  { assert (Native.parseFrames (subscribeChunk (lit "1") (lit "news"))
            = [subscribeFrame (lit "1") (lit "news")]) as ->
      by by vm_compute.
    left. }
  split; [exact Hin|].
  exact (decoded_frames_shape _ _ Hin).
Defined.


Lemma trimmed_headers_app hs1 hs2 (k : jsstring) :
  k ∉ trimmed_names hs2 →
  trimmed_headers (hs1 ++ hs2) !! k = trimmed_headers hs1 !! k.
Proof.
  induction hs2 as [|kv hs2 IH] using rev_ind; intros Hk.
  - by rewrite app_nil_r.
  - unfold trimmed_names in Hk. rewrite fmap_app in Hk.
    apply not_elem_of_app in Hk as [Hk1 Hk2]. simpl in Hk2.
    rewrite app_assoc, trimmed_headers_snoc, lookup_insert_ne.
    + by apply IH.
    + intros <-. apply Hk2. left.
Qed.

(** X17: a header name given more than once: for a command, headers and a
    body that survive the wire, the decoded frame holds, under a name, the
    value of the last header with that name (names and values trimmed);
    the value may hold colons, the line is cut at the first one. *)
Theorem repeated_header_last_wins (c b k v : jsstring)
    (hs1 hs2 : list (jsstring * jsstring)) :
  wire_command c → Forall wire_header (hs1 ++ (k, v) :: hs2) → (NUL ∉ b) →
  (trim k ∉ trimmed_names hs2) →
  ∃ f, Native.parseFrames (Native.frameText c (hs1 ++ (k, v) :: hs2) b) = [f]
       ∧ headers f !! trim k = Some (trim v).
Proof.
  intros Hc Hhs Hb Hk. eexists. split.
  - rewrite frameText_terminated, parseFrames_terminated.
    + by rewrite parseRaw_encoded.
    + destruct Hc as (_ & _ & HcNUL). by apply encoded_no_NUL.
  - cbn [headers].
    change (hs1 ++ (k, v) :: hs2) with (hs1 ++ [(k, v)] ++ hs2).
    rewrite app_assoc, trimmed_headers_app by done.
    rewrite trimmed_headers_snoc. apply lookup_insert_eq.
Qed.

Lemma repeated_header_last_wins_witness :
  ∃ f, Native.parseFrames
         (Native.frameText (lit "SEND")
            ([(lit "destination", lit "a")]
             ++ (lit "destination", lit " b:c ") :: [(lit "x", lit "y")])
            (lit "hi")) = [f]
       ∧ headers f !! trim (lit "destination") = Some (trim (lit " b:c ")).
Proof.
  apply repeated_header_last_wins.
  - unfold wire_command. wire_check.
  - unfold wire_header. wire_check.
  - wire_check.
  - wire_check.
Defined.


(** * The SockJS binding over a run *)

Section SockReachable.
Variable randomUUID : nat → jsstring.
Implicit Types (w : World) (r : Registry) (c conn : nat).

Lemma Map_delete_set_fresh {K V} `{!EqDecision K} (k : K) (v : V)
    (m : list (K * V)) :
  Map_get k m = None → Map_delete k (Map_set k v m) = m.
Proof.
  induction m as [|[k0 v0] m IH]; simpl.
  - by rewrite decide_True.
  - case_decide; [done|]. intros Hg. simpl. rewrite decide_False by done.
    by rewrite IH.
Qed.

Lemma conn_has_register conn w c s d :
  conn_has (registry (SockJS.registerConnection conn w)) c s d
  ↔ conn_has (registry w) c s d ∧ c ≠ conn.
Proof.
  unfold conn_has, SockJS.registerConnection; cbn [registry set_registry
    subscriptionsByConn]. setoid_rewrite Map_get_set. split.
  - intros (m & H1 & H2). case_decide; [by simplify_eq|].
    split; [by exists m|done].
  - intros [(m & H1 & H2) Hne]. exists m. by rewrite decide_False.
Qed.

Lemma pruned_destinations_add r c s d :
  pruned_destinations r → pruned_destinations (Native.addSubscription c s d r).
Proof.
  intros (K2 & K3).
  unfold pruned_destinations, Native.addSubscription,
    Native.ensureDestinationEntry;
    cbn [subscriptionsByConn subscribersByDestination].
  split.
  - intros d' ds. rewrite get_ensure_alter. case_decide; [|by apply K2].
    intros [= <-] E.
    assert (Map_get c (@nil (nat * list jsstring)) = None) as Hnil by done.
    rewrite <- E, get_ensure_alter, decide_True in Hnil; done.
  - intros d' ds c' subSet. rewrite get_ensure_alter.
    case_decide; [|by apply K3]. intros ?; simplify_eq.
    rewrite get_ensure_alter. case_decide.
    + intros ?; simplify_eq. apply Set_add_nonempty.
    + destruct (Map_get d (subscribersByDestination r)) as [ds|] eqn:E;
        simpl; [by eapply K3 | done].
Qed.

Lemma pruned_destinations_remove r c s :
  pruned_destinations r →
  pruned_destinations (Native.removeSubscription c s r).
Proof.
  intros (K2 & K3).
  destruct (Map_get c (subscriptionsByConn r)) as [connSubs|] eqn:Hc.
  2:{ rewrite removeSubscription_not_found; [done|].
      intros d (m & H1 & _). congruence. }
  destruct (Map_get s connSubs) as [d|] eqn:Hs.
  2:{ rewrite removeSubscription_not_found; [done|].
      intros d (m & H1 & H2). congruence. }
  destruct (decide (d = [])) as [->|Hd].
  { rewrite removeSubscription_not_found; [done|].
    intros d (m & H1 & H2). congruence. }
  rewrite (removeSubscription_found r c s connSubs d) by done.
  unfold pruned_destinations; cbn [subscribersByDestination].
  destruct (Map_get d (subscribersByDestination r)) as [ds|] eqn:E1;
    [|done].
  destruct (Map_get c ds) as [subSet|] eqn:E2; [|done].
  by destruct (pruned_drop _ d c s ds subSet E1 E2 K2 K3).
Qed.

Lemma pruned_destinations_cleanup r c :
  pruned_destinations r →
  pruned_destinations (Native.cleanupConnection c r).
Proof.
  intros (K2 & K3). unfold Native.cleanupConnection.
  destruct (Map_get c (subscriptionsByConn r)) as [connSubs|] eqn:Hc;
    [|done].
  by destruct (pruned_cleanup_loop c connSubs _ K2 K3).
Qed.

Lemma pruned_destinations_I2 r : pruned_destinations r → I2 r.
Proof.
  intros (K2 & K3) d. split.
  - intros [ds Hd]. destruct (Map_nonempty_get ds) as (c & subSet & Hc).
    { by eapply K2. }
    pose proof (K3 _ _ _ _ Hd Hc) as Hne.
    destruct subSet as [|s ss]; [done|]. exists c, s, ds, (s :: ss).
    split_and!; [done..|by left].
  - intros (c & s & ds & subSet & Hd & _). by exists ds.
Qed.

Lemma sock_sound_cleanup r c :
  sock_sound r → sock_sound (Native.cleanupConnection c r).
Proof.
  intros (Hb & Hp & Hwf & Ht).
  split_and!; [by apply backed_cleanup | by apply pruned_destinations_cleanup
              | by apply Registry_wf_cleanup |].
  intros c' s d [H _]%conn_has_cleanup. by eapply Ht.
Qed.

Lemma sock_sound_handleFrame conn frame w :
  sock_sound (registry w) →
  sock_sound (registry (SockJS.handleFrame randomUUID conn frame w)).
Proof.
  intros Hs. rewrite handleFrame_same_registry.
  destruct (handleFrame_registry_cases randomUUID conn frame w)
    as [->|[(s0 & d0 & Hs0 & Hd0 & ->)|[(s0 & ->)| ->]]].
  - done.
  - destruct Hs as (Hb & Hp & Hwf & Ht).
    split_and!; [by apply backed_add | by apply pruned_destinations_add
                | by apply Registry_wf_add |].
    intros c s d [(-> & -> & ->)|[_ H]]%conn_has_add; [done|by eapply Ht].
  - destruct Hs as (Hb & Hp & Hwf & Ht).
    split_and!; [by apply backed_remove | by apply pruned_destinations_remove
                | by apply Registry_wf_remove |].
    intros c s d H%conn_has_remove_sub. by eapply Ht.
  - by apply sock_sound_cleanup.
Qed.

Lemma sock_sound_register conn w :
  sock_sound (registry w) →
  sock_sound (registry (SockJS.registerConnection conn w)).
Proof.
  intros (Hb & Hp & Hwf & Ht). split_and!.
  - intros c s d [H _]%conn_has_register. by apply Hb.
  - done.
  - destruct Hwf as [[Hk Hm] Hd]. split; [split|done];
      cbn [registry SockJS.registerConnection set_registry
           subscriptionsByConn].
    + by apply Map_wf_set.
    + intros c m [[-> ->]|H]%elem_of_Map_set; [apply Map_wf_nil|eauto].
  - intros c s d [H _]%conn_has_register. by eapply Ht.
Qed.

Lemma sock_sound_step w e :
  sock_sound (registry w) → sock_sound (registry (sock_step randomUUID w e)).
Proof.
  destruct e as [conn|conn chunk|conn]; simpl.
  - apply sock_sound_register.
  - unfold SockJS.onData.
    generalize (SockJS.parseFrames chunk) as frames. intros frames.
    revert w. induction frames as [|f frames IH]; intros w Hw; [done|].
    cbn [foldl]. by apply IH, sock_sound_handleFrame.
  - apply sock_sound_cleanup.
Qed.

Lemma sock_sound_run events : ∀ w,
  sock_sound (registry w) →
  sock_sound (registry (sock_run randomUUID w events)).
Proof.
  unfold sock_run. induction events as [|e events IH]; intros w Hw; [done|].
  cbn [foldl]. by apply IH, sock_sound_step.
Qed.

Lemma sock_sound_empty : sock_sound emptyRegistry.
Proof.
  split_and!.
  - by intros c s d (m & H & _).
  - by split.
  - apply Registry_wf_empty.
  - by intros c s d (m & H & _).
Qed.
End SockReachable.

(** X18: [registerConnection] on a connection the connection index does
    not know: the connection gets an entry without subscriptions (so I3
    fails while it has not subscribed), no subscription appears or
    disappears in either index, nothing is written, and the close handler
    run right after gives back the indices as they were. *)
Theorem registerConnection_then_close (conn : nat) (w : World) :
  Map_get conn (subscriptionsByConn (registry w)) = None →
  let w1 := SockJS.registerConnection conn w in
  is_Some (Map_get conn (subscriptionsByConn (registry w1)))
  ∧ (∀ c s d, conn_has (registry w1) c s d ↔ conn_has (registry w) c s d)
  ∧ (∀ c s d, dest_has (registry w1) d c s ↔ dest_has (registry w) d c s)
  ∧ ¬ I3 (registry w1)
  ∧ outbox w1 = outbox w
  ∧ registry (SockJS.onClose conn w1) = registry w.
Proof.
  intros Hfresh w1.
  assert (Map_get conn (subscriptionsByConn (registry w1)) = Some []) as Hnew.
  { unfold w1, SockJS.registerConnection;
      cbn [registry set_registry subscriptionsByConn].
    by rewrite Map_get_set, decide_True. }
  assert (∀ c s d, conn_has (registry w1) c s d ↔ conn_has (registry w) c s d)
    as Hsame.
  { intros c s d. unfold w1. rewrite conn_has_register. split; [tauto|].
    intros H. split; [done|]. intros ->.
    destruct H as (m & H & _). congruence. }
  split_and!; [by rewrite Hnew|done|done| |done|].
  - intros HI3. destruct (proj1 (HI3 conn)) as (s & d & m & H1 & H2).
    + by rewrite Hnew.
    + rewrite Hnew in H1. by simplify_eq.
  - unfold SockJS.onClose; cbn [registry set_registry].
    change (SockJS.cleanupConnection conn (registry w1))
      with (Native.cleanupConnection conn (registry w1)).
    unfold Native.cleanupConnection. rewrite Hnew. cbn [foldl].
    unfold w1, SockJS.registerConnection;
      cbn [registry set_registry subscriptionsByConn subscribersByDestination].
    rewrite Map_delete_set_fresh by done. by destruct (registry w).
Qed.

Lemma registerConnection_then_close_witness :
  ¬ I3 (registry (SockJS.registerConnection 7 room_world))
  ∧ registry (SockJS.onClose 7 (SockJS.registerConnection 7 room_world))
    = registry room_world.
Proof.
  assert (Map_get 7 (subscriptionsByConn (registry room_world)) = None) as H
    by by vm_compute.
  pose proof (registerConnection_then_close 7 room_world H) as K.
  simpl in K. tauto.
Defined.

(** X19: every state the SockJS binding reaches from empty indices by
    new connections, chunks and close events, whatever the bytes: each
    subscription of the connection index is listed in the destination
    index, I2 holds, keys and members are unique, and the ids and
    destinations stored are non-empty. *)
Theorem sock_run_invariants (randomUUID : nat → jsstring)
    (events : list SockEvent) (w : World) :
  registry w = emptyRegistry →
  let r := registry (sock_run randomUUID w events) in
  backed r ∧ I2 r ∧ Registry_wf r ∧ stores_truthy r.
Proof.
  intros Hw r.
  destruct (sock_sound_run randomUUID events w) as (Hb & Hp & Hwf & Ht).
  { rewrite Hw. apply sock_sound_empty. }
  split_and!; [done|by apply pruned_destinations_I2|done|done].
Qed.

Lemma sock_run_invariants_witness :
  registry world0 = emptyRegistry
  ∧ registry (sock_run sampleUUID world0 sock_sample_events)
    = mkRegistry [(2, [])] []
  ∧ backed (registry (sock_run sampleUUID world0 sock_sample_events))
  ∧ I2 (registry (sock_run sampleUUID world0 sock_sample_events)).
Proof.
  split; [reflexivity|]. split; [by vm_compute|].
  pose proof (sock_run_invariants sampleUUID sock_sample_events world0
                eq_refl) as K.
  simpl in K. tauto.
Defined.


(** * The channel relay *)

Lemma member_onClose (h : Channels.Hub) (ch0 : jsstring) (socket : nat)
    (ch : jsstring) (c : nat) :
  Channels.member (Channels.onClose ch0 socket h) ch c
  ↔ Channels.member h ch c ∧ ¬ (ch = ch0 ∧ c = socket).
Proof.
  unfold Channels.member, Channels.onClose; cbn [Channels.channels].
  setoid_rewrite Map_get_alter. split.
  - intros (clients & H1 & H2). case_decide as E.
    + subst ch. destruct (Map_get ch0 _) as [cs|]; [|done].
      simpl in H1. simplify_eq. apply elem_of_Set_delete in H2 as [Hne Hin].
      split; [by exists cs|]. by intros [_ ->].
    + split; [by exists clients|]. by intros [-> _].
  - intros [(clients & H1 & H2) Hne]. case_decide as E.
    + subst ch. rewrite H1. simpl. eexists. split; [done|].
      apply elem_of_Set_delete. split; [|done]. intros ->. by apply Hne.
    + by exists clients.
Qed.

Lemma sound_onClose (h : Channels.Hub) (ch0 : jsstring) (socket : nat) :
  Channels.sound h → Channels.sound (Channels.onClose ch0 socket h).
Proof.
  intros (S1 & S2 & S3 & S4). split_and!.
  - intros s ch Hj. unfold Channels.onClose; cbn [Channels.channels].
    rewrite Map_get_alter. specialize (S1 s ch Hj).
    case_decide; [subst ch; by apply fmap_is_Some|done].
  - intros ch c [Hm _]%member_onClose. by apply S2.
  - by apply Map_wf_alter.
  - intros ch clients. unfold Channels.onClose; cbn [Channels.channels].
    intros [Hin|(v0 & Hin & -> & ->)]%elem_of_Map_alter.
    + by eapply S4.
    + apply NoDup_Set_delete. by eapply S4.
Qed.

(** The listeners of [socket] among [registered], run on a close. *)
Lemma emit_close (socket : nat) (registered : list (nat * jsstring)) :
  ∀ h : Channels.Hub,
  ∃ h',
    Channels.emit (λ channelId h, Some (Channels.onClose channelId socket h))
      socket registered h = Some h'
    ∧ Channels.listeners h' = Channels.listeners h
    ∧ Channels.sent h' = Channels.sent h
    ∧ (Channels.channels h').*1 = (Channels.channels h).*1
    ∧ (∀ c, c ≠ socket → Channels.socketState h' c = Channels.socketState h c)
    ∧ (∀ ch c, Channels.member h' ch c
               ↔ Channels.member h ch c
                 ∧ ¬ (c = socket ∧ (socket, ch) ∈ registered))
    ∧ (Channels.sound h → Channels.sound h').
Proof.
  induction registered as [|[s ch0] rest IH]; intros h; cbn [Channels.emit].
  - exists h. split_and!; try done. intros ch c. split; [|tauto].
    intros H. split; [done|]. by intros [_ Hin%elem_of_nil].
  - case_decide as Es.
    + subst s.
      destruct (IH (Channels.onClose ch0 socket h))
        as (h' & -> & K1 & K2 & K3 & K4 & K5 & K6).
      exists h'. split_and!; try done.
      * rewrite K3. unfold Channels.onClose; cbn [Channels.channels].
        apply Map_keys_alter.
      * intros c Hc. rewrite K4 by done.
        unfold Channels.onClose; cbn [Channels.socketState].
        by rewrite decide_False.
      * intros ch c. rewrite K5, member_onClose, elem_of_cons.
        split.
        -- intros [[Hm Hne] Hne']. split; [done|].
           intros [-> [Heq|Hin]]; [simplify_eq; by apply Hne|by apply Hne'].
        -- intros [Hm Hne]. split_and!; [done| |].
           ++ intros [-> ->]. apply Hne. split; [done|by left].
           ++ intros [-> Hin]. apply Hne. split; [done|by right].
      * intros Hs. by apply K6, sound_onClose.
    + destruct (IH h) as (h' & -> & K1 & K2 & K3 & K4 & K5 & K6).
      exists h'. split_and!; try done.
      intros ch c. rewrite K5, elem_of_cons. split.
      * intros [Hm Hne]. split; [done|].
        intros [-> [Heq|Hin]]; [by simplify_eq|by apply Hne].
      * intros [Hm Hne]. split; [done|]. intros [-> Hin]. apply Hne.
        split; [done|by right].
Qed.

Section ChannelRelay.
Context {Number : Type}.
Variable JSON_parse : jsstring → option (Channels.JSON Number).
Variable JSON_stringify : Channels.JSON Number → jsstring.
Variable now : nat → Number.
Implicit Types (h : Channels.Hub) (socket client c : nat)
  (channelId ch raw text : jsstring) (clients : list nat).

Lemma deliver_loop text clients : ∀ h,
  let h' := foldl (Channels.deliver text) h clients in
  Channels.sent h'
  = Channels.sent h ++ ((λ c, (c, text)) <$> Channels.open_clients h clients)
  ∧ Channels.channels h' = Channels.channels h
  ∧ Channels.listeners h' = Channels.listeners h
  ∧ Channels.socketState h' = Channels.socketState h
  ∧ Channels.clockCalls h' = Channels.clockCalls h.
Proof.
  induction clients as [|c clients IH]; intros h; cbn [foldl].
  - cbn zeta. by rewrite app_nil_r.
  - destruct (IH (Channels.deliver text h c)) as (H1 & H2 & H3 & H4 & H5).
    cbn zeta. rewrite H1, H2, H3, H4, H5.
    unfold Channels.open_clients. rewrite filter_cons.
    unfold Channels.deliver.
    destruct (is_open (Channels.socketState h c)) eqn:E.
    + rewrite decide_True by done. cbn [Channels.send Channels.sent
        Channels.channels Channels.listeners Channels.socketState
        Channels.clockCalls]. rewrite fmap_cons, <- app_assoc. done.
    + rewrite decide_False by done. done.
Qed.

Lemma elem_of_open_clients h clients c :
  c ∈ Channels.open_clients h clients
  ↔ c ∈ clients ∧ Channels.socketState h c = OPEN.
Proof.
  unfold Channels.open_clients. rewrite list_elem_of_filter.
  destruct (Channels.socketState h c); simpl; split; intros [? ?]; done.
Qed.

(** [message] on a channel that has its set. *)
Lemma onMessage_parsed ch raw payload clients h :
  JSON_parse raw = Some payload →
  Map_get ch (Channels.channels h) = Some clients →
  ∃ h', Channels.onMessage JSON_parse JSON_stringify now ch raw h = Some h'
    ∧ Channels.sent h'
      = Channels.sent h
        ++ ((λ c, (c, JSON_stringify
                        (Channels.JObj
                           (Channels.enrich payload
                              (now (Channels.clockCalls h)) ch))))
            <$> Channels.open_clients h clients)
    ∧ Channels.channels h' = Channels.channels h
    ∧ Channels.listeners h' = Channels.listeners h
    ∧ Channels.socketState h' = Channels.socketState h
    ∧ Channels.clockCalls h' = S (Channels.clockCalls h).
Proof.
  intros Hp Hc. unfold Channels.onMessage. rewrite Hp.
  cbn [Channels.channels]. rewrite Hc. eexists. split; [done|].
  match goal with
  | |- context [foldl (Channels.deliver ?t) ?h0 clients] =>
      destruct (deliver_loop t clients h0) as (H1 & H2 & H3 & H4 & H5)
  end.
  cbn zeta in *. by rewrite H1, H2, H3, H4, H5.
Qed.
Lemma get_joined_channel (f : list nat → list nat) (k k' : jsstring)
    (m : list (jsstring * list nat)) :
  Map_get k' (Map_alter f k (if negb (Map_has k m) then Map_set k [] m else m))
  = if decide (k' = k) then Some (f (default [] (Map_get k m)))
    else Map_get k' m.
Proof.
  rewrite <- (get_ensure_alter f k k' [] m). by destruct (Map_has k m).
Qed.

Lemma member_onConnection h socket param ch c :
  Channels.member (Channels.onConnection socket param h) ch c
  ↔ Channels.member h ch c ∨ (ch = Channels.channelIdOf param ∧ c = socket).
Proof.
  unfold Channels.member, Channels.onConnection; cbn [Channels.channels].
  setoid_rewrite get_joined_channel. split.
  - intros (clients & H1 & H2). case_decide as E.
    + subst ch. simplify_eq. apply elem_of_Set_add in H2 as [->|H2].
      * by right.
      * left. destruct (Map_get _ (Channels.channels h)) as [cs|]; simpl in *.
        -- by exists cs.
        -- by apply elem_of_nil in H2.
    + left. by exists clients.
  - intros [(clients & H1 & H2)|[-> ->]]; case_decide as E.
    + subst ch. rewrite H1. simpl. eexists. split; [done|].
      apply elem_of_Set_add. by right.
    + by exists clients.
    + eexists. split; [done|]. apply elem_of_Set_add. by left.
    + done.
Qed.

Lemma sound_onConnection h socket param :
  Channels.sound h → Channels.sound (Channels.onConnection socket param h).
Proof.
  intros (S1 & S2 & S3 & S4). split_and!.
  - intros s ch Hj.
    unfold Channels.onConnection; cbn [Channels.channels].
    rewrite get_joined_channel. case_decide; [done|].
    apply S1 with s. unfold Channels.joined, Channels.onConnection in Hj.
    cbn [Channels.listeners] in Hj.
    apply elem_of_app in Hj as [Hj|Hj%list_elem_of_singleton]; [done|].
    by simplify_eq.
  - intros ch c [Hm|[-> ->]]%member_onConnection;
      unfold Channels.joined, Channels.onConnection;
      cbn [Channels.listeners]; apply elem_of_app.
    + left. by apply S2.
    + right. by apply list_elem_of_singleton.
  - unfold Channels.onConnection; cbn [Channels.channels].
    apply Map_wf_alter. destruct (Map_has _ _); simpl; [done|].
    by apply Map_wf_set.
  - intros ch clients. unfold Channels.onConnection; cbn [Channels.channels].
    assert (∀ ch' cs, (ch', cs) ∈
              (if negb (Map_has (Channels.channelIdOf param)
                          (Channels.channels h))
               then Map_set (Channels.channelIdOf param) []
                      (Channels.channels h)
               else Channels.channels h) → NoDup cs) as Hens.
    { intros ch' cs. destruct (Map_has _ _); simpl; [by apply S4|].
      intros [[-> ->]|Hin]%elem_of_Map_set; [apply NoDup_nil_2|by eapply S4]. }
    intros [Hin|(v0 & Hin & -> & ->)]%elem_of_Map_alter.
    + by eapply Hens.
    + apply NoDup_Set_add. by eapply Hens.
Qed.

Lemma sound_same h h' :
  Channels.channels h' = Channels.channels h →
  Channels.listeners h' = Channels.listeners h →
  Channels.sound h → Channels.sound h'.
Proof.
  unfold Channels.sound, Channels.joined, Channels.member.
  by intros -> ->.
Qed.

(** The listeners of [socket] among [registered], run on a message. *)
Lemma emit_message raw socket registered : ∀ h,
  (∀ s ch, (s, ch) ∈ registered →
           is_Some (Map_get ch (Channels.channels h))) →
  ∃ h' written,
    Channels.emit
      (λ channelId, Channels.onMessage JSON_parse JSON_stringify now
                      channelId raw)
      socket registered h = Some h'
    ∧ Channels.channels h' = Channels.channels h
    ∧ Channels.listeners h' = Channels.listeners h
    ∧ Channels.socketState h' = Channels.socketState h
    ∧ Channels.sent h' = Channels.sent h ++ written
    ∧ (JSON_parse raw = None → h' = h)
    ∧ ∀ c t, (c, t) ∈ written →
             Channels.socketState h c = OPEN
             ∧ ∃ ch, (socket, ch) ∈ registered ∧ Channels.member h ch c.
Proof.
  induction registered as [|[s ch] rest IH]; intros h Hkeys; cbn [Channels.emit].
  - exists h, []. rewrite app_nil_r. split_and!; try done.
    by intros c t Hin%elem_of_nil.
  - assert (∀ s0 ch0, (s0, ch0) ∈ rest →
              is_Some (Map_get ch0 (Channels.channels h))) as Hrest.
    { intros s0 ch0 Hin. apply (Hkeys s0). by right. }
    case_decide as Es.
    + subst s. destruct (Hkeys socket ch) as [clients Hc]; [by left|].
      destruct (JSON_parse raw) as [payload|] eqn:Hp.
      * destruct (onMessage_parsed ch raw payload clients h Hp Hc)
          as (h1 & -> & Hsent & Hch & Hl & Hst & _).
        destruct (IH h1) as (h' & written & -> & K1 & K2 & K3 & K4 & _ & K6).
        { intros s0 ch0 Hin. rewrite Hch. by eapply Hrest. }
        eexists h', _. split_and!; [done|congruence..| | |].
        -- rewrite K4, Hsent, <- app_assoc. done.
        -- done.
        -- intros c t [Hin|Hin]%elem_of_app.
           ++ apply list_elem_of_fmap in Hin as (c0 & Heq & Hin).
              simplify_eq. apply elem_of_open_clients in Hin as [Hin Hopen].
              split; [done|]. exists ch. split; [by left|]. by exists clients.
           ++ destruct (K6 c t Hin) as [Hopen (ch0 & Hin0 & Hm)].
              split; [congruence|]. exists ch0. split; [by right|].
              unfold Channels.member in *. by rewrite <- Hch.
      * unfold Channels.onMessage at 1. rewrite Hp.
        destruct (IH h Hrest)
          as (h' & written & -> & K1 & K2 & K3 & K4 & K5 & K6).
        exists h', written. split_and!; try done.
        intros c t Hin. destruct (K6 c t Hin) as [Hopen (ch0 & Hin0 & Hm)].
        split; [done|]. exists ch0. split; [by right|done].
    + destruct (IH h Hrest)
        as (h' & written & -> & K1 & K2 & K3 & K4 & K5 & K6).
      exists h', written. split_and!; try done.
      intros c t Hin. destruct (K6 c t Hin) as [Hopen (ch0 & Hin0 & Hm)].
      split; [done|]. exists ch0. split; [by right|done].
Qed.

Lemma relay_sound_step h e :
  Channels.sound h →
  ∃ h', Channels.step JSON_parse JSON_stringify now h e = Some h'
        ∧ Channels.sound h'.
Proof.
  intros Hs. destruct e as [socket param|socket raw|socket]; simpl.
  - eexists. split; [done|]. by apply sound_onConnection.
  - destruct (emit_message raw socket (Channels.listeners h) h)
      as (h' & written & -> & K1 & K2 & _).
    { intros s ch Hin. destruct Hs as (S1 & _). by apply (S1 s). }
    exists h'. split; [done|]. by apply (sound_same h).
  - destruct (emit_close socket (Channels.listeners h) h)
      as (h' & -> & _ & _ & _ & _ & _ & K6).
    exists h'. split; [done|]. by apply K6.
Qed.

Lemma relay_sound_run events : ∀ h,
  Channels.sound h →
  ∃ h', Channels.run JSON_parse JSON_stringify now h events = Some h'
        ∧ Channels.sound h'.
Proof.
  induction events as [|e events IH]; intros h Hs; cbn [Channels.run].
  - by exists h.
  - destruct (relay_sound_step h e Hs) as (h1 & -> & Hs1). by apply IH.
Qed.

Lemma relay_sound_start state : Channels.sound (Channels.start state).
Proof.
  split_and!.
  - by intros s ch Hin%elem_of_nil.
  - by intros ch c (clients & H & _).
  - apply Map_wf_nil.
  - by intros ch clients Hin%elem_of_nil.
Qed.

Lemma relay_run_sound state events h :
  Channels.run JSON_parse JSON_stringify now (Channels.start state) events
  = Some h →
  Channels.sound h.
Proof.
  intros Hrun.
  destruct (relay_sound_run events (Channels.start state) (relay_sound_start state))
    as (h' & Hrun' & Hs).
  congruence.
Qed.
End ChannelRelay.


Section ChannelRelayProperties.
Context {Number : Type}.
Variable JSON_parse : jsstring → option (Channels.JSON Number).
Variable JSON_stringify : Channels.JSON Number → jsstring.
Variable now : nat → Number.
Implicit Types (h : Channels.Hub) (socket client c : nat)
  (channelId ch raw text : jsstring) (clients : list nat).

Lemma Map_set_fresh {K V} `{!EqDecision K} (k : K) (v : V)
    (m : list (K * V)) :
  k ∉ m.*1 → Map_set k v m = m ++ [(k, v)].
Proof.
  induction m as [|[k0 v0] m IH]; simpl; [done|].
  intros [Hne Hk]%not_elem_of_cons. rewrite decide_False by done.
  by rewrite IH.
Qed.

Lemma spread_fresh (props : list (jsstring * Channels.JSON Number)) :
  ∀ acc, NoDup ((acc ++ props).*1) →
  foldl (λ o kv, Map_set kv.1 kv.2 o) acc props = acc ++ props.
Proof.
  induction props as [|[k v] props IH]; intros acc Hnd; cbn [foldl].
  - by rewrite app_nil_r.
  - cbn [fst snd]. rewrite fmap_app, fmap_cons in Hnd. cbn [fst] in Hnd.
    rewrite Map_set_fresh.
    + rewrite IH; [by rewrite <- app_assoc|].
      rewrite <- app_assoc. cbn [app]. by rewrite fmap_app, fmap_cons.
    + apply NoDup_app in Hnd as (_ & Hdisj & _). intros Hin.
      apply (Hdisj k Hin). by left.
Qed.

Lemma spread_object (props : list (jsstring * Channels.JSON Number)) :
  Map_wf props → Channels.spread (Channels.JObj props) = props.
Proof. intros Hwf. unfold Channels.spread. by rewrite spread_fresh. Qed.
End ChannelRelayProperties.

(** X20: the [message] listener of a connection to a channel that has its
    set, on a text [JSON.parse] accepts: every socket of the set that is
    open is sent one text, in the order the sockets joined, the sender
    included; the text is the same for all: [JSON.stringify] of an object
    whose [timestamp] is the clock and whose [channelId] is the
    listener's channel, whatever the payload holds under these names; every
    other property of the payload is passed on.  Sets and socket states
    stay as they were. *)
Theorem message_is_relayed {Number : Type}
    (JSON_parse : jsstring → option (Channels.JSON Number))
    (JSON_stringify : Channels.JSON Number → jsstring) (now : nat → Number)
    (ch raw : jsstring) (payload : Channels.JSON Number)
    (clients : list nat) (h : Channels.Hub) :
  JSON_parse raw = Some payload →
  Map_get ch (Channels.channels h) = Some clients →
  let object := Channels.enrich payload (now (Channels.clockCalls h)) ch in
  ∃ h', Channels.onMessage JSON_parse JSON_stringify now ch raw h = Some h'
    ∧ Channels.sent h'
      = Channels.sent h
        ++ ((λ c, (c, JSON_stringify (Channels.JObj object)))
            <$> Channels.open_clients h clients)
    ∧ Map_get (lit "timestamp") object
      = Some (Channels.JNum (now (Channels.clockCalls h)))
    ∧ Map_get (lit "channelId") object = Some (Channels.JStr ch)
    ∧ (∀ k, k ≠ lit "timestamp" → k ≠ lit "channelId" →
            Map_get k object = Map_get k (Channels.spread payload))
    ∧ (∀ props, payload = Channels.JObj props → Map_wf props →
                Channels.spread payload = props)
    ∧ Channels.channels h' = Channels.channels h
    ∧ Channels.socketState h' = Channels.socketState h.
Proof.
  intros Hp Hc object.
  destruct (onMessage_parsed JSON_parse JSON_stringify now ch raw payload
              clients h Hp Hc) as (h' & Hm & Hsent & Hch & _ & Hst & _).
  exists h'. split_and!; [done|done| | | | |done|done].
  - unfold object, Channels.enrich. rewrite !Map_get_set.
    rewrite decide_False; [by rewrite decide_True|].
    intros E. by vm_compute in E.
  - unfold object, Channels.enrich. by rewrite Map_get_set, decide_True.
  - intros k Hk1 Hk2. unfold object, Channels.enrich.
    by rewrite !Map_get_set, !decide_False.
  - intros props -> Hwf. by apply spread_object.
Qed.

Lemma message_is_relayed_witness :
  ∃ h', Channels.onMessage sample_parse sample_stringify sample_now
          (lit "room") (lit "{}") sample_hub = Some h'
    ∧ Channels.sent h'
      = Channels.sent sample_hub
        ++ [(1, lit "{timestampchannelId}")].
Proof.
  assert (sample_parse (lit "{}") = Some (Channels.JObj [])) as Hp
    by by vm_compute.
  assert (Map_get (lit "room") (Channels.channels sample_hub) = Some [1])
    as Hc by by vm_compute.
  destruct (message_is_relayed sample_parse sample_stringify sample_now
              (lit "room") (lit "{}") (Channels.JObj []) [1] sample_hub
              Hp Hc) as (h' & Hm & Hsent & _).
  exists h'. split; [exact Hm|]. rewrite Hsent. by vm_compute.
Defined.

(** X21: the loop of the [message] listener always finds its set: from
    the start, whatever connections, messages and close events arrive, in
    whatever order and with whatever texts, [channels.get(channelId)] is
    never [undefined] where a listener iterates over it, so every listener
    runs to its end.  In the state reached the channel a listener captured
    has its set, every member of a set connected to that channel, and no
    channel or member is listed twice. *)
Theorem relay_never_throws {Number : Type}
    (JSON_parse : jsstring → option (Channels.JSON Number))
    (JSON_stringify : Channels.JSON Number → jsstring) (now : nat → Number)
    (state : nat → ReadyState) (events : list Channels.Event) :
  ∃ h, Channels.run JSON_parse JSON_stringify now (Channels.start state)
         events = Some h
       ∧ Channels.sound h.
Proof. apply relay_sound_run, relay_sound_start. Qed.

(** X22: a message stays in its channel: in a state the relay reaches from
    the start, a message on a socket is answered by sends to sockets that
    are open and are members of a channel the speaking socket connected
    to, and to no other socket; a text [JSON.parse] rejects changes
    nothing. *)
Theorem message_stays_in_channel {Number : Type}
    (JSON_parse : jsstring → option (Channels.JSON Number))
    (JSON_stringify : Channels.JSON Number → jsstring) (now : nat → Number)
    (state : nat → ReadyState) (events : list Channels.Event)
    (h : Channels.Hub) (socket : nat) (raw : jsstring) :
  Channels.run JSON_parse JSON_stringify now (Channels.start state) events
  = Some h →
  ∃ h' written,
    Channels.step JSON_parse JSON_stringify now h
      (Channels.Message socket raw) = Some h'
    ∧ Channels.sent h' = Channels.sent h ++ written
    ∧ Channels.channels h' = Channels.channels h
    ∧ (JSON_parse raw = None → h' = h)
    ∧ ∀ c t, (c, t) ∈ written →
             Channels.socketState h c = OPEN
             ∧ ∃ ch, Channels.joined h socket ch ∧ Channels.member h ch c.
Proof.
  intros Hrun%relay_run_sound. destruct Hrun as (S1 & _).
  destruct (emit_message JSON_parse JSON_stringify now raw socket
              (Channels.listeners h) h)
    as (h' & written & Hm & K1 & _ & _ & K4 & K5 & K6).
  { intros s ch Hin. by apply (S1 s). }
  by exists h', written.
Qed.

Lemma message_stays_in_channel_witness :
  ∃ h' written,
    Channels.step sample_parse sample_stringify sample_now sample_hub
      (Channels.Message 3 (lit "42")) = Some h'
    ∧ Channels.sent h' = Channels.sent sample_hub ++ written
    ∧ ∀ c t, (c, t) ∈ written → c = 3.
Proof.
  assert (Channels.run sample_parse sample_stringify sample_now
            (Channels.start everyone_open) sample_relay_events
          = Some sample_hub) as Hrun by by vm_compute.
  destruct (message_stays_in_channel sample_parse sample_stringify sample_now
              everyone_open sample_relay_events sample_hub 3 (lit "42") Hrun)
    as (h' & written & Hm & Hsent & _ & _ & Hw).
  exists h', written. split_and!; [exact Hm|exact Hsent|].
  intros c t Hin. destruct (Hw c t Hin) as [_ (ch & Hj & clients & Hc & Hin')].
  vm_compute in Hj.
  repeat (apply elem_of_cons in Hj as [Hj|Hj]; [simplify_eq|]).
  - vm_compute in Hc. simplify_eq.
    by apply list_elem_of_singleton in Hin'.
  - by apply elem_of_nil in Hj.
Defined.

(** X23: a socket that connects is a member of its channel, [general] when
    the URL gives no channel or an empty one, and of the channels it was
    in before; no other membership changes; while it is open, a message in
    its channel is sent to it. *)
Theorem connection_then_message {Number : Type}
    (JSON_parse : jsstring → option (Channels.JSON Number))
    (JSON_stringify : Channels.JSON Number → jsstring) (now : nat → Number)
    (socket : nat) (param : option jsstring) (raw : jsstring)
    (payload : Channels.JSON Number) (h : Channels.Hub) :
  JSON_parse raw = Some payload →
  Channels.socketState h socket = OPEN →
  let ch := Channels.channelIdOf param in
  let h1 := Channels.onConnection socket param h in
  (param = None ∨ param = Some [] → ch = lit "general")
  ∧ (∀ ch' c, Channels.member h1 ch' c
              ↔ Channels.member h ch' c ∨ (ch' = ch ∧ c = socket))
  ∧ ∃ h2 written,
      Channels.onMessage JSON_parse JSON_stringify now ch raw h1 = Some h2
      ∧ Channels.sent h2 = Channels.sent h ++ written
      ∧ (socket,
         JSON_stringify
           (Channels.JObj
              (Channels.enrich payload (now (Channels.clockCalls h)) ch)))
        ∈ written.
Proof.
  intros Hp Hopen ch h1. split_and!.
  - by intros [->| ->].
  - intros ch' c. apply member_onConnection.
  - destruct (proj2 (member_onConnection h socket param ch socket))
      as (clients & Hc & Hin); [by right|].
    destruct (onMessage_parsed JSON_parse JSON_stringify now ch raw payload
                clients h1 Hp Hc) as (h2 & Hm & Hsent & _).
    eexists h2, _. split_and!; [exact Hm|exact Hsent|].
    apply list_elem_of_fmap. exists socket. split; [done|].
    apply elem_of_open_clients. split; [done|]. exact Hopen.
Qed.

Lemma connection_then_message_witness :
  ∃ h2 written,
    Channels.onMessage sample_parse sample_stringify sample_now
      (lit "general") (lit "{}")
      (Channels.onConnection 4 (Some []) sample_hub) = Some h2
    ∧ Channels.sent h2 = Channels.sent sample_hub ++ written
    ∧ (4, lit "{timestampchannelId}") ∈ written.
Proof.
  assert (sample_parse (lit "{}") = Some (Channels.JObj [])) as Hp
    by by vm_compute.
  assert (Channels.socketState sample_hub 4 = OPEN) as Hopen by by vm_compute.
  destruct (connection_then_message sample_parse sample_stringify sample_now
              4 (Some []) (lit "{}") (Channels.JObj []) sample_hub Hp Hopen)
    as (_ & _ & h2 & written & Hm & Hsent & Hin).
  exists h2, written. split_and!; [exact Hm|exact Hsent|exact Hin].
Defined.

(** X24: in a state the relay reaches from the start, the close of a
    socket takes it out of every channel and changes no other membership;
    nothing is sent, and every channel keeps its set, empty or not: the
    map of channels never loses a key. *)
Theorem close_leaves_channels {Number : Type}
    (JSON_parse : jsstring → option (Channels.JSON Number))
    (JSON_stringify : Channels.JSON Number → jsstring) (now : nat → Number)
    (state : nat → ReadyState) (events : list Channels.Event)
    (h : Channels.Hub) (socket : nat) :
  Channels.run JSON_parse JSON_stringify now (Channels.start state) events
  = Some h →
  ∃ h',
    Channels.step JSON_parse JSON_stringify now h (Channels.Close socket)
    = Some h'
    ∧ (∀ ch, ¬ Channels.member h' ch socket)
    ∧ (∀ ch c, c ≠ socket →
               (Channels.member h' ch c ↔ Channels.member h ch c))
    ∧ (Channels.channels h').*1 = (Channels.channels h).*1
    ∧ Channels.sent h' = Channels.sent h.
Proof.
  intros Hrun%relay_run_sound. destruct Hrun as (_ & S2 & _).
  destruct (emit_close socket (Channels.listeners h) h)
    as (h' & Hm & _ & K2 & K3 & _ & K5 & _).
  exists h'. split_and!; [exact Hm| | |done|done].
  - intros ch [Hmem Hne]%K5. apply Hne. split; [done|]. by apply S2.
  - intros ch c Hc. rewrite K5. split; [tauto|]. intros Hmem.
    split; [done|]. by intros [-> _].
Qed.

Lemma close_leaves_channels_witness :
  ∃ h',
    Channels.step sample_parse sample_stringify sample_now sample_hub
      (Channels.Close 1) = Some h'
    ∧ (∀ ch, ¬ Channels.member h' ch 1)
    ∧ (Channels.channels h').*1 = [lit "room"; lit "general"].
Proof.
  assert (Channels.run sample_parse sample_stringify sample_now
            (Channels.start everyone_open) sample_relay_events
          = Some sample_hub) as Hrun by by vm_compute.
  destruct (close_leaves_channels sample_parse sample_stringify sample_now
              everyone_open sample_relay_events sample_hub 1 Hrun)
    as (h' & Hm & Hnone & _ & Hkeys & _).
  exists h'. split_and!; [exact Hm|exact Hnone|].
  rewrite Hkeys. by vm_compute.
Defined.


(** * The two bindings, while every transport is open *)

Section SameWhileOpen.
Variable randomUUID : nat → jsstring.

Lemma handleFrame_keeps_readyState ws frame w :
  command frame ≠ lit "DISCONNECT" →
  readyState (Native.handleFrame randomUUID ws frame w) = readyState w.
Proof.
  intros Hcmd. unfold Native.handleFrame.
  repeat match goal with
         | |- context [if ?b then _ else _] => destruct b eqn:?
         end;
    try done;
    try (by destruct (sendFrame_writes ws (lit "CONNECTED")
                        [(lit "version", lit "1.2")] [] w) as (? & _ & _ & ->));
    try (by destruct (sendFrame_writes ws (lit "ERROR")
                        [(lit "message",
                          lit "Subscription requires id and destination")]
                        (lit "Missing id or destination header") w)
           as (? & _ & _ & ->));
    try apply Native_broadcast_readyState.
  match goal with
  | H : bool_decide (command frame = lit "DISCONNECT") = true |- _ =>
      by apply bool_decide_eq_true in H
  end.
Qed.

Lemma frames_same_while_open ws frames : ∀ w,
  (∀ c, readyState w c = OPEN) →
  Forall (λ f, command f ≠ lit "DISCONNECT") frames →
  foldl (λ w frame, SockJS.handleFrame randomUUID ws frame w) w frames
  = foldl (λ w frame, Native.handleFrame randomUUID ws frame w) w frames
  ∧ ∀ c, readyState
           (foldl (λ w frame, Native.handleFrame randomUUID ws frame w)
              w frames) c = OPEN.
Proof.
  induction frames as [|f frames IH]; intros w Hopen Hcmd; [done|].
  apply Forall_cons in Hcmd as [Hf Hcmd]. cbn [foldl].
  rewrite handleFrame_same_when_open by done.
  apply IH; [|done]. intros c.
  by rewrite handleFrame_keeps_readyState.
Qed.
End SameWhileOpen.

(** X25: while every transport is open, the two bindings do the same with
    a chunk that holds no [DISCONNECT] frame: the world the SockJS data
    handler leaves is the world the native message listener leaves, in
    indices, frames written and identifiers drawn, and every transport is
    still open. *)
Theorem bindings_agree_while_open (randomUUID : nat → jsstring) (c : nat)
    (chunk : jsstring) (w : World) :
  (∀ c', readyState w c' = OPEN) →
  Forall (λ f, command f ≠ lit "DISCONNECT") (Native.parseFrames chunk) →
  SockJS.onData randomUUID c chunk w = Native.onMessage randomUUID c chunk w
  ∧ ∀ c', readyState (Native.onMessage randomUUID c chunk w) c' = OPEN.
Proof.
  intros Hopen Hcmd. unfold SockJS.onData, Native.onMessage.
  change (SockJS.parseFrames chunk) with (Native.parseFrames chunk).
  by apply frames_same_while_open.
Qed.

Lemma bindings_agree_while_open_witness :
  SockJS.onData sampleUUID 1
    (subscribeChunk (lit "s1") (lit "room/1")
     ++ sendChunk (lit "room/1") (lit "hello")) room_world
  = Native.onMessage sampleUUID 1
      (subscribeChunk (lit "s1") (lit "room/1")
       ++ sendChunk (lit "room/1") (lit "hello")) room_world.
Proof.
  apply bindings_agree_while_open.
  - done.
  - assert (Native.parseFrames
              (subscribeChunk (lit "s1") (lit "room/1")
               ++ sendChunk (lit "room/1") (lit "hello"))
            = [ subscribeFrame (lit "s1") (lit "room/1");
                sendFrameTo (lit "room/1") (lit "hello") ]) as ->
      by by vm_compute.
    repeat constructor; intros E; by vm_compute in E.
Defined.


(** * The body of a decoded frame *)

Section Body.
Implicit Types (s seg raw chunk : jsstring).

Lemma split1_head_prefix sep s : ∀ seg rest,
  split1 sep s = seg :: rest → ∃ post, s = seg ++ post.
Proof.
  induction s as [|x s IH]; intros seg rest; simpl.
  - intros [= <- <-]. by exists [].
  - destruct (x =? sep)%N.
    + intros [= <- <-]. by exists (x :: s).
    + destruct (split1 sep s) as [|seg0 rest0] eqn:E; simpl.
      * by apply split1_nonempty in E.
      * intros [= <- <-]. destruct (IH seg0 rest0 eq_refl) as [post ->].
        by exists post.
Qed.

Lemma split1_piece sep s seg :
  seg ∈ split1 sep s → ∃ pre post, s = pre ++ seg ++ post.
Proof.
  induction s as [|x s IH]; simpl.
  - intros ->%list_elem_of_singleton. by exists [], [].
  - destruct (x =? sep)%N.
    + intros [->|Hin]%elem_of_cons.
      * by exists [], (x :: s).
      * destruct (IH Hin) as (pre & post & ->). by exists (x :: pre), post.
    + destruct (split1 sep s) as [|seg0 rest0] eqn:E; simpl.
      * by apply split1_nonempty in E.
      * intros [->|Hin]%elem_of_cons.
        -- destruct (split1_head_prefix sep s seg0 rest0 E) as [post ->].
           by exists [], post.
        -- destruct IH as (pre & post & ->); [by right|].
           by exists (x :: pre), post.
Qed.
End Body.

(** X26: the body of a decoded frame is taken over as it stands: it is
    empty, or the chunk holds it, code unit for code unit, right after two
    line feeds in a row (white space and blank lines inside it are kept).
    From a chunk without two line feeds in a row (lines ended by CR LF,
    say) every decoded frame has an empty body. *)
Theorem body_is_verbatim (chunk : jsstring) (f : Frame) :
  f ∈ Native.parseFrames chunk →
  (body f = [] ∨ ∃ pre post, chunk = pre ++ NL :: NL :: body f ++ post)
  ∧ (has_blank chunk = false → body f = []).
Proof.
  rewrite parseFrames_loop. intros (raw & Hraw & Hf)%elem_of_parseLoop.
  assert (body f = []
          ∨ ∃ pre post, chunk = pre ++ NL :: NL :: body f ++ post) as Hbody.
  { destruct (parseRaw_body raw f Hf) as (first & parts & Hs & Hb).
    destruct parts as [|p ps]; [by left|]. right.
    destruct (split1_piece NUL chunk raw Hraw) as (pre & post & ->).
    exists (pre ++ first), post.
    rewrite <- (join_split_blank raw), Hs, join_cons, <- Hb by done.
    by rewrite <- !app_assoc. }
  split; [done|]. intros Hblank.
  destruct Hbody as [?|(pre & post & ->)]; [done|].
  by apply has_blank_app_r in Hblank.
Qed.

Lemma body_is_verbatim_witness :
  sendFrameTo (lit "news") (lit "hello")
    ∈ Native.parseFrames (sendChunk (lit "news") (lit "hello"))
  ∧ (body (sendFrameTo (lit "news") (lit "hello")) = []
     ∨ ∃ pre post,
         sendChunk (lit "news") (lit "hello")
         = pre ++ NL :: NL :: body (sendFrameTo (lit "news") (lit "hello"))
           ++ post).
Proof.
  assert (sendFrameTo (lit "news") (lit "hello")
            ∈ Native.parseFrames (sendChunk (lit "news") (lit "hello")))
    as Hin.
  { assert (Native.parseFrames (sendChunk (lit "news") (lit "hello"))
            = [sendFrameTo (lit "news") (lit "hello")]) as ->
      by by vm_compute.
    left. }
  split; [exact Hin|].
  exact (proj1 (body_is_verbatim _ _ Hin)).
Defined.
